(** * BecaonSim: photometric field, iso-contour extraction, geometry optimizer

    A shallow embedding of the numerical core of the LED visibility
    simulator:

    - [utils/marchSquares.ts]  (marching squares, graph stitching, Chaikin),
    - [physics.ts]             (lerp, table lookup, beam pattern, Allard's law;
                                also the earlier version of the file),
    - [App.tsx]                (generateLedConfig, findExtent and the search of
                                handleOptimize with its coverage score).

    JavaScript numbers are abstracted by the interface [Number]: the code is
    embedded once, over any carrier with the arithmetic and the comparisons
    the source uses.  Four carriers are provided: [jsnum] (exact rationals
    plus NaN, executable), the real numbers [R] (for the statements that
    need [sqrt], [sin], [cos], [acos] and [exp]), [xreal] (real numbers
    plus NaN, where an operation outside its domain is visible) and [dnum]
    (real numbers with the range of IEEE doubles: a result too large is an
    infinity, a result too small is 0, and the infinities and NaN combine as
    in IEEE 754).  The statements about overflow are made over [dnum]; the
    rounding of a result that is in range is not modelled by any carrier. *)

From Stdlib Require Import List Finite ZArith QArith Qabs Qreduction Bool Arith Lia.
From Stdlib Require Import Reals Lra.
From Stdlib Require Import Sorted.
Import ListNotations.

Set Implicit Arguments.
Open Scope nat_scope.

(* ================================================================== *)
(** * Numbers *)

(** The operations of a JavaScript [number] that the sources use.
    [nle a b] is [a <= b], [nlt a b] is [a < b]. *)
Class Number (T : Type) : Type := {
  lit  : Q -> T;
  nadd : T -> T -> T;
  nsub : T -> T -> T;
  nmul : T -> T -> T;
  ndiv : T -> T -> T;
  nabs : T -> T;
  nneg : T -> T;
  nle  : T -> T -> bool;
  nlt  : T -> T -> bool;
  undef : T
}.

Declare Scope js_scope.
Delimit Scope js_scope with js.
Notation "a + b" := (nadd a b) : js_scope.
Notation "a - b" := (nsub a b) : js_scope.
Notation "a * b" := (nmul a b) : js_scope.
Notation "a / b" := (ndiv a b) : js_scope.
Notation "- a" := (nneg a) : js_scope.
Notation "a <=? b" := (nle a b) : js_scope.
Notation "a <? b" := (nlt a b) : js_scope.
Notation "a >=? b" := (nle b a) (at level 70) : js_scope.
Notation "a >? b" := (nlt b a) (at level 70) : js_scope.

Section NumberOps.
Context {T : Type} `{Number T}.

(** [Math.max] and [Math.min] of two numbers.  Two numbers that compare
    neither way include a NaN, and the result is NaN. *)
Definition nmax (a b : T) : T :=
  if (a <=? b)%js then b else if (b <=? a)%js then a else undef.
Definition nmin (a b : T) : T :=
  if (a <=? b)%js then a else if (b <=? a)%js then b else undef.

(** An integer loop index used as a number. *)
Definition of_nat (n : nat) : T := lit (inject_Z (Z.of_nat n)).
End NumberOps.

(** ** Exact rationals with NaN

    [undefined] read from an array behaves as NaN in every use the sources
    make of it (arithmetic and comparisons); a division by zero is folded
    into NaN as well.  Results are kept in lowest terms, so that equal
    numbers are equal terms. *)
Inductive jsnum : Type :=
| Fin (q : Q)
| NaN.

Definition jlift2 (f : Q -> Q -> Q) (a b : jsnum) : jsnum :=
  match a, b with
  | Fin x, Fin y => Fin (Qred (f x y))
  | _, _ => NaN
  end.

Definition jdiv (a b : jsnum) : jsnum :=
  match a, b with
  | Fin x, Fin y => if Qeq_bool y 0 then NaN else Fin (Qred (x / y))
  | _, _ => NaN
  end.

Definition jabs (a : jsnum) : jsnum :=
  match a with Fin x => Fin (Qred (Qabs x)) | NaN => NaN end.

Definition jneg (a : jsnum) : jsnum :=
  match a with Fin x => Fin (Qred (Qopp x)) | NaN => NaN end.

Definition jle (a b : jsnum) : bool :=
  match a, b with Fin x, Fin y => Qle_bool x y | _, _ => false end.

Definition jlt (a b : jsnum) : bool :=
  match a, b with Fin x, Fin y => negb (Qle_bool y x) | _, _ => false end.

#[export] Instance jsnum_Number : Number jsnum := {|
  lit q := Fin (Qred q);
  nadd := jlift2 Qplus;
  nsub := jlift2 Qminus;
  nmul := jlift2 Qmult;
  ndiv := jdiv;
  nabs := jabs;
  nneg := jneg;
  nle := jle;
  nlt := jlt;
  undef := NaN
|}.

(** ** Real numbers

    Arithmetic is exact: a statement over [R] does not speak of the
    overflow, the underflow or the rounding of doubles.  [R] has no NaN;
    [undef] is only read by the contour extractor on a grid whose [data] is
    shorter than [width * height], and no statement below instantiates the
    extractor at [R]. *)

Definition Rleb (a b : R) : bool := if Rle_dec a b then true else false.
Definition Rltb (a b : R) : bool := if Rlt_dec a b then true else false.

#[export] Instance R_Number : Number R := {|
  lit := Q2R;
  nadd := Rplus;
  nsub := Rminus;
  nmul := Rmult;
  ndiv := Rdiv;
  nabs := Rabs;
  nneg := Ropp;
  nle := Rleb;
  nlt := Rltb;
  undef := 0%R
|}.

(** ** Real numbers with NaN

    A division by zero yields NaN (JavaScript yields an infinity or NaN);
    comparisons with NaN are false.  Arithmetic on numbers is exact, without
    overflow; the carrier [dnum] below has the range of doubles. *)
Inductive xreal : Type :=
| XFin (r : R)
| XNaN.

Definition xlift1 (f : R -> R) (a : xreal) : xreal :=
  match a with XFin x => XFin (f x) | XNaN => XNaN end.

Definition xlift2 (f : R -> R -> R) (a b : xreal) : xreal :=
  match a, b with
  | XFin x, XFin y => XFin (f x y)
  | _, _ => XNaN
  end.

Definition xdiv (a b : xreal) : xreal :=
  match a, b with
  | XFin x, XFin y => if Req_dec_T y 0 then XNaN else XFin (x / y)%R
  | _, _ => XNaN
  end.

Definition xle (a b : xreal) : bool :=
  match a, b with XFin x, XFin y => Rleb x y | _, _ => false end.

Definition xlt (a b : xreal) : bool :=
  match a, b with XFin x, XFin y => Rltb x y | _, _ => false end.

#[export] Instance xreal_Number : Number xreal := {|
  lit q := XFin (Q2R q);
  nadd := xlift2 Rplus;
  nsub := xlift2 Rminus;
  nmul := xlift2 Rmult;
  ndiv := xdiv;
  nabs := xlift1 Rabs;
  nneg := xlift1 Ropp;
  nle := xle;
  nlt := xlt;
  undef := XNaN
|}.

(** ** Reals with the range of binary64

    A number is a real, an infinity or NaN.  The exact result of an
    operation on two reals becomes an infinity when its magnitude reaches
    [OVER = 2^1024 - 2^970] (from there on round-to-nearest yields an
    infinity), becomes 0 when its magnitude is at most [UNDER = 2^-1075]
    (half the smallest subnormal), and is kept as it is in between: overflow
    and underflow are those of IEEE doubles, the rounding of a result that
    is in range is not modelled.  Infinities and NaN follow IEEE 754
    ([Infinity * 0], [Infinity - Infinity] and [Infinity / Infinity] are NaN,
    every comparison with NaN is false).  The sign of zero is not kept: a
    non-zero number divided by zero is the infinity of the sign of the
    numerator. *)
Inductive dnum : Type :=
| DFin (r : R)
| DInf (negative : bool)
| DNaN.

Definition OVERZ : Z := Eval vm_compute in (2 ^ 1024 - 2 ^ 970)%Z.
Definition UNDERZ : Z := Eval vm_compute in (2 ^ 1075)%Z.
Definition OVER : R := IZR OVERZ.
Definition UNDER : R := (/ IZR UNDERZ)%R.

Definition dround (r : R) : dnum :=
  if Rleb OVER (Rabs r) then DInf (Rltb r 0)
  else if Rleb (Rabs r) UNDER then DFin 0
  else DFin r.

Definition dneg (a : dnum) : dnum :=
  match a with
  | DFin x => DFin (- x)%R
  | DInf s => DInf (negb s)
  | DNaN => DNaN
  end.

Definition dabs (a : dnum) : dnum :=
  match a with
  | DFin x => DFin (Rabs x)
  | DInf _ => DInf false
  | DNaN => DNaN
  end.

Definition dadd (a b : dnum) : dnum :=
  match a, b with
  | DFin x, DFin y => dround (x + y)%R
  | DFin _, DInf s | DInf s, DFin _ => DInf s
  | DInf s, DInf s' => if Bool.eqb s s' then DInf s else DNaN
  | _, _ => DNaN
  end.

Definition dsub (a b : dnum) : dnum := dadd a (dneg b).

Definition dmul (a b : dnum) : dnum :=
  match a, b with
  | DFin x, DFin y => dround (x * y)%R
  | DFin x, DInf s | DInf s, DFin x =>
      if Req_dec_T x 0 then DNaN else DInf (xorb s (Rltb x 0))
  | DInf s, DInf s' => DInf (xorb s s')
  | _, _ => DNaN
  end.

Definition ddiv (a b : dnum) : dnum :=
  match a, b with
  | DFin x, DFin y =>
      if Req_dec_T y 0
      then (if Req_dec_T x 0 then DNaN else DInf (Rltb x 0))
      else dround (x / y)%R
  | DFin _, DInf _ => DFin 0
  | DInf s, DFin y => DInf (xorb s (Rltb y 0))
  | _, _ => DNaN
  end.

Definition dle (a b : dnum) : bool :=
  match a, b with
  | DFin x, DFin y => Rleb x y
  | DFin _, DInf s => negb s
  | DInf s, DFin _ => s
  | DInf s, DInf s' => s || negb s'
  | _, _ => false
  end.

Definition dlt (a b : dnum) : bool :=
  match a, b with
  | DFin x, DFin y => Rltb x y
  | DFin _, DInf s => negb s
  | DInf s, DFin _ => s
  | DInf s, DInf s' => s && negb s'
  | _, _ => false
  end.

#[export] Instance dnum_Number : Number dnum := {|
  lit q := dround (Q2R q);
  nadd := dadd;
  nsub := dsub;
  nmul := dmul;
  ndiv := ddiv;
  nabs := dabs;
  nneg := dneg;
  nle := dle;
  nlt := dlt;
  undef := DNaN
|}.

(* ================================================================== *)
(** * Contour extraction: utils/marchSquares.ts *)

Module Contour.

(** ** Edge identities

    The source names a grid edge by the string [`${type}:${x}:${y}`];
    for integer coordinates that string determines the triple, which is
    what the model keeps. *)
Inductive EdgeType : Type := H | V.

Definition EdgeKey : Type := (EdgeType * nat * nat)%type.

Definition getEdgeKey (ty : EdgeType) (x y : nat) : EdgeKey := (ty, x, y).

Definition EdgeType_eqb (a b : EdgeType) : bool :=
  match a, b with H, H | V, V => true | _, _ => false end.

Definition key_eqb (a b : EdgeKey) : bool :=
  let '(ta, xa, ya) := a in
  let '(tb, xb, yb) := b in
  EdgeType_eqb ta tb && Nat.eqb xa xb && Nat.eqb ya yb.

(** ** Insertion-ordered maps and sets ([Map], [Set]) *)

Definition mhas {A} (k : EdgeKey) (m : list (EdgeKey * A)) : bool :=
  existsb (fun e => key_eqb (fst e) k) m.

Fixpoint mget {A} (k : EdgeKey) (m : list (EdgeKey * A)) : option A :=
  match m with
  | [] => None
  | (k', v) :: m' => if key_eqb k' k then Some v else mget k m'
  end.

Definition mkeys {A} (m : list (EdgeKey * A)) : list EdgeKey := map fst m.

Definition shas (k : EdgeKey) (s : list EdgeKey) : bool :=
  existsb (key_eqb k) s.

(** [adj.get(k).push(v)]: the array stored under [k] grows in place. *)
Fixpoint mpush (k v : EdgeKey) (m : list (EdgeKey * list EdgeKey))
  : list (EdgeKey * list EdgeKey) :=
  match m with
  | [] => []
  | (k', l) :: m' =>
      if key_eqb k' k then (k', l ++ [v]) :: m' else (k', l) :: mpush k v m'
  end.

Definition addConnection (k1 k2 : EdgeKey) (adj : list (EdgeKey * list EdgeKey))
  : list (EdgeKey * list EdgeKey) :=
  let adj := if mhas k1 adj then adj else adj ++ [(k1, [])] in
  let adj := if mhas k2 adj then adj else adj ++ [(k2, [])] in
  let adj := mpush k1 k2 adj in
  mpush k2 k1 adj.

(** ** The per-cell connection table (the [switch (config)]) *)
Definition cellConnections (config : Z) (kTop kRight kBottom kLeft : EdgeKey)
  : list (EdgeKey * EdgeKey) :=
  match config with
  | 1%Z  => [(kLeft, kBottom)]
  | 2%Z  => [(kBottom, kRight)]
  | 3%Z  => [(kLeft, kRight)]
  | 4%Z  => [(kTop, kRight)]
  | 5%Z  => [(kTop, kLeft); (kBottom, kRight)]
  | 6%Z  => [(kTop, kBottom)]
  | 7%Z  => [(kTop, kLeft)]
  | 8%Z  => [(kLeft, kTop)]
  | 9%Z  => [(kTop, kBottom)]
  | 10%Z => [(kTop, kRight); (kLeft, kBottom)]
  | 11%Z => [(kTop, kRight)]
  | 12%Z => [(kLeft, kRight)]
  | 13%Z => [(kBottom, kRight)]
  | 14%Z => [(kLeft, kBottom)]
  | _ => []
  end.

Definition addConnections (cs : list (EdgeKey * EdgeKey))
  (adj : list (EdgeKey * list EdgeKey)) : list (EdgeKey * list EdgeKey) :=
  fold_left (fun a c => addConnection (fst c) (snd c) a) cs adj.

(** The test the source writes for "this edge is active":
    [(config & m1) !== (config & m2)]. *)
Definition edgeActive (config m1 m2 : Z) : bool :=
  negb (Z.eqb (Z.land config m1) (Z.land config m2)).

Section Extract.
Context {T : Type} `{Number T}.

Record Point : Type := mkPoint { px : T; py : T }.

Record GridData : Type := mkGrid {
  data : list T;
  width : nat;
  height : nat;
  minX : T;
  maxX : T;
  minY : T;
  maxY : T
}.

Definition interpolate (val1 val2 out1 out2 threshold : T) : T :=
  if (nabs (val2 - val1) <? lit 1e-9)%js then ((out1 + out2) / lit 2)%js
  else (out1 + (out2 - out1) * ((threshold - val1) / (val2 - val1)))%js.

(** The two maps of [marchSquares]: [edgeNodes] and [adj]. *)
Record Graph : Type := mkGraph {
  edgeNodes : list (EdgeKey * Point);
  adj : list (EdgeKey * list EdgeKey)
}.

Definition addNode (key : EdgeKey) (p : Point)
  (nodes : list (EdgeKey * Point)) : list (EdgeKey * Point) :=
  if mhas key nodes then nodes else nodes ++ [(key, p)].

(** ** Step 1: the graph *)

Section Grid.
Variable grid : GridData.
Variable threshold : T.

Definition getX (gx : nat) : T :=
  (minX grid +
   of_nat gx * ((maxX grid - minX grid) / (of_nat (width grid) - lit 1)))%js.

Definition getY (gy : nat) : T :=
  (minY grid +
   of_nat gy * ((maxY grid - minY grid) / (of_nat (height grid) - lit 1)))%js.

(** [data[gy * width + gx]]; out of range the read is [undefined]. *)
Definition getVal (gx gy : nat) : T :=
  nth (gy * width grid + gx) (data grid) undef.

(** The 4-bit configuration of the cell whose top-left corner is
    [(gx, gy)]. *)
Definition cellConfig (gx gy : nat) : Z :=
  let vTL := getVal gx gy in
  let vTR := getVal (gx + 1) gy in
  let vBR := getVal (gx + 1) (gy + 1) in
  let vBL := getVal gx (gy + 1) in
  let config := 0%Z in
  let config := if (vTL >=? threshold)%js then Z.lor config 8 else config in
  let config := if (vTR >=? threshold)%js then Z.lor config 4 else config in
  let config := if (vBR >=? threshold)%js then Z.lor config 2 else config in
  let config := if (vBL >=? threshold)%js then Z.lor config 1 else config in
  config.

(** The body of the inner loop. *)
Definition cellStep (st : Graph) (gx gy : nat) : Graph :=
  let vTL := getVal gx gy in
  let vTR := getVal (gx + 1) gy in
  let vBR := getVal (gx + 1) (gy + 1) in
  let vBL := getVal gx (gy + 1) in
  let config := cellConfig gx gy in
  if (config =? 0)%Z || (config =? 15)%Z then st else
  let nodes := edgeNodes st in
  let kTop := getEdgeKey H gx gy in
  let nodes :=
    if edgeActive config 8 4 then
      addNode kTop
        (mkPoint (interpolate vTL vTR (getX gx) (getX (gx + 1)) threshold)
                 (getY gy)) nodes
    else nodes in
  let kRight := getEdgeKey V (gx + 1) gy in
  let nodes :=
    if edgeActive config 4 2 then
      addNode kRight
        (mkPoint (getX (gx + 1))
                 (interpolate vTR vBR (getY gy) (getY (gy + 1)) threshold)) nodes
    else nodes in
  let kBottom := getEdgeKey H gx (gy + 1) in
  let nodes :=
    if edgeActive config 1 2 then
      addNode kBottom
        (mkPoint (interpolate vBL vBR (getX gx) (getX (gx + 1)) threshold)
                 (getY (gy + 1))) nodes
    else nodes in
  let kLeft := getEdgeKey V gx gy in
  let nodes :=
    if edgeActive config 8 1 then
      addNode kLeft
        (mkPoint (getX gx)
                 (interpolate vTL vBL (getY gy) (getY (gy + 1)) threshold)) nodes
    else nodes in
  mkGraph nodes
    (addConnections (cellConnections config kTop kRight kBottom kLeft) (adj st)).

(** The two nested loops over the cells. *)
Definition buildGraph : Graph :=
  fold_left
    (fun st gy =>
       fold_left (fun st gx => cellStep st gx gy) (seq 0 (width grid - 1)) st)
    (seq 0 (height grid - 1))
    (mkGraph [] []).

End Grid.

(** ** Step 2: graph traversal *)

(** The [while (curr && !visited.has(curr))] loop of [trace].  The loop is
    bounded by the number of keys of [adj] ([fuel]); [None] is returned when
    the bound is exhausted or when [edgeNodes.get(curr)!] finds no point
    (the source would push [undefined]); neither happens on the graph of
    [buildGraph].  The first loop over [adj.keys()] of the source has an
    empty body and [lastKey] is never used: both are left out.  The set
    [visited] is shared by all traces and is returned with the path. *)
Fixpoint traceLoop (fuel : nat) (nodes : list (EdgeKey * Point))
  (adjm : list (EdgeKey * list EdgeKey)) (visited : list EdgeKey)
  (curr : option EdgeKey) (path : list Point)
  : option (list EdgeKey * list Point) :=
  match curr with
  | None => Some (visited, path)
  | Some c =>
      if shas c visited then Some (visited, path) else
      match fuel with
      | O => None
      | S fuel' =>
          match mget c nodes with
          | None => None
          | Some p =>
              let visited' := c :: visited in
              let n := match mget c adjm with Some l => l | None => [] end in
              traceLoop fuel' nodes adjm visited'
                (find (fun k => negb (shas k visited')) n) (path ++ [p])
          end
      end
  end.

Definition trace (nodes : list (EdgeKey * Point))
  (adjm : list (EdgeKey * list EdgeKey)) (visited : list EdgeKey)
  (start : EdgeKey) : option (list EdgeKey * list Point) :=
  traceLoop (length adjm) nodes adjm visited (Some start) [].

(** [endpoints] and [midpoints]: the keys of [adj] split by degree. *)
Definition endpoints (adjm : list (EdgeKey * list EdgeKey)) : list EdgeKey :=
  mkeys (filter (fun e => Nat.eqb (length (snd e)) 1) adjm).
Definition midpoints (adjm : list (EdgeKey * list EdgeKey)) : list EdgeKey :=
  mkeys (filter (fun e => negb (Nat.eqb (length (snd e)) 1)) adjm).

(** The state threaded through the two tracing loops. *)
Definition TraceState : Type := (list EdgeKey * list (list Point))%type.

(** Body of [for (const k of endpoints)]. *)
Definition traceOpen (nodes : list (EdgeKey * Point))
  (adjm : list (EdgeKey * list EdgeKey)) (st : option TraceState) (k : EdgeKey)
  : option TraceState :=
  match st with
  | None => None
  | Some (visited, paths) =>
      if shas k visited then Some (visited, paths) else
      match trace nodes adjm visited k with
      | None => None
      | Some (visited', path) => Some (visited', paths ++ [path])
      end
  end.

(** [path.push(firstP)] when [path.length > 2]. *)
Definition closeLoop (path : list Point) : list Point :=
  if Nat.ltb 2 (length path) then
    match path with
    | firstP :: _ => path ++ [firstP]
    | [] => path
    end
  else path.

(** Body of [for (const k of midpoints)]. *)
Definition traceClosed (nodes : list (EdgeKey * Point))
  (adjm : list (EdgeKey * list EdgeKey)) (st : option TraceState) (k : EdgeKey)
  : option TraceState :=
  match st with
  | None => None
  | Some (visited, paths) =>
      if shas k visited then Some (visited, paths) else
      match trace nodes adjm visited k with
      | None => None
      | Some (visited', path) => Some (visited', paths ++ [closeLoop path])
      end
  end.

Definition tracePaths (g : Graph) : option (list (list Point)) :=
  let st := fold_left (traceOpen (edgeNodes g) (adj g)) (endpoints (adj g))
                      (Some ([], [])) in
  let st := fold_left (traceClosed (edgeNodes g) (adj g)) (midpoints (adj g)) st in
  match st with
  | None => None
  | Some (_, paths) => Some paths
  end.

(** ** Step 3: Chaikin smoothing *)

Definition cutQ (p0 p1 : Point) : Point :=
  mkPoint (lit 0.75 * px p0 + lit 0.25 * px p1)%js
          (lit 0.75 * py p0 + lit 0.25 * py p1)%js.
Definition cutR (p0 p1 : Point) : Point :=
  mkPoint (lit 0.25 * px p0 + lit 0.75 * px p1)%js
          (lit 0.25 * py p0 + lit 0.75 * py p1)%js.

(** The inner [for (i = 0; i < current.length - 1; i++)]. *)
Fixpoint cutCorners (current : list Point) : list Point :=
  match current with
  | p0 :: ((p1 :: _) as rest) => cutQ p0 p1 :: cutR p0 p1 :: cutCorners rest
  | _ => []
  end.

(** One iteration of the smoothing loop.  [None] stands for the
    [TypeError] of reading [.x] of [current[0]] on an empty array and for
    the [undefined] that [next[0]] would be on a one-point closed array. *)
Definition chaikinStep (current : list Point) : option (list Point) :=
  match current with
  | [] => None
  | first :: _ =>
      let lastP := last current first in
      let isClosed :=
        (nabs (px first - px lastP) <? lit 1e-5)%js &&
        (nabs (py first - py lastP) <? lit 1e-5)%js in
      let next := (if isClosed then [] else [first]) ++ cutCorners current in
      if isClosed then
        match next with
        | [] => None
        | n0 :: _ => Some (next ++ [n0])
        end
      else Some (next ++ [lastP])
  end.

Fixpoint chaikinIter (k : nat) (current : list Point) : option (list Point) :=
  match k with
  | O => Some current
  | S k' =>
      match chaikinStep current with
      | None => None
      | Some next => chaikinIter k' next
      end
  end.

Definition smoothChaikin (points : list Point) (iterations : nat)
  : option (list Point) :=
  if Nat.eqb iterations 0 || Nat.ltb (length points) 3 then Some points
  else chaikinIter iterations points.

(** [paths.map(p => smoothChaikin(p, 2))]. *)
Fixpoint smoothAll (paths : list (list Point)) : option (list (list Point)) :=
  match paths with
  | [] => Some []
  | p :: ps =>
      match smoothChaikin p 2, smoothAll ps with
      | Some p', Some ps' => Some (p' :: ps')
      | _, _ => None
      end
  end.

Definition marchSquares (grid : GridData) (threshold : T)
  : option (list (list Point)) :=
  match tracePaths (buildGraph grid threshold) with
  | None => None
  | Some paths => smoothAll paths
  end.

End Extract.

Arguments Point : clear implicits.
Arguments GridData : clear implicits.
Arguments Graph : clear implicits.

End Contour.

(* ================================================================== *)
(** * The photometric model: physics.ts, constants.ts *)

(** The functions of [Math] beyond arithmetic. *)
Class MathLib (T : Type) : Type := {
  msqrt : T -> T;
  msin  : T -> T;
  mcos  : T -> T;
  macos : T -> T;
  mexp  : T -> T;
  mpow  : T -> T -> T;
  mPI   : T
}.

#[export] Instance R_MathLib : MathLib R := {|
  msqrt := sqrt;
  msin := sin;
  mcos := cos;
  macos := acos;
  mexp := exp;
  mpow := Rpower;
  mPI := PI
|}.

(** On [xreal] a function applied outside its real domain yields NaN:
    the square root of a negative number, the arc cosine outside [-1, 1],
    a power of a base that is not positive. *)
Definition xsqrt (a : xreal) : xreal :=
  match a with
  | XFin x => if Rleb 0 x then XFin (sqrt x) else XNaN
  | XNaN => XNaN
  end.

Definition xacos (a : xreal) : xreal :=
  match a with
  | XFin x => if Rleb (-1) x && Rleb x 1 then XFin (acos x) else XNaN
  | XNaN => XNaN
  end.

Definition xpow (a b : xreal) : xreal :=
  match a, b with
  | XFin x, XFin y => if Rltb 0 x then XFin (Rpower x y) else XNaN
  | _, _ => XNaN
  end.

#[export] Instance xreal_MathLib : MathLib xreal := {|
  msqrt := xsqrt;
  msin := xlift1 sin;
  mcos := xlift1 cos;
  macos := xacos;
  mexp := xlift1 exp;
  mpow := xpow;
  mPI := XFin PI
|}.

(** On [dnum] the results of the functions of [Math] overflow and underflow
    like those of the arithmetic.  [Math.pow] is given for a positive base
    (the sources call it with base 10 only); any other base yields NaN
    here. *)
Definition dsqrt (a : dnum) : dnum :=
  match a with
  | DFin x => if Rleb 0 x then dround (sqrt x) else DNaN
  | DInf false => DInf false
  | _ => DNaN
  end.

Definition dsin (a : dnum) : dnum :=
  match a with DFin x => dround (sin x) | _ => DNaN end.

Definition dcos (a : dnum) : dnum :=
  match a with DFin x => dround (cos x) | _ => DNaN end.

Definition dacos (a : dnum) : dnum :=
  match a with
  | DFin x => if Rleb (-1) x && Rleb x 1 then dround (acos x) else DNaN
  | _ => DNaN
  end.

Definition dexp (a : dnum) : dnum :=
  match a with
  | DFin x => dround (exp x)
  | DInf false => DInf false
  | DInf true => DFin 0
  | DNaN => DNaN
  end.

Definition dpow (a b : dnum) : dnum :=
  match a, b with
  | DFin x, DFin y => if Rltb 0 x then dround (Rpower x y) else DNaN
  | DFin x, DInf s =>
      if Rltb 1 x then (if s then DFin 0 else DInf false)
      else if Rltb 0 x && Rltb x 1 then (if s then DInf false else DFin 0)
      else DNaN
  | _, _ => DNaN
  end.

#[export] Instance dnum_MathLib : MathLib dnum := {|
  msqrt := dsqrt;
  msin := dsin;
  mcos := dcos;
  macos := dacos;
  mexp := dexp;
  mpow := dpow;
  mPI := DFin PI
|}.

Module Physics.

(** [constants.ts] *)
Definition ALPHA : Q := 0.00015.

Definition SCOTOPIC_DATA : list (Q * Q) :=
  [ (380, 0.000589); (400, 0.00929); (420, 0.0966); (440, 0.3281);
    (460, 0.647); (480, 0.909); (500, 0.982); (507, 1.000);
    (520, 0.935); (540, 0.650); (560, 0.3288); (580, 0.1212);
    (600, 0.03315); (620, 0.00737); (640, 0.001497); (660, 0.0003129);
    (680, 0.0000715); (700, 0.0000178) ]%Q.

Definition PHOTOPIC_DATA : list (Q * Q) :=
  [ (380, 0.000039); (400, 0.000396); (420, 0.004000); (440, 0.023000);
    (460, 0.060000); (480, 0.139020); (500, 0.323000); (520, 0.710000);
    (540, 0.954000); (555, 1.000000); (560, 0.995000); (580, 0.870000);
    (600, 0.631000); (620, 0.381000); (640, 0.175000); (660, 0.061000);
    (680, 0.017000); (700, 0.004102) ]%Q.

Definition DEFAULT_BEAM_PATTERN : list (Q * Q) :=
  [ (0, 1.0); (10, 0.9); (20, 0.45); (30, 0.0) ]%Q.

Section Photometry.
Context {T : Type} `{Number T}.

Record BeamPoint : Type := mkBeamPoint { angle : T; intensity : T }.

Definition table (d : list (Q * Q)) : list (T * T) :=
  map (fun e => (lit (fst e), lit (snd e))) d.

Definition beamPatternOf (d : list (Q * Q)) : list BeamPoint :=
  map (fun e => mkBeamPoint (lit (fst e)) (lit (snd e))) d.

Definition lerp (x x0 x1 y0 y1 : T) : T :=
  if (nabs (x1 - x0) <? lit 1e-9)%js then y0
  else (y0 + (x - x0) * (y1 - y0) / (x1 - x0))%js.

(** The [for] loop of [getLookupValue], with its final [return 0]. *)
Fixpoint lookupLoop (data : list (T * T)) (val : T) : T :=
  match data with
  | d0 :: ((d1 :: _) as rest) =>
      if (val >=? fst d0)%js && (val <=? fst d1)%js
      then lerp val (fst d0) (fst d1) (snd d0) (snd d1)
      else lookupLoop rest val
  | _ => lit 0
  end.

(** [None] is the [TypeError] of [data[0][0]] on an empty table. *)
Definition getLookupValue (data : list (T * T)) (val : T) : option T :=
  match data with
  | [] => None
  | d0 :: _ =>
      if (val <=? fst d0)%js then Some (snd d0) else
      let dl := last data d0 in
      if (val >=? fst dl)%js then Some (snd dl) else
      Some (lookupLoop data val)
  end.

(** The [for] loop of [getBeamIntensityDynamic], with its final
    [return 0.0]. *)
Fixpoint beamLoop (beamPattern : list BeamPoint) (absAngle : T) : T :=
  match beamPattern with
  | b0 :: ((b1 :: _) as rest) =>
      if (absAngle >=? angle b0)%js && (absAngle <=? angle b1)%js
      then lerp absAngle (angle b0) (angle b1) (intensity b0) (intensity b1)
      else beamLoop rest absAngle
  | _ => lit 0
  end.

(** [None] is the [TypeError] of [beamPattern[0].angle] on an empty
    pattern. *)
Definition getBeamIntensityDynamic (beamPattern : list BeamPoint) (angleDeg : T)
  : option T :=
  let absAngle := nabs angleDeg in
  match beamPattern with
  | [] => None
  | b0 :: _ =>
      if (absAngle <=? angle b0)%js then Some (intensity b0) else
      let lastPoint := last beamPattern b0 in
      if (absAngle >? angle lastPoint)%js then Some (lit 0) else
      Some (beamLoop beamPattern absAngle)
  end.

Definition getSpectralCorrectionFactor (wavelength : T) : option T :=
  if (wavelength >=? lit 700)%js then Some (lit 1) else
  match getLookupValue (table SCOTOPIC_DATA) wavelength,
        getLookupValue (table PHOTOPIC_DATA) wavelength with
  | Some v_scotopic, Some v_photopic =>
      let v_photopic_safe := nmax v_photopic (lit 1e-6) in
      let correction := (lit 2.489 * (v_scotopic / v_photopic_safe))%js in
      Some (nmax (lit 1) correction)
  | _, _ => None
  end.

Context `{MathLib T}.

Definition calculateIlluminance (x y z angleH angleV peakCandela spectralFactor : T)
  (beamPattern : list BeamPoint) : option T :=
  let d2 := (x * x + y * y + z * z)%js in
  let dist := msqrt d2 in
  let d_safe := nmax (lit 0.05) dist in
  let Dx := (msin angleH * mcos angleV)%js in
  let Dy := (mcos angleH * mcos angleV)%js in
  let Dz := msin angleV in
  let Px := (x / d_safe)%js in
  let Py := (y / d_safe)%js in
  let Pz := (z / d_safe)%js in
  let cosTheta := (Dx * Px + Dy * Py + Dz * Pz)%js in
  if (cosTheta <=? lit 0.001)%js then Some (lit 0) else
  let thetaRad := macos (nmin (lit 1) cosTheta) in
  let thetaDeg := (thetaRad * (lit 180 / mPI))%js in
  match getBeamIntensityDynamic beamPattern thetaDeg with
  | None => None
  | Some relativeIntensity =>
      if (relativeIntensity <=? lit 0)%js then Some (lit 0) else
      let I_effective := (peakCandela * spectralFactor * relativeIntensity)%js in
      let T_ := mexp (- lit ALPHA * d_safe)%js in
      Some ((I_effective * T_) / (d_safe * d_safe))%js
  end.

End Photometry.

Arguments BeamPoint : clear implicits.

End Physics.

(* ================================================================== *)
(** * The earlier photometric model: the second physics.ts

    The repository holds a second, earlier [physics.ts]: [lerp] tests its
    knots for equality, the beam lookup clamps to the last intensity
    beyond the pattern, the spectral weight is the larger of the two CIE
    efficiencies, and the illuminance is 0 within one metre of the
    source. *)

Module PhysicsV2.
Import Physics.

Section Photometry.
Context {T : Type} `{Number T}.

(** [a === b] on two numbers: both [<=] hold (false when either is NaN,
    true for [+0] and [-0]). *)
Definition strictEq (a b : T) : bool := (a <=? b)%js && (b <=? a)%js.

Definition lerp (x x0 x1 y0 y1 : T) : T :=
  if strictEq x0 x1 then y0
  else (y0 + (x - x0) * (y1 - y0) / (x1 - x0))%js.

Fixpoint lookupLoop (data : list (T * T)) (val : T) : T :=
  match data with
  | d0 :: ((d1 :: _) as rest) =>
      if (val >=? fst d0)%js && (val <=? fst d1)%js
      then lerp val (fst d0) (fst d1) (snd d0) (snd d1)
      else lookupLoop rest val
  | _ => lit 0
  end.

Definition getLookupValue (data : list (T * T)) (val : T) : option T :=
  match data with
  | [] => None
  | d0 :: _ =>
      if (val <=? fst d0)%js then Some (snd d0) else
      let dl := last data d0 in
      if (val >=? fst dl)%js then Some (snd dl) else
      Some (lookupLoop data val)
  end.

Fixpoint beamLoop (beamPattern : list (BeamPoint T)) (absAngle : T) : T :=
  match beamPattern with
  | b0 :: ((b1 :: _) as rest) =>
      if (absAngle >=? angle b0)%js && (absAngle <=? angle b1)%js
      then lerp absAngle (angle b0) (angle b1) (intensity b0) (intensity b1)
      else beamLoop rest absAngle
  | _ => lit 0
  end.

Definition getBeamIntensityDynamic (beamPattern : list (BeamPoint T)) (angleDeg : T)
  : option T :=
  let absAngle := nabs angleDeg in
  match beamPattern with
  | [] => None
  | b0 :: _ =>
      if (absAngle <=? angle b0)%js then Some (intensity b0) else
      let lastPoint := last beamPattern b0 in
      if (absAngle >=? angle lastPoint)%js then Some (intensity lastPoint) else
      Some (beamLoop beamPattern absAngle)
  end.

Definition getEffectiveEfficiency (wavelength : T) : option T :=
  match getLookupValue (table SCOTOPIC_DATA) wavelength,
        getLookupValue (table PHOTOPIC_DATA) wavelength with
  | Some scotopic, Some photopic => Some (nmax scotopic photopic)
  | _, _ => None
  end.

Context `{MathLib T}.

Definition calculateIlluminance (x y z angleH angleV peakCandela effectiveEff : T)
  (beamPattern : list (BeamPoint T)) : option T :=
  let dist := msqrt (x * x + y * y + z * z)%js in
  if (dist <? lit 1)%js then Some (lit 0) else
  let dirX := (msin angleH * mcos angleV)%js in
  let dirY := (mcos angleH * mcos angleV)%js in
  let dirZ := msin angleV in
  let cosTheta := ((x * dirX + y * dirY + z * dirZ) / dist)%js in
  let thetaRad := macos (nmax (- lit 1)%js (nmin (lit 1) cosTheta)) in
  let thetaDeg := ((thetaRad * lit 180) / mPI)%js in
  match getBeamIntensityDynamic beamPattern thetaDeg with
  | None => None
  | Some beamFactor =>
      if (beamFactor <=? lit 0)%js then Some (lit 0) else
      let attenuation := mexp (- lit ALPHA * dist)%js in
      let invSquare := (lit 1 / (dist * dist))%js in
      Some (peakCandela * effectiveEff * beamFactor * attenuation * invSquare)%js
  end.

End Photometry.

End PhysicsV2.

(* ================================================================== *)
(** * The geometry optimizer: App.tsx *)

Module Optimizer.
Import Physics.

Section Optimize.
Context {T : Type} `{Number T} `{MathLib T}.

Record Point3D : Type := mkPoint3D { p3x : T; p3y : T; p3z : T }.

(** [{ h, v }]: yaw and pitch of one source. *)
Record LedConfig : Type := mkLed { led_h : T; led_v : T }.

(** The block that [generateLedConfig] runs once for the columns and once
    for the rows. *)
Definition spreadAngles (count : nat) (spread : T) : list T :=
  if Nat.eqb count 1 then [lit 0]
  else
    let half := ((spread * mPI) / lit 180)%js in
    let step := ((half * lit 2) / (of_nat count - lit 1))%js in
    map (fun i => (- half + of_nat i * step)%js) (seq 0 count).

Definition generateLedConfig (ledCount : nat) (spreadAngle : T)
  (rowCount : nat) (verticalSpreadAngle : T) : list LedConfig :=
  let hAngles := spreadAngles ledCount spreadAngle in
  let vAngles := spreadAngles rowCount verticalSpreadAngle in
  flat_map (fun h => map (fun v => mkLed h v) vAngles) hAngles.

Definition stepX : nat := 4.
Definition stepZ : nat := 4.
Definition stepY : nat := 8.

(** The sample lattice of [handleOptimize]: [i] and [k] run from 0,
    [j] runs from 1. *)
Definition samples (targetW targetH targetR : T) : list Point3D :=
  flat_map (fun i =>
    let x := ((of_nat i / of_nat stepX) * (targetW / lit 2))%js in
    flat_map (fun k =>
      let z := ((of_nat k / of_nat stepZ) * (targetH / lit 2))%js in
      map (fun j =>
        let y := ((of_nat j / of_nat stepY) * targetR)%js in
        mkPoint3D x y z)
        (seq 1 stepY))
      (seq 0 (stepZ + 1)))
    (seq 0 (stepX + 1)).

(** [let total = 0; for (const c of cfg) total += calculateIlluminance(...)];
    an exception of the callee ends the loop. *)
Definition totalAt (cfg : list LedConfig) (p : Point3D)
  (sourceIntensity spectralCorrection : T) (beamPattern : list (BeamPoint T))
  : option T :=
  fold_left
    (fun total c =>
       match total with
       | None => None
       | Some t =>
           match calculateIlluminance (p3x p) (p3y p) (p3z p) (led_h c) (led_v c)
                   sourceIntensity spectralCorrection beamPattern with
           | None => None
           | Some e => Some (t + e)%js
           end
       end)
    cfg (Some (lit 0)).

(** [let hits = 0; for (const p of samples) { ...; if (total >= threshold) hits++ }]. *)
Definition countHits (cfg : list LedConfig) (pts : list Point3D)
  (sourceIntensity spectralCorrection threshold : T)
  (beamPattern : list (BeamPoint T)) : option nat :=
  fold_left
    (fun hits p =>
       match hits with
       | None => None
       | Some n =>
           match totalAt cfg p sourceIntensity spectralCorrection beamPattern with
           | None => None
           | Some total => Some (if (total >=? threshold)%js then S n else n)
           end
       end)
    pts (Some 0).

(** The score [coverage] of one candidate [(h, v)] in [handleOptimize]. *)
Definition coverage (ledCount rowCount : nat)
  (sourceIntensity spectralCorrection threshold : T)
  (beamPattern : list (BeamPoint T)) (targetW targetH targetR : T) (h v : T)
  : option T :=
  let pts := samples targetW targetH targetR in
  let maxHits := length pts in
  let cfg := generateLedConfig ledCount h rowCount v in
  match countHits cfg pts sourceIntensity spectralCorrection threshold beamPattern with
  | None => None
  | Some hits => Some ((of_nat hits / of_nat maxHits) * lit 100)%js
  end.

(** ** The values [App] derives from its parameters *)

Record SimulationParams : Type := mkParams {
  ledCount : nat;
  rowCount : nat;
  peakCandela : T;
  wavelength : T;
  logThreshold : T;
  isFlashing : bool;
  beamPattern : list (BeamPoint T)
}.

Record OptTargets : Type := mkTargets {
  target_width : T; target_height : T; target_range : T
}.

Definition isInfrared (params : SimulationParams) : bool :=
  (wavelength params >=? lit 800)%js.

Definition effectiveThreshold (params : SimulationParams) : T :=
  let base := mpow (lit 10) (logThreshold params) in
  if isFlashing params then (base / lit 8)%js else base.

Definition sourceIntensity (params : SimulationParams) : T :=
  if isInfrared params then (peakCandela params / lit 1000)%js
  else peakCandela params.

(** The coverage that [handleOptimize] computes for the candidate
    [(h, v)], from the state of [App]. *)
Definition candidateCoverage (params : SimulationParams) (optTargets : OptTargets)
  (h v : T) : option T :=
  match getSpectralCorrectionFactor (wavelength params) with
  | None => None
  | Some spectralCorrection =>
      coverage (ledCount params) (rowCount params) (sourceIntensity params)
        spectralCorrection (effectiveThreshold params) (beamPattern params)
        (target_width optTargets) (target_height optTargets)
        (target_range optTargets) h v
  end.

End Optimize.

Arguments Point3D : clear implicits.
Arguments LedConfig : clear implicits.
Arguments SimulationParams : clear implicits.
Arguments OptTargets : clear implicits.

End Optimizer.

(* ================================================================== *)
(** * The search of the optimizer: [findExtent] and [handleOptimize] *)

Module Search.
Import Physics Optimizer.

Section Search.
Context {T : Type} `{Number T} `{MathLib T}.

(** What [handleOptimize] reads from the state of [App]. *)
Variable sourceIntensity spectralCorrection threshold : T.
Variable beamPattern : list (BeamPoint T).

(** The three variables of the bisection. *)
Record Bisect : Type := mkBisect { low : T; high : T; limit : T }.

(** One iteration of [for (let i = 0; i < 12; i++)]. *)
Definition findExtentStep (cfg : list (LedConfig T)) (startP dir : Point3D T)
  (st : Bisect) : option Bisect :=
  let mid := ((low st + high st) / lit 2)%js in
  let x := (p3x startP + p3x dir * mid)%js in
  let y := (p3y startP + p3y dir * mid)%js in
  let z := (p3z startP + p3z dir * mid)%js in
  match totalAt cfg (mkPoint3D x y z) sourceIntensity spectralCorrection beamPattern with
  | None => None
  | Some total =>
      if (total >=? threshold)%js then Some (mkBisect mid (high st) mid)
      else Some (mkBisect (low st) mid (limit st))
  end.

Fixpoint findExtentLoop (n : nat) (cfg : list (LedConfig T)) (startP dir : Point3D T)
  (st : Bisect) : option Bisect :=
  match n with
  | O => Some st
  | S n' =>
      match findExtentStep cfg startP dir st with
      | None => None
      | Some st' => findExtentLoop n' cfg startP dir st'
      end
  end.

(** [None] when a call of [calculateIlluminance] raises. *)
Definition findExtent (cfg : list (LedConfig T)) (startP dir : Point3D T) (maxDist : T)
  : option T :=
  match findExtentLoop 12 cfg startP dir (mkBisect (lit 0) maxDist (lit 0)) with
  | None => None
  | Some st => Some (limit st)
  end.

(** [{ h, v, vol, w, hDim, r }] *)
Record OptResult : Type := mkOptResult {
  res_h : T; res_v : T; vol : T; w : T; hDim : T; r : T
}.

(** [for (let h = 0; h <= 80; h += step)] with [step = 2]: 0, 2, ..., 80. *)
Definition candidateAngles : list T := map (fun i => of_nat (2 * i)) (seq 0 41).

(** The body of the two candidate loops: the results pushed for the
    candidate [(h, v)], none or one. *)
Definition evalCandidate (ledCount rowCount : nat) (targetW targetH targetR : T)
  (h v : T) : option (list OptResult) :=
  let cfg := generateLedConfig ledCount h rowCount v in
  match coverage ledCount rowCount sourceIntensity spectralCorrection threshold
          beamPattern targetW targetH targetR h v with
  | None => None
  | Some coverage =>
      if (coverage >? lit 2)%js then
        match findExtent cfg (mkPoint3D (lit 0) (lit 0) (lit 0))
                (mkPoint3D (lit 0) (lit 1) (lit 0)) (targetR * lit 2)%js with
        | None => None
        | Some range =>
            match findExtent cfg (mkPoint3D (lit 0) (range * lit 0.5)%js (lit 0))
                    (mkPoint3D (lit 1) (lit 0) (lit 0)) (targetW * lit 2)%js,
                  findExtent cfg (mkPoint3D (lit 0) (range * lit 0.5)%js (lit 0))
                    (mkPoint3D (lit 0) (lit 0) (lit 1)) (targetH * lit 2)%js with
            | Some halfWidth, Some halfHeight =>
                Some [mkOptResult h v coverage (halfWidth * lit 2)%js
                        (halfHeight * lit 2)%js range]
            | _, _ => None
            end
        end
      else Some []
  end.

(** The two nested candidate loops, pushing onto [validResults]. *)
Definition collectResults (ledCount rowCount : nat) (targetW targetH targetR : T)
  : option (list OptResult) :=
  fold_left
    (fun acc hv =>
       match acc with
       | None => None
       | Some validResults =>
           match evalCandidate ledCount rowCount targetW targetH targetR
                   (fst hv) (snd hv) with
           | None => None
           | Some pushed => Some (validResults ++ pushed)
           end
       end)
    (flat_map (fun h => map (fun v => (h, v)) candidateAngles) candidateAngles)
    (Some []).

(** [validResults.sort((a, b) => b.vol - a.vol)].  [Array.prototype.sort]
    is stable; with a comparator that is a consistent ordering (here: every
    [vol] is a number) its result is the one of stable insertion: each
    element, taken in the order of the array, goes before the first element
    already placed that the comparator puts strictly after it. *)
Fixpoint insertResult (x : OptResult) (sorted : list OptResult) : list OptResult :=
  match sorted with
  | [] => [x]
  | y :: rest =>
      if (vol x - vol y >? lit 0)%js then x :: y :: rest
      else y :: insertResult x rest
  end.

Definition sortResults (l : list OptResult) : list OptResult :=
  fold_left (fun sorted x => insertResult x sorted) l [].

(** The list that [handleOptimize] passes to [setOptResults]. *)
Definition handleOptimize (ledCount rowCount : nat) (targetW targetH targetR : T)
  : option (list OptResult) :=
  match collectResults ledCount rowCount targetW targetH targetR with
  | None => None
  | Some validResults => Some (firstn 100 (sortResults validResults))
  end.

End Search.

Arguments Bisect : clear implicits.
Arguments OptResult : clear implicits.

End Search.

(* ================================================================== *)
(** * Facts about the contour graph *)

Module ContourFacts.
Import Contour.

(** ** Keys, maps and sets *)

Lemma key_eqb_eq (a b : EdgeKey) : key_eqb a b = true <-> a = b.
Proof.
  destruct a as [[ta xa] ya], b as [[tb xb] yb]; simpl.
  rewrite !andb_true_iff, !Nat.eqb_eq.
  split.
  - intros [[Ht Hx] Hy]; destruct ta, tb; simpl in Ht; congruence.
  - intros E; inversion E; subst; destruct tb; auto.
Qed.

Lemma key_eqb_refl (a : EdgeKey) : key_eqb a a = true.
Proof. apply key_eqb_eq; reflexivity. Qed.

Lemma key_eqb_neq (a b : EdgeKey) : key_eqb a b = false <-> a <> b.
Proof.
  rewrite <- key_eqb_eq. destruct (key_eqb a b); split; congruence.
Qed.

Lemma key_eqb_sym (a b : EdgeKey) : key_eqb a b = key_eqb b a.
Proof.
  destruct (key_eqb a b) eqn:E1, (key_eqb b a) eqn:E2; auto.
  - apply key_eqb_eq in E1; subst. rewrite key_eqb_refl in E2; discriminate.
  - apply key_eqb_eq in E2; subst. rewrite key_eqb_refl in E1; discriminate.
Qed.

Lemma key_eq_dec (a b : EdgeKey) : {a = b} + {a <> b}.
Proof.
  destruct (key_eqb a b) eqn:E.
  - left; apply key_eqb_eq; exact E.
  - right; apply key_eqb_neq; exact E.
Defined.

Lemma shas_In (k : EdgeKey) (s : list EdgeKey) : shas k s = true <-> In k s.
Proof.
  unfold shas. rewrite existsb_exists. split.
  - intros [x [Hx E]]. apply key_eqb_eq in E. subst; exact Hx.
  - intros Hk. exists k. split; [exact Hk | apply key_eqb_refl].
Qed.

Lemma shas_not_In (k : EdgeKey) (s : list EdgeKey) : shas k s = false <-> ~ In k s.
Proof.
  rewrite <- shas_In. destruct (shas k s); split; congruence.
Qed.

Lemma mhas_In {A} (k : EdgeKey) (m : list (EdgeKey * A)) :
  mhas k m = true <-> In k (mkeys m).
Proof.
  unfold mhas, mkeys. rewrite existsb_exists, in_map_iff. split.
  - intros [e [He E]]. apply key_eqb_eq in E. exists e; auto.
  - intros [e [E He]]. exists e. split; [exact He|]. apply key_eqb_eq; exact E.
Qed.

Lemma mhas_not_In {A} (k : EdgeKey) (m : list (EdgeKey * A)) :
  mhas k m = false <-> ~ In k (mkeys m).
Proof.
  rewrite <- mhas_In. destruct (mhas k m); split; congruence.
Qed.

Lemma mget_Some_In {A} (k : EdgeKey) (m : list (EdgeKey * A)) (v : A) :
  mget k m = Some v -> In (k, v) m.
Proof.
  induction m as [|[k' v'] m IH]; simpl; [discriminate|].
  destruct (key_eqb k' k) eqn:E.
  - intros Hv; inversion Hv; subst. apply key_eqb_eq in E; subst. now left.
  - intros Hv; right; auto.
Qed.

Lemma mget_None {A} (k : EdgeKey) (m : list (EdgeKey * A)) :
  mget k m = None <-> ~ In k (mkeys m).
Proof.
  induction m as [|[k' v'] m IH]; simpl.
  - split; auto.
  - destruct (key_eqb k' k) eqn:E.
    + apply key_eqb_eq in E; subst. split; [discriminate | intros N; exfalso; auto].
    + apply key_eqb_neq in E. rewrite IH. split; intros N; [intros [?|?]|]; auto.
Qed.

Lemma In_mget {A} (k : EdgeKey) (v : A) (m : list (EdgeKey * A)) :
  NoDup (mkeys m) -> In (k, v) m -> mget k m = Some v.
Proof.
  induction m as [|[k' v'] m IH]; simpl; [tauto|].
  intros ND [E|Hin].
  - inversion E; subst. now rewrite key_eqb_refl.
  - inversion ND as [|? ? Hnot ND']; subst.
    destruct (key_eqb k' k) eqn:E.
    + apply key_eqb_eq in E; subst. exfalso; apply Hnot.
      unfold mkeys; apply in_map_iff. exists (k, v); auto.
    + auto.
Qed.

(** ** Neighbour lists *)

(** [adj.get(k) || []]. *)
Definition nbrs (adjm : list (EdgeKey * list EdgeKey)) (k : EdgeKey) : list EdgeKey :=
  match mget k adjm with Some l => l | None => [] end.

(** What one [addConnection] appends to the neighbour list of [k]. *)
Definition contrib (k : EdgeKey) (c : EdgeKey * EdgeKey) : list EdgeKey :=
  (if key_eqb (fst c) k then [snd c] else []) ++
  (if key_eqb (snd c) k then [fst c] else []).

Lemma mkeys_mpush (k v : EdgeKey) m : mkeys (mpush k v m) = mkeys m.
Proof.
  induction m as [|[k' l] m IH]; simpl; [reflexivity|].
  destruct (key_eqb k' k); simpl; [reflexivity | now rewrite IH].
Qed.

Lemma mget_mpush (k v k0 : EdgeKey) m :
  mget k0 (mpush k v m) =
  match mget k0 m with
  | Some l => Some (if key_eqb k k0 then l ++ [v] else l)
  | None => None
  end.
Proof.
  induction m as [|[k' l] m IH]; simpl; [reflexivity|].
  destruct (key_eqb k' k) eqn:E1; simpl.
  - apply key_eqb_eq in E1; subst k'.
    destruct (key_eqb k k0); [reflexivity|].
    destruct (mget k0 m); reflexivity.
  - destruct (key_eqb k' k0) eqn:E2.
    + apply key_eqb_eq in E2; subst k'.
      rewrite key_eqb_sym, E1. reflexivity.
    + exact IH.
Qed.

Lemma mget_app_new {A} (k k0 : EdgeKey) (v : A) m :
  mget k0 (m ++ [(k, v)]) =
  match mget k0 m with
  | Some l => Some l
  | None => if key_eqb k k0 then Some v else None
  end.
Proof.
  induction m as [|[k' l] m IH]; simpl; [reflexivity|].
  destruct (key_eqb k' k0); [reflexivity | exact IH].
Qed.

(** After [if (!adj.has(k)) adj.set(k, [])] the key is present and the
    neighbour lists are what they were. *)
Definition ensure (k : EdgeKey) (m : list (EdgeKey * list EdgeKey)) :=
  if mhas k m then m else m ++ [(k, [])].

Lemma nbrs_ensure k m k0 : nbrs (ensure k m) k0 = nbrs m k0.
Proof.
  unfold nbrs, ensure. destruct (mhas k m) eqn:E; [reflexivity|].
  rewrite mget_app_new. destruct (mget k0 m); [reflexivity|].
  destruct (key_eqb k k0); reflexivity.
Qed.

Lemma mkeys_ensure k m k0 :
  In k0 (mkeys (ensure k m)) <-> k0 = k \/ In k0 (mkeys m).
Proof.
  unfold ensure. destruct (mhas k m) eqn:E.
  - apply mhas_In in E. split; [auto | intros [->|?]; auto].
  - unfold mkeys. rewrite map_app, in_app_iff. simpl. intuition.
Qed.

Lemma NoDup_ensure k m : NoDup (mkeys m) -> NoDup (mkeys (ensure k m)).
Proof.
  unfold ensure. destruct (mhas k m) eqn:E; [auto|].
  apply mhas_not_In in E. intros ND.
  unfold mkeys in *. rewrite map_app. simpl.
  apply NoDup_app; repeat split; auto.
  - constructor; [intros [] | constructor].
  - intros a Ha [<-|[]]. contradiction.
Qed.

Lemma addConnection_ensure k1 k2 m :
  addConnection k1 k2 m = mpush k2 k1 (mpush k1 k2 (ensure k2 (ensure k1 m))).
Proof. reflexivity. Qed.

Lemma mkeys_addConnection k1 k2 m k0 :
  In k0 (mkeys (addConnection k1 k2 m)) <-> k0 = k1 \/ k0 = k2 \/ In k0 (mkeys m).
Proof.
  rewrite addConnection_ensure, !mkeys_mpush, !mkeys_ensure. tauto.
Qed.

Lemma NoDup_addConnection k1 k2 m :
  NoDup (mkeys m) -> NoDup (mkeys (addConnection k1 k2 m)).
Proof.
  intros ND. rewrite addConnection_ensure, !mkeys_mpush.
  now apply NoDup_ensure, NoDup_ensure.
Qed.

Lemma nbrs_mpush_present k v m k0 :
  In k (mkeys m) ->
  nbrs (mpush k v m) k0 = nbrs m k0 ++ (if key_eqb k k0 then [v] else []).
Proof.
  intros Hk. unfold nbrs. rewrite mget_mpush.
  destruct (mget k0 m) eqn:E.
  - destruct (key_eqb k k0); [reflexivity | now rewrite app_nil_r].
  - destruct (key_eqb k k0) eqn:E'; [|reflexivity].
    apply key_eqb_eq in E'; subst. apply mget_None in E. contradiction.
Qed.

Lemma nbrs_addConnection k1 k2 m k0 :
  nbrs (addConnection k1 k2 m) k0 = nbrs m k0 ++ contrib k0 (k1, k2).
Proof.
  rewrite addConnection_ensure.
  rewrite nbrs_mpush_present.
  2:{ rewrite mkeys_mpush. apply mkeys_ensure. now left. }
  rewrite nbrs_mpush_present.
  2:{ apply mkeys_ensure. right. apply mkeys_ensure. now left. }
  rewrite !nbrs_ensure. unfold contrib; simpl. now rewrite <- app_assoc.
Qed.

Lemma nbrs_addConnections cs m k0 :
  nbrs (addConnections cs m) k0 = nbrs m k0 ++ flat_map (contrib k0) cs.
Proof.
  revert m. induction cs as [|[k1 k2] cs IH]; intros m; simpl.
  - now rewrite app_nil_r.
  - unfold addConnections in *. simpl. rewrite IH, nbrs_addConnection.
    now rewrite <- app_assoc.
Qed.

Lemma NoDup_addConnections cs m :
  NoDup (mkeys m) -> NoDup (mkeys (addConnections cs m)).
Proof.
  revert m. induction cs as [|[k1 k2] cs IH]; intros m ND; simpl; [exact ND|].
  apply IH. now apply NoDup_addConnection.
Qed.

Lemma mkeys_addConnections cs m k0 :
  In k0 (mkeys (addConnections cs m)) <->
  In k0 (mkeys m) \/ exists c, In c cs /\ (k0 = fst c \/ k0 = snd c).
Proof.
  revert m. induction cs as [|[k1 k2] cs IH]; intros m; simpl.
  - split; [auto | intros [?|[c [[] _]]]; auto].
  - unfold addConnections in *; simpl. rewrite IH, mkeys_addConnection. split.
    + intros [[->|[->|?]]|[c [Hc E]]]; auto.
      * right. exists (k1, k2); auto.
      * right. exists (k1, k2); auto.
      * right. exists c; auto.
    + intros [?|[c [[<-|Hc] E]]]; simpl in *.
      * auto.
      * left. tauto.
      * right. exists c; auto.
Qed.

(** ** The connection table *)

(** The four edge keys of the cell whose top-left corner is [(gx, gy)]. *)
Definition kTop (gx gy : nat) : EdgeKey := getEdgeKey H gx gy.
Definition kRight (gx gy : nat) : EdgeKey := getEdgeKey V (gx + 1) gy.
Definition kBottom (gx gy : nat) : EdgeKey := getEdgeKey H gx (gy + 1).
Definition kLeft (gx gy : nat) : EdgeKey := getEdgeKey V gx gy.

Definition touches (k : EdgeKey) (c : nat * nat) : bool :=
  key_eqb (kTop (fst c) (snd c)) k || key_eqb (kRight (fst c) (snd c)) k ||
  key_eqb (kBottom (fst c) (snd c)) k || key_eqb (kLeft (fst c) (snd c)) k.

(** In one cell every edge is used by at most one connection. *)
Lemma table_uses_edge_once (config : Z) (a b c d k : EdgeKey) :
  a <> b -> a <> c -> a <> d -> b <> c -> b <> d -> c <> d ->
  length (flat_map (contrib k) (cellConnections config a b c d)) <=
  (if key_eqb a k || key_eqb b k || key_eqb c k || key_eqb d k then 1 else 0).
Proof.
  intros Hab Hac Had Hbc Hbd Hcd.
  assert (Ex : forall x y, x <> y -> key_eqb x k = true -> key_eqb y k = false).
  { intros x y Hxy E. apply key_eqb_eq in E; subst.
    apply key_eqb_neq. congruence. }
  assert (Hcase :
    exists ba bb bc bd,
      key_eqb a k = ba /\ key_eqb b k = bb /\ key_eqb c k = bc /\ key_eqb d k = bd /\
      (if ba then 1 else 0) + (if bb then 1 else 0) +
      (if bc then 1 else 0) + (if bd then 1 else 0) <= 1).
  { destruct (key_eqb a k) eqn:Ea.
    { exists true, false, false, false. rewrite (Ex a b), (Ex a c), (Ex a d); auto. }
    destruct (key_eqb b k) eqn:Eb.
    { exists false, true, false, false. rewrite (Ex b c), (Ex b d); auto. }
    destruct (key_eqb c k) eqn:Ec.
    { exists false, false, true, false. rewrite (Ex c d); auto. }
    exists false, false, false, (key_eqb d k). repeat split; auto.
    destruct (key_eqb d k); simpl; lia. }
  destruct Hcase as (ba & bb & bc & bd & Ea & Eb & Ec & Ed & Hsum).
  rewrite Ea, Eb, Ec, Ed.
  destruct config as [|p|p]; [simpl; lia | | simpl; lia].
  do 4 (try destruct p as [p|p|]); unfold contrib; simpl;
    rewrite ?Ea, ?Eb, ?Ec, ?Ed;
    destruct ba, bb, bc, bd; simpl in *; lia.
Qed.

Lemma cell_keys_distinct (gx gy : nat) :
  kTop gx gy <> kRight gx gy /\ kTop gx gy <> kBottom gx gy /\
  kTop gx gy <> kLeft gx gy /\ kRight gx gy <> kBottom gx gy /\
  kRight gx gy <> kLeft gx gy /\ kBottom gx gy <> kLeft gx gy.
Proof.
  unfold kTop, kRight, kBottom, kLeft, getEdgeKey.
  repeat split; intros E; inversion E; lia.
Qed.

(** No connection of the table joins an edge to itself. *)
Lemma table_no_self (config : Z) (a b c d : EdgeKey) (e : EdgeKey * EdgeKey) :
  a <> b -> a <> c -> a <> d -> b <> c -> b <> d -> c <> d ->
  In e (cellConnections config a b c d) -> fst e <> snd e.
Proof.
  intros Hab Hac Had Hbc Hbd Hcd.
  destruct config as [|p|p]; [intros [] | | intros []].
  do 4 (try destruct p as [p|p|]); simpl;
    intros Hin; repeat (destruct Hin as [<-|Hin]); try contradiction;
    simpl; congruence.
Qed.

(** ** The grid loops as one list of cells *)

Definition cells (w h : nat) : list (nat * nat) :=
  flat_map (fun gy => map (fun gx => (gx, gy)) (seq 0 w)) (seq 0 h).

Lemma In_cells w h c : In c (cells w h) <-> fst c < w /\ snd c < h.
Proof.
  unfold cells. rewrite in_flat_map. split.
  - intros [gy [Hgy Hc]]. apply in_map_iff in Hc as [gx [<- Hgx]].
    apply in_seq in Hgy, Hgx. simpl. lia.
  - intros [Hx Hy]. exists (snd c). split; [apply in_seq; lia|].
    apply in_map_iff. exists (fst c). split; [now destruct c | apply in_seq; lia].
Qed.

Lemma NoDup_cells w h : NoDup (cells w h).
Proof.
  unfold cells. generalize 0 at 2. induction h as [|h IH]; intros s; simpl.
  - constructor.
  - apply NoDup_app; repeat split.
    + apply Injective_map_NoDup; [|apply seq_NoDup].
      intros x y E; now inversion E.
    + apply IH.
    + intros c Hc Hc'. apply in_map_iff in Hc as [gx [<- _]].
      apply in_flat_map in Hc' as [gy [Hgy Hc']].
      apply in_map_iff in Hc' as [gx' [E _]]. inversion E; subst.
      apply in_seq in Hgy. lia.
Qed.

Lemma fold_cells {S} (F : S -> nat -> nat -> S) (w h : nat) (st : S) :
  fold_left (fun st gy => fold_left (fun st gx => F st gx gy) (seq 0 w) st)
            (seq 0 h) st =
  fold_left (fun st c => F st (fst c) (snd c)) (cells w h) st.
Proof.
  unfold cells. generalize 0 at 2 4. revert st.
  induction h as [|h IH]; intros st s; simpl; [reflexivity|].
  rewrite fold_left_app, IH. f_equal.
  generalize (seq 0 w) st. intros l; induction l as [|x l IHl]; intros st'; simpl;
    [reflexivity | apply IHl].
Qed.

(** At most two cells touch a given edge. *)
Lemma touching_cells_le_2 (k : EdgeKey) (w h : nat) :
  length (filter (touches k) (cells w h)) <= 2.
Proof.
  destruct k as [[ty x] y].
  set (c1 := (x, y)).
  set (c2 := match ty with H => (x, y - 1) | V => (x - 1, y) end).
  change 2 with (length [c1; c2]).
  apply NoDup_incl_length; [apply NoDup_filter, NoDup_cells|].
  intros [gx gy] Hc. apply filter_In in Hc as [_ Ht].
  unfold touches, kTop, kRight, kBottom, kLeft, getEdgeKey in Ht. cbn [fst snd] in Ht.
  rewrite !orb_true_iff in Ht. subst c1 c2.
  destruct Ht as [[[E|E]|E]|E]; apply key_eqb_eq in E; inversion E; subst; simpl.
  - now left.
  - right; left. f_equal; lia.
  - right; left. f_equal; lia.
  - now left.
Qed.

Lemma flat_map_flat_map {A B C} (f : A -> list B) (g : B -> list C) (l : list A) :
  flat_map g (flat_map f l) = flat_map (fun a => flat_map g (f a)) l.
Proof.
  induction l as [|a l IH]; simpl; [reflexivity|].
  now rewrite flat_map_app, IH.
Qed.

Lemma length_flat_map_filter {A B} (g : A -> list B) (P : A -> bool) (l : list A) :
  (forall a, length (g a) <= if P a then 1 else 0) ->
  length (flat_map g l) <= length (filter P l).
Proof.
  intros Hg. induction l as [|a l IH]; simpl; [lia|].
  rewrite length_app. specialize (Hg a). destruct (P a); simpl; lia.
Qed.

Lemma addConnections_app cs1 cs2 m :
  addConnections (cs1 ++ cs2) m = addConnections cs2 (addConnections cs1 m).
Proof. unfold addConnections. apply fold_left_app. Qed.

Section Build.
Context {T : Type} `{Number T}.
Variable grid : GridData T.
Variable threshold : T.

(** The connections one cell adds. *)
Definition cellConns (c : nat * nat) : list (EdgeKey * EdgeKey) :=
  let config := cellConfig grid threshold (fst c) (snd c) in
  if (config =? 0)%Z || (config =? 15)%Z then []
  else cellConnections config (kTop (fst c) (snd c)) (kRight (fst c) (snd c))
         (kBottom (fst c) (snd c)) (kLeft (fst c) (snd c)).

Definition allConns : list (EdgeKey * EdgeKey) :=
  flat_map cellConns (cells (width grid - 1) (height grid - 1)).

Lemma adj_cellStep (st : Graph T) (gx gy : nat) :
  adj (cellStep grid threshold st gx gy) = addConnections (cellConns (gx, gy)) (adj st).
Proof.
  unfold cellStep, cellConns. simpl fst; simpl snd.
  destruct ((cellConfig grid threshold gx gy =? 0)%Z ||
            (cellConfig grid threshold gx gy =? 15)%Z); reflexivity.
Qed.

Lemma buildGraph_cells :
  buildGraph grid threshold =
  fold_left (fun st c => cellStep grid threshold st (fst c) (snd c))
            (cells (width grid - 1) (height grid - 1)) (mkGraph [] []).
Proof. unfold buildGraph. apply fold_cells. Qed.

Lemma adj_fold_cells (l : list (nat * nat)) (st : Graph T) :
  adj (fold_left (fun st c => cellStep grid threshold st (fst c) (snd c)) l st) =
  addConnections (flat_map cellConns l) (adj st).
Proof.
  revert st. induction l as [|[gx gy] l IH]; intros st; simpl; [reflexivity|].
  rewrite IH, adj_cellStep, addConnections_app. reflexivity.
Qed.

Lemma adj_buildGraph :
  adj (buildGraph grid threshold) = addConnections allConns [].
Proof. rewrite buildGraph_cells, adj_fold_cells. reflexivity. Qed.

Lemma nbrs_buildGraph (k : EdgeKey) :
  nbrs (adj (buildGraph grid threshold)) k = flat_map (contrib k) allConns.
Proof. rewrite adj_buildGraph, nbrs_addConnections. reflexivity. Qed.

Lemma NoDup_keys_buildGraph : NoDup (mkeys (adj (buildGraph grid threshold))).
Proof. rewrite adj_buildGraph. apply NoDup_addConnections. constructor. Qed.

Lemma cellConns_edge_once (k : EdgeKey) (c : nat * nat) :
  length (flat_map (contrib k) (cellConns c)) <= if touches k c then 1 else 0.
Proof.
  unfold cellConns, touches.
  destruct (cell_keys_distinct (fst c) (snd c)) as (H1 & H2 & H3 & H4 & H5 & H6).
  destruct ((_ =? 0)%Z || (_ =? 15)%Z).
  - simpl. destruct (_ || _); lia.
  - now apply table_uses_edge_once.
Qed.

Lemma degree_buildGraph (k : EdgeKey) :
  length (nbrs (adj (buildGraph grid threshold)) k) <= 2.
Proof.
  rewrite nbrs_buildGraph. unfold allConns. rewrite flat_map_flat_map.
  etransitivity; [|apply (touching_cells_le_2 k (width grid - 1) (height grid - 1))].
  apply length_flat_map_filter. apply cellConns_edge_once.
Qed.

(** C3: every node of the adjacency graph that [marchSquares] builds,
    for any grid and any threshold, has at most two neighbours: the array
    stored under each key of [adj] has length at most 2. *)
Theorem adjacency_degree_le_2 (k : EdgeKey) (n : list EdgeKey) :
  In (k, n) (adj (buildGraph grid threshold)) -> length n <= 2.
Proof.
  intros Hin. apply In_mget in Hin; [|apply NoDup_keys_buildGraph].
  pose proof (degree_buildGraph k) as Hd. unfold nbrs in Hd.
  now rewrite Hin in Hd.
Qed.

End Build.

(** ** Tracing a graph whose nodes have at most two neighbours *)

Lemma two_members {A} (l : list A) (a b e : A) :
  length l <= 2 -> In a l -> In b l -> a <> b -> In e l -> e = a \/ e = b.
Proof.
  destruct l as [|x [|y [|z l]]]; simpl; intros Hlen Ha Hb Hab He; try lia;
    intuition (subst; try contradiction; auto).
Qed.

Lemma count_occ_In_pos (l : list EdgeKey) (k : EdgeKey) :
  In k l <-> count_occ key_eq_dec l k > 0.
Proof. apply count_occ_In. Qed.

Lemma list_sum_map_add {A} (f g : A -> nat) (l : list A) :
  list_sum (map (fun x => f x + g x) l) = list_sum (map f l) + list_sum (map g l).
Proof. induction l as [|a l IH]; simpl; lia. Qed.

Lemma list_sum_map_ext {A} (f g : A -> nat) (l : list A) :
  (forall x, f x = g x) -> list_sum (map f l) = list_sum (map g l).
Proof. intros E. induction l as [|a l IH]; simpl; [reflexivity|]. now rewrite E, IH. Qed.

(** The handshake lemma: in a symmetric table without diagonal the sum of
    the entries over a list of nodes is even. *)
Lemma handshake {A} (c : A -> A -> nat) (X : list A) :
  (forall x y, c x y = c y x) -> (forall x, c x x = 0) ->
  Nat.Even (list_sum (map (fun x => list_sum (map (c x) X)) X)).
Proof.
  intros Hsym Hdiag. induction X as [|w X IH]; [exists 0; reflexivity|].
  assert (E : list_sum (map (fun x => list_sum (map (c x) (w :: X))) X) =
              list_sum (map (c w) X) +
              list_sum (map (fun x => list_sum (map (c x) X)) X)).
  { rewrite (list_sum_map_ext (c w) (fun x => c x w)) by (intros; apply Hsym).
    rewrite <- list_sum_map_add. apply list_sum_map_ext. intros; reflexivity. }
  change (list_sum (map (fun x => list_sum (map (c x) (w :: X))) (w :: X)))
    with (c w w + list_sum (map (c w) X) +
          list_sum (map (fun x => list_sum (map (c x) (w :: X))) X)).
  rewrite E, Hdiag. destruct IH as [k Hk].
  exists (list_sum (map (c w) X) + k). lia.
Qed.

Lemma even_sum_all (D : EdgeKey -> nat) (W : list EdgeKey) :
  (forall w, In w W -> Nat.Even (D w)) -> Nat.Even (list_sum (map D W)).
Proof.
  induction W as [|a W IH]; intros Hev; [exists 0; reflexivity|].
  change (list_sum (map D (a :: W))) with (D a + list_sum (map D W)).
  destruct (Hev a) as [i Hi]; [now left|].
  destruct IH as [j Hj]; [intros w Hw; apply Hev; now right|].
  exists (i + j). rewrite Hi, Hj. lia.
Qed.

(** If all summands but the one of [s] are even and the sum is even, the
    summand of [s] is even. *)
Lemma even_summand (D : EdgeKey -> nat) (W : list EdgeKey) (s : EdgeKey) :
  NoDup W -> In s W ->
  (forall w, In w W -> w <> s -> Nat.Even (D w)) ->
  Nat.Even (list_sum (map D W)) -> Nat.Even (D s).
Proof.
  induction W as [|a W IH]; intros Hnd Hs Hev Hsum; [contradiction|].
  inversion Hnd as [|? ? Ha Hnd']; subst.
  change (list_sum (map D (a :: W))) with (D a + list_sum (map D W)) in Hsum.
  destruct (key_eq_dec a s) as [->|Hne].
  - destruct (even_sum_all D W) as [j Hj].
    { intros w Hw. apply Hev; [now right|]. intros ->. contradiction. }
    destruct Hsum as [i Hi]. exists (i - j). lia.
  - destruct Hs as [E|Hs]; [contradiction|].
    destruct (Hev a) as [j Hj]; [now left | exact Hne |].
    apply IH; auto.
    + intros w Hw Hws. apply Hev; [now right | exact Hws].
    + destruct Hsum as [i Hi]. exists (i - j). lia.
Qed.

Lemma sum_indicator (e : EdgeKey) (W : list EdgeKey) :
  NoDup W ->
  list_sum (map (fun y => if key_eq_dec e y then 1 else 0) W) =
  if shas e W then 1 else 0.
Proof.
  induction W as [|a W IH]; intros Hnd; [reflexivity|].
  inversion Hnd as [|? ? Ha Hnd']; subst.
  change (list_sum (map (fun y => if key_eq_dec e y then 1 else 0) (a :: W)))
    with ((if key_eq_dec e a then 1 else 0) +
          list_sum (map (fun y => if key_eq_dec e y then 1 else 0) W)).
  rewrite IH by exact Hnd'.
  change (shas e (a :: W)) with (key_eqb e a || shas e W).
  destruct (key_eq_dec e a) as [->|Hne].
  - rewrite key_eqb_refl. apply shas_not_In in Ha. now rewrite Ha.
  - apply key_eqb_neq in Hne. rewrite Hne. reflexivity.
Qed.

(** Over a duplicate-free [W], the occurrences in [l] of the members of
    [W] add up to the number of entries of [l] that lie in [W]. *)
Lemma sum_count_filter (l W : list EdgeKey) :
  NoDup W ->
  list_sum (map (count_occ key_eq_dec l) W) =
  length (filter (fun e => shas e W) l).
Proof.
  intros Hnd. induction l as [|e l IH].
  - simpl. induction W as [|a W IHW]; [reflexivity|].
    inversion Hnd; subst. simpl. now apply IHW.
  - rewrite (list_sum_map_ext (count_occ key_eq_dec (e :: l))
               (fun y => (if key_eq_dec e y then 1 else 0) + count_occ key_eq_dec l y)).
    2:{ intros y. simpl. destruct (key_eq_dec e y); reflexivity. }
    rewrite list_sum_map_add, IH, sum_indicator by exact Hnd.
    simpl. destruct (shas e W); simpl; lia.
Qed.

Lemma filter_all {A} (f : A -> bool) (l : list A) :
  length (filter f l) = length l -> forall e, In e l -> f e = true.
Proof.
  induction l as [|a l IH]; intros Hlen e He; [contradiction|].
  simpl in Hlen. pose proof (filter_length_le f l) as Hle.
  destruct (f a) eqn:Ea; simpl in Hlen; [|lia].
  destruct He as [<-|He]; [exact Ea|]. apply IH; [lia | exact He].
Qed.

Lemma filter_keep_all {A} (f : A -> bool) (l : list A) :
  (forall e, In e l -> f e = true) -> length (filter f l) = length l.
Proof.
  induction l as [|a l IH]; intros Hall; [reflexivity|].
  simpl. rewrite (Hall a) by now left. simpl. f_equal.
  apply IH. intros e He. apply Hall. now right.
Qed.

Lemma traceLoop_step {T} `{Number T} (fuel : nat) (nodes : list (EdgeKey * Point T))
  (adjm : list (EdgeKey * list EdgeKey)) (vis : list EdgeKey) (c : EdgeKey)
  (path : list (Point T)) :
  traceLoop (S fuel) nodes adjm vis (Some c) path =
  if shas c vis then Some (vis, path)
  else match mget c nodes with
       | None => None
       | Some p =>
           traceLoop fuel nodes adjm (c :: vis)
             (find (fun k => negb (shas k (c :: vis))) (nbrs adjm c))
             (path ++ [p])
       end.
Proof. reflexivity. Qed.

Lemma traceLoop_None {T} `{Number T} (fuel : nat) (nodes : list (EdgeKey * Point T))
  (adjm : list (EdgeKey * list EdgeKey)) (vis : list EdgeKey)
  (path : list (Point T)) :
  traceLoop fuel nodes adjm vis None path = Some (vis, path).
Proof. destruct fuel; reflexivity. Qed.

Section Walk.
Context {T : Type} `{Number T}.
Variable nodes : list (EdgeKey * Point T).
Variable adjm : list (EdgeKey * list EdgeKey).

#[local] Abbreviation N := (nbrs adjm).
#[local] Abbreviation keys := (mkeys adjm).

Hypothesis HndK : NoDup keys.
Hypothesis Hdeg2 : forall k, length (N k) <= 2.
Hypothesis Hdeg1 : forall k, In k keys -> N k <> [].
Hypothesis Hsym :
  forall k m, count_occ key_eq_dec (N k) m = count_occ key_eq_dec (N m) k.
Hypothesis Hself : forall k, ~ In k (N k).
Hypothesis Hnodes : forall k, In k keys -> exists p, mget k nodes = Some p.

Lemma nbrs_sym (k m : EdgeKey) : In m (N k) -> In k (N m).
Proof.
  intros Hin. apply count_occ_In_pos. rewrite <- Hsym.
  now apply count_occ_In_pos.
Qed.

Lemma nbrs_key (k m : EdgeKey) : In m (N k) -> In m keys.
Proof.
  intros Hin. apply nbrs_sym in Hin.
  destruct (mget m adjm) as [l|] eqn:E.
  - apply mget_Some_In in E. unfold mkeys. apply in_map_iff.
    exists (m, l). auto.
  - unfold nbrs in Hin. rewrite E in Hin. contradiction.
Qed.

(** The neighbours of every visited node are visited. *)
Definition closed (vis : list EdgeKey) : Prop :=
  forall u, In u vis -> forall w, In w (N u) -> In w vis.

Lemma closed_unvisited (vis : list EdgeKey) (k n : EdgeKey) :
  closed vis -> ~ In k vis -> In n (N k) -> ~ In n vis.
Proof.
  intros Hc Hk Hn Hv. apply Hk. apply (Hc n Hv). now apply nbrs_sym.
Qed.

Section FromStart.
Variable V0 : list EdgeKey.
Variable s : EdgeKey.

(** Every node visited by this trace, except its start, has all its
    neighbours in [vis] or equal to [c]. *)
Definition saturated (vis : list EdgeKey) (c : option EdgeKey) : Prop :=
  forall w, In w vis -> ~ In w V0 -> w <> s ->
  forall e, In e (N w) -> In e vis \/ c = Some e.

Lemma traceLoop_continue (fuel : nat) :
  forall (vis : list EdgeKey) (c : EdgeKey) (path : list (Point T)),
    incl V0 vis -> NoDup vis -> incl vis keys -> In s vis ->
    ~ In c vis -> In c keys ->
    (exists u, In u vis /\ In u (N c)) ->
    saturated vis (Some c) ->
    length keys <= fuel + length vis ->
    exists F P,
      traceLoop fuel nodes adjm vis (Some c) path = Some (F, P) /\
      incl (c :: vis) F /\ NoDup F /\ incl F keys /\
      saturated F None /\
      length path + 1 <= length P.
Proof.
  induction fuel as [|fuel IH];
    intros vis c path HV0 Hnd Hincl Hs Hc Hck [u [Hu Huc]] Hsat Hfuel.
  - exfalso.
    assert (Hlt : length (c :: vis) <= length keys).
    { apply NoDup_incl_length.
      - constructor; assumption.
      - intros x [<-|Hx]; auto. }
    simpl in Hlt, Hfuel. lia.
  - rewrite traceLoop_step.
    assert (Ec : shas c vis = false) by now apply shas_not_In.
    rewrite Ec.
    destruct (Hnodes c Hck) as [p Hp]. rewrite Hp.
    assert (Hnd' : NoDup (c :: vis)) by (constructor; assumption).
    assert (Hincl' : incl (c :: vis) keys) by (intros x [<-|Hx]; auto).
    assert (Hcs : c <> s) by (intros ->; contradiction).
    destruct (find (fun k => negb (shas k (c :: vis))) (N c)) as [c'|] eqn:Ef.
    + apply find_some in Ef as [Hc'N Hc'v].
      apply negb_true_iff, shas_not_In in Hc'v.
      destruct (IH (c :: vis) c' (path ++ [p])) as (F & P & HF & HinF & HndF & HkF & HsatF & Hlen).
      * intros x Hx; right; auto.
      * exact Hnd'.
      * exact Hincl'.
      * now right.
      * exact Hc'v.
      * eapply nbrs_key; eassumption.
      * exists c. split; [now left | now apply nbrs_sym].
      * intros w [<-|Hw] HwV0 Hws e He.
        -- assert (Huc' : u <> c').
           { intros ->. apply Hc'v. now right. }
           destruct (@two_members _ (N c) u c' e (Hdeg2 c) Huc Hc'N Huc' He) as [->| ->].
           ++ left; now right.
           ++ now right.
        -- destruct (Hsat w Hw HwV0 Hws e He) as [Hv|Ev].
           ++ left; now right.
           ++ inversion Ev; subst. left; now left.
      * simpl. lia.
      * exists F, P. split; [exact HF|]. split.
        { intros x Hx. apply HinF. now right. }
        split; [exact HndF|]. split; [exact HkF|]. split; [exact HsatF|].
        rewrite length_app in Hlen. simpl in Hlen. lia.
    + exists (c :: vis), (path ++ [p]). split; [apply traceLoop_None|].
      split; [apply incl_refl|]. split; [exact Hnd'|]. split; [exact Hincl'|].
      split.
      * intros w [<-|Hw] HwV0 Hws e He.
        -- left. apply shas_In.
           pose proof (find_none _ _ Ef e He) as Hn. simpl in Hn.
           now apply negb_false_iff in Hn.
        -- destruct (Hsat w Hw HwV0 Hws e He) as [Hv|Ev].
           ++ left; now right.
           ++ inversion Ev; subst. left; now left.
      * rewrite length_app. simpl. lia.
Qed.

(** What [trace(s)] returns when [s] is a key that was not visited. *)
Lemma trace_spec :
  NoDup V0 -> incl V0 keys -> ~ In s V0 -> In s keys ->
  exists F P,
    trace nodes adjm V0 s = Some (F, P) /\
    incl (s :: V0) F /\ NoDup F /\ incl F keys /\
    saturated F None /\
    ((forall n, In n (N s) -> In n (s :: V0)) /\ length P = 1 \/
     (exists n, In n (N s) /\ In n F /\ ~ In n (s :: V0)) /\ 2 <= length P).
Proof.
  intros Hnd Hincl Hs Hsk. unfold trace.
  assert (Hlen : length (s :: V0) <= length keys).
  { apply NoDup_incl_length.
    - constructor; assumption.
    - intros x [<-|Hx]; auto. }
  assert (Ekeys : length adjm = length keys) by (unfold mkeys; now rewrite length_map).
  rewrite Ekeys.
  destruct (length keys) as [|fuel] eqn:Efuel; [simpl in Hlen; lia|].
  rewrite traceLoop_step.
  assert (Ec : shas s V0 = false) by now apply shas_not_In.
  rewrite Ec. destruct (Hnodes s Hsk) as [p Hp]. rewrite Hp.
  assert (Hnd' : NoDup (s :: V0)) by (constructor; assumption).
  assert (Hincl' : incl (s :: V0) keys) by (intros x [<-|Hx]; auto).
  destruct (find (fun k => negb (shas k (s :: V0))) (N s)) as [c'|] eqn:Ef.
  - apply find_some in Ef as [Hc'N Hc'v].
    apply negb_true_iff, shas_not_In in Hc'v.
    destruct (@traceLoop_continue fuel (s :: V0) c' ([] ++ [p]))
      as (F & P & HF & HinF & HndF & HkF & HsatF & HlenP).
    + intros x Hx; now right.
    + exact Hnd'.
    + exact Hincl'.
    + now left.
    + exact Hc'v.
    + eapply nbrs_key; eassumption.
    + exists s. split; [now left | now apply nbrs_sym].
    + intros w [<-|Hw] HwV0 Hws e He; [congruence | contradiction].
    + simpl in *. lia.
    + exists F, P. split; [exact HF|]. split.
      { intros x Hx. apply HinF. now right. }
      split; [exact HndF|]. split; [exact HkF|]. split; [exact HsatF|].
      right. split.
      * exists c'. split; [exact Hc'N|]. split; [|exact Hc'v].
        apply HinF. now left.
      * simpl in HlenP. lia.
  - exists (s :: V0), ([] ++ [p]). split; [apply traceLoop_None|].
    split; [apply incl_refl|]. split; [exact Hnd'|]. split; [exact Hincl'|].
    split.
    + intros w [<-|Hw] HwV0 Hws e He; [congruence | contradiction].
    + left. split; [|reflexivity].
      intros n Hn. apply shas_In.
      pose proof (find_none _ _ Ef n Hn) as Hf. simpl in Hf.
      now apply negb_false_iff in Hf.
Qed.

End FromStart.

(** ** The visited set stays closed *)

(** A trace that starts at an unvisited node of degree 1. *)
Lemma trace_open_closed (V0 : list EdgeKey) (s : EdgeKey) :
  closed V0 -> NoDup V0 -> incl V0 keys -> ~ In s V0 -> In s keys ->
  length (N s) = 1 ->
  exists F P,
    trace nodes adjm V0 s = Some (F, P) /\
    closed F /\ NoDup F /\ incl F keys /\ incl (s :: V0) F /\ 2 <= length P.
Proof.
  intros Hcl Hnd Hincl Hs Hsk Hone.
  destruct (@trace_spec V0 s Hnd Hincl Hs Hsk)
    as (F & P & Htr & HinF & HndF & HkF & Hsat & Hcase).
  destruct (N s) as [|n [|? ?]] eqn:EN; try discriminate.
  assert (HnN : In n (N s)) by (rewrite EN; now left).
  assert (HnV : ~ In n V0) by (eapply closed_unvisited; eassumption).
  assert (Hns : n <> s) by (intros ->; exact (Hself s HnN)).
  exists F, P. split; [exact Htr|].
  destruct Hcase as [[Hall _]|[[n' (Hn'N & Hn'F & Hn'V)] Hlen]].
  { exfalso. destruct (Hall n) as [E|E]; [now left | congruence | contradiction]. }
  assert (n' = n) by (destruct Hn'N as [E|[]]; congruence). subst n'.
  split; [|auto].
  intros u Hu w Hw.
  destruct (in_dec key_eq_dec u V0) as [HuV|HuV].
  - apply HinF. right. eapply Hcl; eassumption.
  - destruct (key_eq_dec u s) as [->|Hus].
    + rewrite EN in Hw. destruct Hw as [<-|[]]. exact Hn'F.
    + destruct (Hsat u Hu HuV Hus w Hw) as [Hv|E]; [exact Hv | discriminate].
Qed.

(** A trace that starts at an unvisited node when every node of degree 1
    has been visited: the walk comes back to the other neighbour of its
    start. *)
Lemma trace_loop_closed (V0 : list EdgeKey) (s : EdgeKey) :
  closed V0 -> NoDup V0 -> incl V0 keys -> ~ In s V0 -> In s keys ->
  (forall k, In k keys -> length (N k) = 1 -> In k V0) ->
  exists F P,
    trace nodes adjm V0 s = Some (F, P) /\
    closed F /\ NoDup F /\ incl F keys /\ incl (s :: V0) F /\ 2 <= length P.
Proof.
  intros Hcl Hnd Hincl Hs Hsk Hends.
  destruct (@trace_spec V0 s Hnd Hincl Hs Hsk)
    as (F & P & Htr & HinF & HndF & HkF & Hsat & Hcase).
  exists F, P. split; [exact Htr|].
  assert (Hdeg : forall w, In w keys -> ~ In w V0 -> length (N w) = 2).
  { intros w Hwk HwV. pose proof (Hdeg2 w) as H2. pose proof (Hdeg1 w Hwk) as H1.
    destruct (N w) as [|a [|b [|c l]]] eqn:EN; simpl in *; try lia.
    - contradiction.
    - exfalso. apply HwV. apply Hends; [exact Hwk | now rewrite EN]. }
  destruct Hcase as [[Hall _]|[[n (HnN & HnF & HnV)] Hlen]].
  { exfalso. pose proof (Hdeg1 s Hsk) as H1.
    destruct (N s) as [|a l] eqn:EN; [contradiction|].
    assert (HaN : In a (N s)) by (rewrite EN; now left).
    destruct (Hall a) as [E|E]; [now left | |].
    - subst a. exact (Hself s HaN).
    - eapply closed_unvisited; eassumption. }
  set (W := filter (fun k => negb (shas k V0)) F).
  assert (HW : forall k, In k W <-> In k F /\ ~ In k V0).
  { intros k. unfold W. rewrite filter_In, negb_true_iff, shas_not_In. tauto. }
  assert (HndW : NoDup W) by (apply NoDup_filter; exact HndF).
  assert (HsW : In s W) by (apply HW; split; [apply HinF; now left | exact Hs]).
  set (D := fun w => list_sum (map (count_occ key_eq_dec (N w)) W)).
  assert (HD : forall w, D w = length (filter (fun e => shas e W) (N w))).
  { intros w. unfold D. now apply sum_count_filter. }
  assert (Hmid : forall w, In w W -> w <> s -> D w = 2).
  { intros w Hw Hws. apply HW in Hw as [HwF HwV].
    rewrite HD, filter_keep_all; [apply Hdeg; auto|].
    intros e He. apply shas_In, HW. split.
    - destruct (Hsat w HwF HwV Hws e He) as [Hv|E]; [exact Hv | discriminate].
    - eapply closed_unvisited; eassumption. }
  assert (Hsum : Nat.Even (list_sum (map D W))).
  { unfold D. apply (handshake (fun x y => count_occ key_eq_dec (N x) y)).
    - intros x y. apply Hsym.
    - intros x. apply count_occ_not_In, Hself. }
  assert (Hs2 : Nat.Even (D s)).
  { apply (even_summand D HndW HsW); [|exact Hsum].
    intros w Hw Hws. rewrite (Hmid w Hw Hws). exists 1. reflexivity. }
  destruct Hs2 as [half Hhalf].
  assert (HsN : forall e, In e (N s) -> In e F).
  { assert (Hge : 1 <= D s).
    { rewrite HD. assert (Hin : In n (filter (fun e => shas e W) (N s))).
      { apply filter_In. split; [exact HnN|]. apply shas_In, HW. split; [exact HnF|].
        intros Hv. apply HnV. now right. }
      destruct (filter _ (N s)); [contradiction | simpl; lia]. }
    assert (Hle : D s <= length (N s)) by (rewrite HD; apply filter_length_le).
    pose proof (Hdeg s Hsk Hs) as Hds.
    assert (Hall : D s = length (N s)) by lia.
    rewrite HD in Hall.
    intros e He. pose proof (filter_all _ _ Hall e He) as Hin.
    apply shas_In, HW in Hin. tauto. }
  split; [|auto].
  intros u Hu w Hw.
  destruct (in_dec key_eq_dec u V0) as [HuV|HuV].
  - apply HinF. right. eapply Hcl; eassumption.
  - destruct (key_eq_dec u s) as [->|Hus].
    + now apply HsN.
    + destruct (Hsat u Hu HuV Hus w Hw) as [Hv|E]; [exact Hv | discriminate].
Qed.

(** ** The two tracing loops *)

Definition goodState (st : TraceState (T:=T)) : Prop :=
  closed (fst st) /\ NoDup (fst st) /\ incl (fst st) keys /\
  Forall (fun p => 2 <= length p) (snd st).

Lemma traceOpen_fold (l : list EdgeKey) :
  (forall k, In k l -> In k keys /\ length (N k) = 1) ->
  forall st, goodState st ->
  exists st',
    fold_left (traceOpen nodes adjm) l (Some st) = Some st' /\
    goodState st' /\ incl (fst st) (fst st') /\ incl l (fst st').
Proof.
  induction l as [|k l IH]; intros Hl st Hgood.
  - exists st. split; [reflexivity|]. split; [exact Hgood|].
    split; [apply incl_refl | intros x []].
  - destruct st as [V paths]. destruct Hgood as (Hcl & Hnd & Hincl & Hlen).
    simpl in Hcl, Hnd, Hincl, Hlen.
    destruct (Hl k (or_introl eq_refl)) as [Hkk Hk1].
    cbn [fold_left traceOpen].
    destruct (shas k V) eqn:Ek.
    + apply shas_In in Ek.
      destruct (IH (fun x Hx => Hl x (or_intror Hx)) (V, paths)) as (st' & Hf & Hg & Hi & Hil).
      { repeat split; assumption. }
      exists st'. split; [exact Hf|]. split; [exact Hg|]. split; [exact Hi|].
      intros x [<-|Hx]; [apply Hi; exact Ek | now apply Hil].
    + apply shas_not_In in Ek.
      destruct (@trace_open_closed V k Hcl Hnd Hincl Ek Hkk Hk1)
        as (F & P & -> & HclF & HndF & HkF & HinF & HlenP).
      destruct (IH (fun x Hx => Hl x (or_intror Hx)) (F, paths ++ [P]))
        as (st' & Hf & Hg & Hi & Hil).
      { repeat split; try assumption. simpl.
        apply Forall_app. split; [exact Hlen | now constructor]. }
      exists st'. split; [exact Hf|]. split; [exact Hg|]. simpl in Hi |- *. split.
      * intros x Hx. apply Hi, HinF. now right.
      * intros x [<-|Hx]; [apply Hi, HinF; now left | now apply Hil].
Qed.

Lemma closeLoop_length (path : list (Point T)) :
  length path <= length (closeLoop path).
Proof.
  unfold closeLoop. destruct (Nat.ltb 2 (length path)); [|lia].
  destruct path; [lia|]. rewrite length_app. simpl. lia.
Qed.

Lemma traceClosed_fold (l : list EdgeKey) :
  (forall k, In k l -> In k keys) ->
  forall st, goodState st ->
  (forall k, In k keys -> length (N k) = 1 -> In k (fst st)) ->
  exists st',
    fold_left (traceClosed nodes adjm) l (Some st) = Some st' /\ goodState st'.
Proof.
  induction l as [|k l IH]; intros Hl st Hgood Hends.
  - exists st. split; [reflexivity | exact Hgood].
  - destruct st as [V paths]. destruct Hgood as (Hcl & Hnd & Hincl & Hlen).
    simpl in Hcl, Hnd, Hincl, Hlen, Hends.
    pose proof (Hl k (or_introl eq_refl)) as Hkk.
    cbn [fold_left traceClosed].
    destruct (shas k V) eqn:Ek.
    + apply (IH (fun x Hx => Hl x (or_intror Hx)) (V, paths)).
      * repeat split; assumption.
      * exact Hends.
    + apply shas_not_In in Ek.
      destruct (@trace_loop_closed V k Hcl Hnd Hincl Ek Hkk Hends)
        as (F & P & -> & HclF & HndF & HkF & HinF & HlenP).
      apply (IH (fun x Hx => Hl x (or_intror Hx)) (F, paths ++ [closeLoop P])).
      * repeat split; try assumption. simpl.
        apply Forall_app. split; [exact Hlen|]. constructor; [|constructor].
        pose proof (closeLoop_length P). lia.
      * simpl. intros x Hx Hx1. apply HinF. right. now apply Hends.
Qed.

Lemma endpoints_spec (k : EdgeKey) :
  In k (endpoints adjm) <-> In k keys /\ length (N k) = 1.
Proof.
  unfold endpoints, mkeys. rewrite in_map_iff. split.
  - intros [[k' n] [<- Hin]]. apply filter_In in Hin as [Hin Hlen].
    simpl in *. apply Nat.eqb_eq in Hlen. split.
    + apply in_map_iff. exists (k', n). auto.
    + unfold nbrs. now rewrite (@In_mget _ k' n adjm HndK Hin).
  - intros [Hk Hlen]. unfold nbrs in Hlen.
    destruct (mget k adjm) as [n|] eqn:E; [|discriminate].
    exists (k, n). split; [reflexivity|].
    apply filter_In. split; [now apply mget_Some_In|].
    simpl. now apply Nat.eqb_eq.
Qed.

Lemma midpoints_keys (k : EdgeKey) : In k (midpoints adjm) -> In k keys.
Proof.
  unfold midpoints, mkeys. rewrite !in_map_iff.
  intros [e [<- Hin]]. apply filter_In in Hin as [Hin _]. exists e. auto.
Qed.

(** Every traced path has at least two points. *)
Lemma tracePaths_spec :
  exists paths,
    tracePaths (mkGraph nodes adjm) = Some paths /\
    Forall (fun p => 2 <= length p) paths.
Proof.
  destruct (traceOpen_fold (endpoints adjm))
    with (st := (@nil EdgeKey, @nil (list (Point T))))
    as (st1 & Hf1 & Hg1 & _ & Hends).
  { intros k Hk. now apply endpoints_spec. }
  { repeat split; simpl.
    - intros u [].
    - constructor.
    - intros u [].
    - constructor. }
  destruct (traceClosed_fold (midpoints adjm)) with (st := st1)
    as (st2 & Hf2 & Hg2).
  { intros k Hk. now apply midpoints_keys. }
  { exact Hg1. }
  { intros k Hk Hk1. apply Hends. now apply endpoints_spec. }
  destruct st2 as [V paths]. exists paths. split; [|apply Hg2].
  unfold tracePaths.
  change (edgeNodes (mkGraph nodes adjm)) with nodes.
  change (adj (mkGraph nodes adjm)) with adjm.
  match goal with
  | |- context [fold_left (traceClosed nodes adjm) (midpoints adjm) ?x] =>
      replace x with (Some st1) by (symmetry; exact Hf1)
  end.
  match goal with
  | |- match ?x with _ => _ end = _ =>
      replace x with (Some (V, paths)) by (symmetry; exact Hf2)
  end.
  reflexivity.
Qed.

End Walk.

(** ** Smoothing never shortens a polyline *)

Section Smooth.
Context {T : Type} `{Number T}.

Lemma cutCorners_length (current : list (Point T)) :
  length (cutCorners current) = 2 * (length current - 1).
Proof.
  induction current as [|p0 [|p1 rest] IH]; [reflexivity | reflexivity |].
  change (cutCorners (p0 :: p1 :: rest))
    with (cutQ p0 p1 :: cutR p0 p1 :: cutCorners (p1 :: rest)).
  simpl length in *. lia.
Qed.

Lemma chaikinStep_length (current : list (Point T)) :
  2 <= length current ->
  exists next, chaikinStep current = Some next /\ length current <= length next.
Proof.
  intros Hlen. unfold chaikinStep.
  destruct current as [|first rest]; [simpl in Hlen; lia|].
  pose proof (cutCorners_length (first :: rest)) as Hcut.
  destruct (_ && _).
  - cbn [app]. destruct (cutCorners (first :: rest)) as [|n0 next] eqn:E.
    + simpl in Hcut, Hlen. lia.
    + eexists; split; [reflexivity|].
      rewrite length_app. simpl in *. lia.
  - eexists; split; [reflexivity|].
    rewrite length_app. simpl in *. lia.
Qed.

Lemma chaikinIter_length (k : nat) (current : list (Point T)) :
  2 <= length current ->
  exists out, chaikinIter k current = Some out /\ length current <= length out.
Proof.
  revert current. induction k as [|k IH]; intros current Hlen.
  - exists current. split; [reflexivity | lia].
  - simpl. destruct (chaikinStep_length current Hlen) as [next [-> Hn]].
    destruct (IH next) as [out [-> Ho]]; [lia|].
    exists out. split; [reflexivity | lia].
Qed.

Lemma smoothChaikin_length (points : list (Point T)) (iterations : nat) :
  2 <= length points ->
  exists out, smoothChaikin points iterations = Some out /\ 2 <= length out.
Proof.
  intros Hlen. unfold smoothChaikin.
  destruct (_ || _).
  - exists points. auto.
  - destruct (chaikinIter_length iterations points Hlen) as [out [-> Ho]].
    exists out. split; [reflexivity | lia].
Qed.

Lemma smoothAll_length (paths : list (list (Point T))) :
  Forall (fun p => 2 <= length p) paths ->
  exists out, smoothAll paths = Some out /\ Forall (fun p => 2 <= length p) out.
Proof.
  induction 1 as [|p ps Hp Hps IH].
  - exists []. split; [reflexivity | constructor].
  - simpl. destruct (smoothChaikin_length p 2 Hp) as [p' [-> Hp']].
    destruct IH as [ps' [-> Hps']].
    exists (p' :: ps'). split; [reflexivity | now constructor].
Qed.

End Smooth.

(** ** The graph of [buildGraph] is such a graph *)

Lemma key_eqb_dec (a b : EdgeKey) :
  key_eqb a b = if key_eq_dec a b then true else false.
Proof.
  destruct (key_eq_dec a b) as [E|E].
  - now apply key_eqb_eq.
  - now apply key_eqb_neq.
Qed.

Lemma contrib_count_sym (k m : EdgeKey) (c : EdgeKey * EdgeKey) :
  count_occ key_eq_dec (contrib k c) m = count_occ key_eq_dec (contrib m c) k.
Proof.
  destruct c as [a b]. unfold contrib. cbn [fst snd].
  rewrite !key_eqb_dec.
  destruct (key_eq_dec a k), (key_eq_dec b k), (key_eq_dec a m), (key_eq_dec b m);
    subst; simpl;
    repeat match goal with
           | |- context [key_eq_dec ?x ?y] => destruct (key_eq_dec x y)
           end;
    try reflexivity; congruence.
Qed.

Lemma flat_contrib_count_sym (cs : list (EdgeKey * EdgeKey)) (k m : EdgeKey) :
  count_occ key_eq_dec (flat_map (contrib k) cs) m =
  count_occ key_eq_dec (flat_map (contrib m) cs) k.
Proof.
  induction cs as [|c cs IH]; [reflexivity|].
  simpl. rewrite !count_occ_app, IH, contrib_count_sym. reflexivity.
Qed.

Lemma contrib_self (k : EdgeKey) (c : EdgeKey * EdgeKey) :
  In k (contrib k c) -> fst c = snd c.
Proof.
  destruct c as [a b]. unfold contrib. cbn [fst snd]. intros Hin.
  apply in_app_or in Hin as [Hin|Hin].
  - destruct (key_eqb a k) eqn:E; [|contradiction].
    apply key_eqb_eq in E. destruct Hin as [<-|[]]. exact E.
  - destruct (key_eqb b k) eqn:E; [|contradiction].
    apply key_eqb_eq in E. destruct Hin as [<-|[]]. now symmetry.
Qed.

Lemma contrib_endpoint (k : EdgeKey) (c : EdgeKey * EdgeKey) :
  k = fst c \/ k = snd c -> contrib k c <> [].
Proof.
  destruct c as [a b]. unfold contrib. cbn [fst snd].
  intros [->| ->]; rewrite key_eqb_refl.
  - discriminate.
  - destruct (key_eqb a b); discriminate.
Qed.

(** The edges that the table connects pass the test of the source. *)
Lemma table_edges_active (config : Z) (kT kR kB kL : EdgeKey)
  (e : EdgeKey * EdgeKey) (x : EdgeKey) :
  In e (cellConnections config kT kR kB kL) -> x = fst e \/ x = snd e ->
  (x = kT /\ edgeActive config 8 4 = true) \/
  (x = kR /\ edgeActive config 4 2 = true) \/
  (x = kB /\ edgeActive config 1 2 = true) \/
  (x = kL /\ edgeActive config 8 1 = true).
Proof.
  destruct config as [|p|p]; [intros [] | | intros []].
  do 4 (try destruct p as [p|p|]); simpl;
    intros Hin Hx; repeat (destruct Hin as [<-|Hin]); try contradiction;
    simpl in Hx; destruct Hx as [->| ->]; auto 6.
Qed.

Lemma mkeys_addNode {T} `{Number T} (k k' : EdgeKey) (p : Point T)
  (nodes : list (EdgeKey * Point T)) :
  In k (mkeys (addNode k' p nodes)) <-> k = k' \/ In k (mkeys nodes).
Proof.
  unfold addNode. destruct (mhas k' nodes) eqn:E.
  - apply mhas_In in E. split; [auto | intros [->|?]; auto].
  - unfold mkeys. rewrite map_app, in_app_iff. simpl. intuition.
Qed.

Section Graph.
Context {T : Type} `{Number T}.
Variable grid : GridData T.
Variable threshold : T.

#[local] Abbreviation G := (buildGraph grid threshold).

Lemma allConns_no_self (c : EdgeKey * EdgeKey) :
  In c (allConns grid threshold) -> fst c <> snd c.
Proof.
  unfold allConns. rewrite in_flat_map. intros [cell [_ Hc]].
  unfold cellConns in Hc.
  destruct (cell_keys_distinct (fst cell) (snd cell)) as (H1 & H2 & H3 & H4 & H5 & H6).
  destruct ((_ =? 0)%Z || (_ =? 15)%Z); [contradiction|].
  eapply table_no_self; [| | | | | | exact Hc]; assumption.
Qed.

Lemma buildGraph_sym (k m : EdgeKey) :
  count_occ key_eq_dec (nbrs (adj G) k) m = count_occ key_eq_dec (nbrs (adj G) m) k.
Proof. rewrite !nbrs_buildGraph. apply flat_contrib_count_sym. Qed.

Lemma buildGraph_no_self (k : EdgeKey) : ~ In k (nbrs (adj G) k).
Proof.
  rewrite nbrs_buildGraph, in_flat_map. intros [c [Hc Hk]].
  apply contrib_self in Hk. exact (@allConns_no_self c Hc Hk).
Qed.

Lemma buildGraph_deg1 (k : EdgeKey) : In k (mkeys (adj G)) -> nbrs (adj G) k <> [].
Proof.
  rewrite nbrs_buildGraph, adj_buildGraph, mkeys_addConnections.
  intros [[]|[c [Hc Hk]]] E.
  assert (Hin : forall e, In e (contrib k c) -> In e (flat_map (contrib k) (allConns grid threshold))).
  { intros e He. apply in_flat_map. exists c. auto. }
  pose proof (@contrib_endpoint k c Hk) as Hne.
  destruct (contrib k c) as [|e l]; [contradiction|].
  specialize (Hin e (or_introl eq_refl)). rewrite E in Hin. contradiction.
Qed.

(** Every key of [adj] has its point in [edgeNodes]. *)
Definition nodesCoverAdj (st : Graph T) : Prop :=
  forall k, In k (mkeys (adj st)) -> In k (mkeys (edgeNodes st)).

Lemma cellStep_nodesCoverAdj (st : Graph T) (gx gy : nat) :
  nodesCoverAdj st -> nodesCoverAdj (cellStep grid threshold st gx gy).
Proof.
  intros Hinv k. unfold cellStep.
  set (config := cellConfig grid threshold gx gy).
  destruct ((config =? 0)%Z || (config =? 15)%Z); [apply Hinv|].
  cbn [adj edgeNodes]. rewrite mkeys_addConnections.
  intros [Hold|[c [Hc Hk]]].
  - apply Hinv in Hold.
    repeat match goal with
           | |- context [if ?b then _ else _] => destruct b
           end;
      repeat (apply mkeys_addNode; right); exact Hold.
  - destruct (@table_edges_active config _ _ _ _ c k Hc Hk)
      as [[-> ->]|[[-> ->]|[[-> ->]|[-> ->]]]];
      repeat match goal with
             | |- context [if ?b then _ else _] => destruct b
             end;
      repeat (apply mkeys_addNode; first [left; reflexivity | right]).
Qed.

Lemma buildGraph_nodesCoverAdj : nodesCoverAdj G.
Proof.
  rewrite buildGraph_cells.
  generalize (cells (width grid - 1) (height grid - 1)).
  assert (Hinit : nodesCoverAdj (mkGraph (T:=T) [] [])) by (intros k []).
  revert Hinit. generalize (mkGraph (T:=T) [] []).
  intros st Hst l. revert st Hst.
  induction l as [|c l IH]; intros st Hst; [exact Hst|].
  simpl. apply IH. now apply cellStep_nodesCoverAdj.
Qed.

Lemma buildGraph_nodes (k : EdgeKey) :
  In k (mkeys (adj G)) -> exists p, mget k (edgeNodes G) = Some p.
Proof.
  intros Hk. apply buildGraph_nodesCoverAdj in Hk.
  destruct (mget k (edgeNodes G)) as [p|] eqn:E; [eauto|].
  apply mget_None in E. contradiction.
Qed.

(** C10: for every grid and every threshold [marchSquares] returns (the
    traversal terminates within its bound and reads no missing point), and
    every polyline of the list it returns, after traversal and smoothing,
    has at least two points. *)
Theorem marchSquares_polylines_have_two_points :
  exists polylines,
    marchSquares grid threshold = Some polylines /\
    Forall (fun p => 2 <= length p) polylines.
Proof.
  unfold marchSquares.
  destruct (@tracePaths_spec T _ (edgeNodes G) (adj G)) as [paths [Htr Hlen]].
  - apply NoDup_keys_buildGraph.
  - apply degree_buildGraph.
  - apply buildGraph_deg1.
  - apply buildGraph_sym.
  - apply buildGraph_no_self.
  - apply buildGraph_nodes.
  - replace (mkGraph (edgeNodes G) (adj G)) with G in Htr by (destruct G; reflexivity).
    rewrite Htr. now apply smoothAll_length.
Qed.

End Graph.

(** ** Two single-cell grids *)

(** [data = [10, 0, 0, 10]]: TL and BR at 10, TR and BL at 0. *)
Definition saddleGrid : GridData jsnum :=
  mkGrid (map lit [10; 0; 0; 10]%Q) 2 2 (lit 0) (lit 1) (lit 0) (lit 1).

(** [data = [10, 10, 0, 0]]: TL and TR at 10, BL and BR at 0. *)
Definition stripeGrid : GridData jsnum :=
  mkGrid (map lit [10; 10; 0; 0]%Q) 2 2 (lit 0) (lit 1) (lit 0) (lit 1).

Lemma adjacency_degree_le_2_witness :
  In (kTop 0 0, [kRight 0 0]) (adj (buildGraph saddleGrid (lit 5))) /\
  length [kRight 0 0] <= 2.
Proof.
  assert (Hin : In (kTop 0 0, [kRight 0 0]) (adj (buildGraph saddleGrid (lit 5))))
    by (vm_compute; auto).
  split; [exact Hin|].
  exact (adjacency_degree_le_2 saddleGrid (lit 5) (kTop 0 0) [kRight 0 0] Hin).
Defined.

(** The connections of the two saddle configurations, for every cell. *)
Lemma saddle_connections (kT kR kB kL : EdgeKey) :
  cellConnections 10 kT kR kB kL = [(kT, kR); (kL, kB)] /\
  cellConnections 5 kT kR kB kL = [(kT, kL); (kB, kR)].
Proof. split; reflexivity. Qed.

(** C1: on the cell with exactly TL and BR at or above the threshold
    (configuration 8 + 2 = 10) the extractor adds two connections, but they
    join the top edge to the right edge and the left edge to the bottom
    edge: each connection goes round a corner that is below the threshold
    (TR, BL), not round TL and BR. *)
Theorem saddle_TL_BR_joins_top_right :
  let thr : jsnum := lit 5 in
  ((getVal saddleGrid 0 0 >=? thr)%js = true /\
   (getVal saddleGrid 1 0 >=? thr)%js = false /\
   (getVal saddleGrid 1 1 >=? thr)%js = true /\
   (getVal saddleGrid 0 1 >=? thr)%js = false) /\
  cellConfig saddleGrid thr 0 0 = 10%Z /\
  adj (buildGraph saddleGrid thr) =
    [ (kTop 0 0, [kRight 0 0]); (kRight 0 0, [kTop 0 0]);
      (kLeft 0 0, [kBottom 0 0]); (kBottom 0 0, [kLeft 0 0]) ].
Proof. vm_compute. repeat split; reflexivity. Qed.

(** The test [(config & m1) !== (config & m2)], for the configuration
    built from the four corner tests: it holds as soon as one of the two
    corners is at or above the threshold. *)
Lemma edgeActive_is_or (tl tr br bl : bool) :
  let config :=
    Z.lor (Z.lor (Z.lor (if tl then 8 else 0) (if tr then 4 else 0))
                 (if br then 2 else 0)) (if bl then 1 else 0) in
  edgeActive config 8 4 = tl || tr /\
  edgeActive config 4 2 = tr || br /\
  edgeActive config 1 2 = bl || br /\
  edgeActive config 8 1 = tl || bl.
Proof. destruct tl, tr, br, bl; repeat split; reflexivity. Qed.

(** C4: on the cell with TL and TR at or above the threshold and BL,
    BR below (configuration 12) the test for the top edge succeeds and a
    node is stored for the top edge, although both of its corners are at or
    above the threshold. *)
Theorem top_edge_active_with_both_corners_above :
  let thr : jsnum := lit 5 in
  (getVal stripeGrid 0 0 >=? thr)%js = true /\
  (getVal stripeGrid 1 0 >=? thr)%js = true /\
  cellConfig stripeGrid thr 0 0 = 12%Z /\
  edgeActive 12 8 4 = true /\
  mhas (kTop 0 0) (edgeNodes (buildGraph stripeGrid thr)) = true.
Proof. vm_compute. repeat split; reflexivity. Qed.

End ContourFacts.

(* ================================================================== *)
(** * Facts about the photometric model, over the real numbers *)

Module PhysicsFacts.
Import Physics.
Local Open Scope R_scope.

Lemma Rleb_true (a b : R) : Rleb a b = true <-> a <= b.
Proof. unfold Rleb. destruct (Rle_dec a b); split; auto; discriminate. Qed.

Lemma Rleb_false (a b : R) : Rleb a b = false <-> b < a.
Proof.
  unfold Rleb. destruct (Rle_dec a b); split; auto; try discriminate; lra.
Qed.

Lemma Rltb_true (a b : R) : Rltb a b = true <-> a < b.
Proof. unfold Rltb. destruct (Rlt_dec a b); split; auto; discriminate. Qed.

Lemma Rltb_false (a b : R) : Rltb a b = false <-> b <= a.
Proof.
  unfold Rltb. destruct (Rlt_dec a b); split; auto; try discriminate; lra.
Qed.

Lemma nmax_R (a b : R) : nmax a b = Rmax a b.
Proof.
  unfold nmax, Rmax; simpl. unfold Rleb.
  destruct (Rle_dec a b); [reflexivity|].
  destruct (Rle_dec b a); [reflexivity | lra].
Qed.

Lemma nmin_R (a b : R) : nmin a b = Rmin a b.
Proof.
  unfold nmin, Rmin; simpl. unfold Rleb.
  destruct (Rle_dec a b); [reflexivity|].
  destruct (Rle_dec b a); [reflexivity | lra].
Qed.

Lemma nmax_xreal (a b : R) : nmax (XFin a) (XFin b) = XFin (Rmax a b).
Proof.
  unfold nmax, Rmax; simpl. unfold Rleb.
  destruct (Rle_dec a b); [reflexivity|].
  destruct (Rle_dec b a); [reflexivity | lra].
Qed.

Lemma nmin_xreal (a b : R) : nmin (XFin a) (XFin b) = XFin (Rmin a b).
Proof.
  unfold nmin, Rmin; simpl. unfold Rleb.
  destruct (Rle_dec a b); [reflexivity|].
  destruct (Rle_dec b a); [reflexivity | lra].
Qed.

Lemma of_nat_R (n : nat) : of_nat n = INR n.
Proof.
  unfold of_nat; simpl. unfold Q2R; simpl.
  rewrite <- INR_IZR_INZ. lra.
Qed.

(** Numeric literals of the sources, as reals. *)
Ltac lits := unfold Q2R, ALPHA; simpl Qnum; simpl Qden; simpl IZR.

(** The near-field clamp keeps the distance away from zero. *)
Lemma d_safe_pos (d : R) : 0.05 <= Rmax (Q2R 0.05) d.
Proof.
  eapply Rle_trans; [|apply Rmax_l]. lits. lra.
Qed.

(** C6: a point whose dot product with the direction vector of the
    source is not positive receives exactly 0, whatever the distance, the
    peak intensity, the spectral factor and the beam pattern (even an empty
    one) are. *)
Theorem backface_culling_zero
  (x y z angleH angleV peakCandela spectralFactor : R)
  (beamPattern : list (BeamPoint R)) :
  sin angleH * cos angleV * x + cos angleH * cos angleV * y + sin angleV * z <= 0 ->
  calculateIlluminance x y z angleH angleV peakCandela spectralFactor beamPattern
  = Some 0.
Proof.
  intros Hdot. unfold calculateIlluminance. simpl.
  rewrite nmax_R.
  set (d := Rmax (Q2R 0.05) (sqrt (x * x + y * y + z * z))).
  assert (Hd : 0.05 <= d) by apply d_safe_pos.
  assert (Hcos :
    sin angleH * cos angleV * (x / d) + cos angleH * cos angleV * (y / d) +
    sin angleV * (z / d) <= Q2R 0.001).
  { replace (sin angleH * cos angleV * (x / d) + cos angleH * cos angleV * (y / d) +
             sin angleV * (z / d))
      with ((sin angleH * cos angleV * x + cos angleH * cos angleV * y +
             sin angleV * z) * / d) by (field; lra).
    assert (0 < / d) by (apply Rinv_0_lt_compat; lra).
    lits. nra. }
  apply Rleb_true in Hcos. rewrite Hcos.
  f_equal. lits. lra.
Qed.

(** A point one metre behind a source that looks along +Y. *)
Lemma backface_culling_zero_witness :
  sin 0 * cos 0 * 0 + cos 0 * cos 0 * (-1) + sin 0 * 0 <= 0 /\
  calculateIlluminance 0 (-1) 0 0 0 1 1 (beamPatternOf DEFAULT_BEAM_PATTERN)
  = Some 0.
Proof.
  assert (Hdot : sin 0 * cos 0 * 0 + cos 0 * cos 0 * (-1) + sin 0 * 0 <= 0)
    by (rewrite sin_0, cos_0; lra).
  split; [exact Hdot|].
  exact (@backface_culling_zero 0 (-1) 0 0 0 1 1
           (beamPatternOf DEFAULT_BEAM_PATTERN) Hdot).
Defined.

(** ** Totality and linearity in the peak intensity *)

Lemma getBeamIntensityDynamic_defined {T} `{Number T}
  (beamPattern : list (BeamPoint T)) (a : T) :
  beamPattern <> [] -> exists r, getBeamIntensityDynamic beamPattern a = Some r.
Proof.
  intros Hne. unfold getBeamIntensityDynamic.
  destruct beamPattern as [|b0 rest]; [contradiction|].
  destruct (nle _ _); [eauto|].
  destruct (nlt _ _); eauto.
Qed.

(** With a non-empty beam pattern the illuminance is defined and is the
    peak intensity times a factor that does not depend on it; the factor
    is non-negative when the spectral factor is. *)
Lemma calculateIlluminance_linear
  (x y z angleH angleV spectralFactor : R) (beamPattern : list (BeamPoint R)) :
  beamPattern <> [] ->
  exists K : R,
    (0 <= spectralFactor -> 0 <= K) /\
    forall peakCandela,
      calculateIlluminance x y z angleH angleV peakCandela spectralFactor beamPattern
      = Some (peakCandela * K).
Proof.
  intros Hne. unfold calculateIlluminance. simpl.
  rewrite nmax_R.
  set (d := Rmax (Q2R 0.05) (sqrt (x * x + y * y + z * z))).
  assert (Hd : 0.05 <= d) by apply d_safe_pos.
  assert (H0 : Q2R 0 = 0) by (lits; lra).
  destruct (Rleb _ (Q2R 0.001)).
  { exists 0. split; [lra|]. intros; f_equal. lra. }
  match goal with
  | |- context [getBeamIntensityDynamic beamPattern ?a] =>
      destruct (getBeamIntensityDynamic_defined a Hne) as [rel ->]
  end.
  destruct (Rleb rel (Q2R 0)) eqn:Erel.
  { exists 0. split; [lra|]. intros; f_equal. lra. }
  apply Rleb_false in Erel. rewrite H0 in Erel.
  exists (spectralFactor * rel * exp (- Q2R ALPHA * d) / (d * d)).
  split.
  - intros Hs. pose proof (exp_pos (- Q2R ALPHA * d)) as He.
    apply Rmult_le_pos; [|left; apply Rinv_0_lt_compat; nra].
    apply Rmult_le_pos; [|lra]. apply Rmult_le_pos; lra.
  - intros peak. f_equal. field. lra.
Qed.

(** Over the reals, and with a non-empty beam pattern, a non-negative
    peak intensity and a non-negative spectral factor, the illuminance is
    defined (no exception, no division by zero) and non-negative. *)
Lemma calculateIlluminance_defined_nonneg
  (x y z angleH angleV peakCandela spectralFactor : R)
  (beamPattern : list (BeamPoint R)) :
  beamPattern <> [] -> 0 <= peakCandela -> 0 <= spectralFactor ->
  exists e,
    calculateIlluminance x y z angleH angleV peakCandela spectralFactor beamPattern
    = Some e /\ 0 <= e.
Proof.
  intros Hne Hp Hs.
  destruct (calculateIlluminance_linear x y z angleH angleV spectralFactor Hne)
    as [K [HK Heq]].
  exists (peakCandela * K). split; [apply Heq|].
  apply Rmult_le_pos; auto.
Qed.

(** ** The degenerate pair of the beam lookup *)

Lemma last_default {A} (b : A) (l : list A) (d d' : A) :
  last (b :: l) d = last (b :: l) d'.
Proof.
  revert b. induction l as [|c l IH]; intros b; [reflexivity|].
  change (last (c :: l) d = last (c :: l) d'). apply IH.
Qed.


Section BeamLookup.
Context {T : Type} `{Number T}.

(** No pair of neighbours of [l] brackets [a]: the scan of
    [getBeamIntensityDynamic] passes over all of [l]. *)
Fixpoint passes (l : list (BeamPoint T)) (a : T) : bool :=
  match l with
  | b0 :: ((b1 :: _) as rest) =>
      negb ((a >=? angle b0)%js && (a <=? angle b1)%js) && passes rest a
  | _ => true
  end.

Lemma lerp_degenerate (x x0 x1 y0 y1 : T) :
  (nabs (x1 - x0) <? lit 1e-9)%js = true -> lerp x x0 x1 y0 y1 = y0.
Proof. intros E. unfold lerp. now rewrite E. Qed.

Lemma beamLoop_passes (pre : list (BeamPoint T)) (b0 : BeamPoint T)
  (rest : list (BeamPoint T)) (a : T) :
  passes (pre ++ [b0]) a = true ->
  beamLoop (pre ++ b0 :: rest) a = beamLoop (b0 :: rest) a.
Proof.
  induction pre as [|p pre IH]; intros Hp; [reflexivity|].
  destruct pre as [|q pre'].
  - simpl in Hp |- *. apply andb_true_iff in Hp as [Hp _].
    apply negb_true_iff in Hp. now rewrite Hp.
  - change (passes (p :: q :: pre' ++ [b0]) a = true) in Hp.
    simpl in Hp. apply andb_true_iff in Hp as [Hp Hrest].
    apply negb_true_iff in Hp.
    change (beamLoop (p :: q :: pre' ++ b0 :: rest) a = beamLoop (b0 :: rest) a).
    simpl beamLoop at 1. rewrite Hp. apply IH. exact Hrest.
Qed.

(** When the pair of neighbours at which the scan of the beam pattern
    stops has angles less than 1e-9 apart, the lookup returns the intensity
    of the first point of that pair: [lerp] does not average.  (The scan
    can stop at such a pair only when its angles differ; for equal angles
    see [DegeneratePair].) *)
Lemma near_degenerate_pair_first_intensity
  (pre : list (BeamPoint T)) (b0 b1 : BeamPoint T) (post : list (BeamPoint T))
  (angleDeg : T) :
  let beamPattern := pre ++ b0 :: b1 :: post in
  let absAngle := nabs angleDeg in
  (absAngle <=? angle (hd b0 beamPattern))%js = false ->
  (absAngle >? angle (last beamPattern b0))%js = false ->
  passes (pre ++ [b0]) absAngle = true ->
  (absAngle >=? angle b0)%js && (absAngle <=? angle b1)%js = true ->
  (nabs (angle b1 - angle b0) <? lit 1e-9)%js = true ->
  getBeamIntensityDynamic beamPattern angleDeg = Some (intensity b0).
Proof.
  intros beamPattern absAngle. subst beamPattern.
  intros Hplateau Hlast Hpass Hbr Hdeg.
  unfold getBeamIntensityDynamic. fold absAngle.
  destruct pre as [|p pre'].
  - cbn [app hd] in *.
    rewrite Hplateau, Hlast. f_equal.
    simpl beamLoop. rewrite Hbr. now apply lerp_degenerate.
  - change ((p :: pre') ++ b0 :: b1 :: post)
      with (p :: (pre' ++ b0 :: b1 :: post)) in *.
    cbn [hd] in Hplateau. cbv beta iota. rewrite Hplateau.
    rewrite (last_default p (pre' ++ b0 :: b1 :: post) p b0), Hlast. f_equal.
    change (p :: (pre' ++ b0 :: b1 :: post))
      with ((p :: pre') ++ b0 :: b1 :: post).
    rewrite beamLoop_passes by exact Hpass.
    simpl beamLoop. rewrite Hbr. now apply lerp_degenerate.
Qed.

End BeamLookup.

(** A pattern with two points 5e-10 degrees apart, queried between them. *)
Lemma near_degenerate_pair_example :
  getBeamIntensityDynamic
    (beamPatternOf [(0, 1); (10, 0.8); (10.0000000005, 0.2); (30, 0)]%Q)
    (lit 10.0000000002 : jsnum)
  = Some (lit 0.8).
Proof.
  apply (near_degenerate_pair_first_intensity
           [mkBeamPoint (lit 0) (lit 1)]
           (mkBeamPoint (lit 10) (lit 0.8))
           (mkBeamPoint (lit 10.0000000005) (lit 0.2))
           [mkBeamPoint (lit 30) (lit 0)]
           (lit 10.0000000002 : jsnum));
    vm_compute; reflexivity.
Defined.

(** ** Table lookup *)

Lemma lit_1e_9 : Q2R 1e-9 = / 1000000000.
Proof. unfold Q2R; simpl. lra. Qed.

Lemma lit_1e_6 : Q2R 1e-6 = / 1000000.
Proof. unfold Q2R; simpl. lra. Qed.

(** The knots of a table are ascending and no two neighbours are closer
    than the tolerance of [lerp]. *)
Fixpoint ascending (tbl : list (R * R)) : Prop :=
  match tbl with
  | a :: ((b :: _) as rest) => fst a + / 1000000000 <= fst b /\ ascending rest
  | _ => True
  end.

(** Following the words of the specification: [y] is obtained from [x] by
    linear interpolation between a bracketing pair of neighbours. *)
Definition interpolates (tbl : list (R * R)) (x y : R) : Prop :=
  exists pre a b post,
    tbl = pre ++ a :: b :: post /\
    fst a <= x <= fst b /\ fst a < fst b /\
    y = snd a + (x - fst a) * ((snd b - snd a) / (fst b - fst a)).

(** Following the words of the specification: values below the first or
    above the last table entry clamp to the boundary value; otherwise
    linear interpolation between the bracketing pair. *)
Definition clampedLookup (tbl : list (R * R)) (x y : R) : Prop :=
  match tbl with
  | [] => False
  | first :: _ =>
      let lst := last tbl first in
      (x <= fst first /\ y = snd first) \/
      (fst lst <= x /\ y = snd lst) \/
      (fst first < x < fst lst /\ interpolates tbl x y)
  end.

Lemma lerp_nondegenerate (x x0 x1 y0 y1 : R) :
  x0 + / 1000000000 <= x1 ->
  lerp x x0 x1 y0 y1 = y0 + (x - x0) * ((y1 - y0) / (x1 - x0)).
Proof.
  intros Hgap. unfold lerp; simpl.
  assert (E : Rltb (Rabs (x1 - x0)) (Q2R 1e-9) = false).
  { apply Rltb_false. rewrite lit_1e_9, Rabs_right; lra. }
  rewrite E. field. lra.
Qed.

Lemma lookupLoop_interpolates (tbl : list (R * R)) (first : R * R) (x : R) :
  ascending (first :: tbl) ->
  fst first <= x <= fst (last (first :: tbl) first) ->
  tbl <> [] ->
  interpolates (first :: tbl) x (lookupLoop (first :: tbl) x).
Proof.
  revert first. induction tbl as [|b rest IH]; intros a Hasc Hx Hne; [contradiction|].
  destruct Hasc as [Hgap Hasc].
  simpl lookupLoop.
  destruct (Rleb (fst a) x && Rleb x (fst b)) eqn:E.
  - apply andb_true_iff in E as [E1 E2]. apply Rleb_true in E1, E2.
    assert (0 < / 1000000000) by (apply Rinv_0_lt_compat; lra).
    exists [], a, b, rest.
    split; [reflexivity|]. split; [lra|]. split; [lra|].
    now apply lerp_nondegenerate.
  - assert (Hb : fst b < x).
    { apply andb_false_iff in E as [E|E]; apply Rleb_false in E; lra. }
    destruct rest as [|c rest'].
    { simpl in Hx. lra. }
    destruct (IH b Hasc) as (pre & u & v & post & Heq & Hr & Hlt & Hy).
    + split; [lra|]. destruct Hx as [_ Hx].
      rewrite (last_default b (c :: rest') b a). exact Hx.
    + discriminate.
    + exists (a :: pre), u, v, post. repeat split; try tauto.
      simpl. now rewrite Heq.
Qed.

Lemma getLookupValue_clamped (tbl : list (R * R)) (x : R) :
  tbl <> [] -> ascending tbl ->
  exists y, getLookupValue tbl x = Some y /\ clampedLookup tbl x y.
Proof.
  intros Hne Hasc. destruct tbl as [|first rest]; [contradiction|].
  unfold getLookupValue, clampedLookup.
  set (lst := last (first :: rest) first).
  change (nle x (fst first)) with (Rleb x (fst first)).
  change (nle (fst lst) x) with (Rleb (fst lst) x).
  destruct (Rleb x (fst first)) eqn:E1.
  { apply Rleb_true in E1. eauto. }
  destruct (Rleb (fst lst) x) eqn:E2.
  { apply Rleb_true in E2. eauto 6. }
  apply Rleb_false in E1, E2.
  eexists; split; [reflexivity|]. right; right. split; [lra|].
  apply lookupLoop_interpolates; auto.
  - fold lst. lra.
  - intros ->. subst lst. simpl in E2. lra.
Qed.

Lemma ascending_SCOTOPIC : ascending (table SCOTOPIC_DATA).
Proof.
  unfold table, SCOTOPIC_DATA; simpl map; simpl ascending.
  unfold Q2R; simpl. repeat split; lra.
Qed.

Lemma ascending_PHOTOPIC : ascending (table PHOTOPIC_DATA).
Proof.
  unfold table, PHOTOPIC_DATA; simpl map; simpl ascending.
  unfold Q2R; simpl. repeat split; lra.
Qed.

(** The correction factor is defined for every wavelength and is at
    least 1. *)
Lemma spectral_factor_ge_1 (wavelength : R) :
  exists f, getSpectralCorrectionFactor wavelength = Some f /\ 1 <= f.
Proof.
  unfold getSpectralCorrectionFactor.
  assert (H1 : Q2R 1 = 1) by (unfold Q2R; simpl; lra).
  destruct (nle (lit 700) wavelength).
  { exists 1. simpl. rewrite H1. split; [reflexivity | lra]. }
  destruct (getLookupValue_clamped wavelength (tbl := table SCOTOPIC_DATA))
    as [vs [-> _]]; [discriminate | apply ascending_SCOTOPIC |].
  destruct (getLookupValue_clamped wavelength (tbl := table PHOTOPIC_DATA))
    as [vp [-> _]]; [discriminate | apply ascending_PHOTOPIC |].
  eexists; split; [reflexivity|].
  rewrite nmax_R. simpl. rewrite H1. apply Rmax_l.
Qed.

(** C9: for every wavelength the spectral correction factor is defined
    and at least 1; from 700 nm on it is exactly 1; below 700 nm it is
    [max(1, 2.489 * scotopic / max(photopic, 1e-6))], where scotopic and
    photopic are the clamped piecewise-linear interpolants of the two CIE
    tables. *)
Theorem spectral_correction_factor (wavelength : R) :
  exists f,
    getSpectralCorrectionFactor wavelength = Some f /\
    1 <= f /\
    (700 <= wavelength -> f = 1) /\
    (wavelength < 700 ->
     exists v_scotopic v_photopic,
       clampedLookup (table SCOTOPIC_DATA) wavelength v_scotopic /\
       clampedLookup (table PHOTOPIC_DATA) wavelength v_photopic /\
       f = Rmax 1 (2.489 * (v_scotopic / Rmax v_photopic (/ 1000000)))).
Proof.
  unfold getSpectralCorrectionFactor.
  assert (H1 : Q2R 1 = 1) by (unfold Q2R; simpl; lra).
  assert (H700 : Q2R 700 = 700) by (unfold Q2R; simpl; lra).
  destruct (nle (lit 700) wavelength) eqn:E; simpl in E.
  - apply Rleb_true in E. rewrite H700 in E.
    exists 1. simpl. rewrite H1. repeat split; lra.
  - apply Rleb_false in E. rewrite H700 in E.
    destruct (getLookupValue_clamped wavelength (tbl := table SCOTOPIC_DATA))
      as [vs [-> Hs]]; [discriminate | apply ascending_SCOTOPIC |].
    destruct (getLookupValue_clamped wavelength (tbl := table PHOTOPIC_DATA))
      as [vp [-> Hp]]; [discriminate | apply ascending_PHOTOPIC |].
    eexists; split; [reflexivity|].
    rewrite !nmax_R. simpl. rewrite H1, lit_1e_6.
    split; [apply Rmax_l|]. split; [lra|].
    intros _. exists vs, vp. auto.
Qed.

(** ** Totality of the illuminance, with undefined operations visible *)

(** [DEFAULT_BEAM_PATTERN] over the reals. *)
Definition DEFAULT_PATTERN_R : list (R * R) :=
  map (fun e => (Q2R (fst e), Q2R (snd e))) DEFAULT_BEAM_PATTERN.

(** A beam pattern whose angles and intensities are numbers. *)
Definition finitePattern (pat : list (R * R)) : list (BeamPoint xreal) :=
  map (fun e => mkBeamPoint (XFin (fst e)) (XFin (snd e))) pat.

Lemma lerp_xreal (x x0 x1 y0 y1 : R) :
  lerp (XFin x) (XFin x0) (XFin x1) (XFin y0) (XFin y1) =
  if Rltb (Rabs (x1 - x0)) (Q2R 1e-9) then XFin y0
  else xlift2 Rplus (XFin y0) (xdiv (XFin ((x - x0) * (y1 - y0))) (XFin (x1 - x0))).
Proof. reflexivity. Qed.

Lemma lerp_finite (x x0 x1 y0 y1 : R) :
  exists r, lerp (XFin x) (XFin x0) (XFin x1) (XFin y0) (XFin y1) = XFin r.
Proof.
  rewrite lerp_xreal. unfold xdiv.
  destruct (Rltb (Rabs (x1 - x0)) (Q2R 1e-9)) eqn:E; [eexists; reflexivity|].
  apply Rltb_false in E. rewrite lit_1e_9 in E.
  destruct (Req_dec_T (x1 - x0) 0) as [Ez|Ez]; [|eexists; reflexivity].
  exfalso. rewrite Ez, Rabs_R0 in E.
  assert (0 < / 1000000000) by (apply Rinv_0_lt_compat; lra). lra.
Qed.

Lemma beamLoop_finite (pat : list (R * R)) (a : R) :
  exists r, beamLoop (finitePattern pat) (XFin a) = XFin r.
Proof.
  induction pat as [|b0 [|b1 rest] IH].
  - cbn. eauto.
  - cbn. eauto.
  - change (finitePattern (b0 :: b1 :: rest))
      with (mkBeamPoint (XFin (fst b0)) (XFin (snd b0)) ::
            mkBeamPoint (XFin (fst b1)) (XFin (snd b1)) :: finitePattern rest).
    cbn [beamLoop angle intensity].
    destruct (_ && _); [apply lerp_finite|].
    exact IH.
Qed.

Lemma getBeamIntensityDynamic_finite (pat : list (R * R)) (a : R) :
  pat <> [] ->
  exists r, getBeamIntensityDynamic (finitePattern pat) (XFin a) = Some (XFin r).
Proof.
  intros Hne. destruct pat as [|b0 rest]; [contradiction|].
  unfold getBeamIntensityDynamic.
  change (nabs (XFin a)) with (XFin (Rabs a)).
  change (finitePattern (b0 :: rest))
    with (mkBeamPoint (XFin (fst b0)) (XFin (snd b0)) :: finitePattern rest).
  cbv beta iota. cbn [angle intensity].
  destruct (nle _ _); [eauto|].
  destruct (nlt _ _); [cbn; eauto|].
  destruct (beamLoop_finite (b0 :: rest) (Rabs a)) as [r Hr].
  exists r. f_equal. exact Hr.
Qed.

(** With exact numbers: for all real coordinates and angles, a peak intensity
    and a spectral factor that are not negative, and a non-empty beam pattern
    of numbers, [calculateIlluminance] returns a number (no exception, no
    division by zero, no square root or arc cosine outside its domain) and
    that number is not negative.  The overflow and the underflow of a double
    are not part of this statement; [RangeFacts] has them. *)
Lemma calculateIlluminance_total_exact
  (x y z angleH angleV peakCandela spectralFactor : R) (pat : list (R * R)) :
  pat <> [] -> 0 <= peakCandela -> 0 <= spectralFactor ->
  exists e : R,
    calculateIlluminance (XFin x) (XFin y) (XFin z) (XFin angleH) (XFin angleV)
      (XFin peakCandela) (XFin spectralFactor) (finitePattern pat)
    = Some (XFin e) /\ 0 <= e.
Proof.
  intros Hne Hp Hs. unfold calculateIlluminance.
  change (msqrt (XFin x * XFin x + XFin y * XFin y + XFin z * XFin z)%js)
    with (xsqrt (XFin (x * x + y * y + z * z))).
  unfold xsqrt.
  assert (Hd2 : Rleb 0 (x * x + y * y + z * z) = true) by (apply Rleb_true; nra).
  rewrite Hd2.
  set (dist := sqrt (x * x + y * y + z * z)).
  change (lit 0.05) with (XFin (Q2R 0.05)). rewrite nmax_xreal.
  set (d := Rmax (Q2R 0.05) dist).
  assert (Hd : 0.05 <= d) by apply d_safe_pos.
  assert (Ediv : forall t, (XFin t / XFin d)%js = XFin (t / d)).
  { intros t. cbn. destruct (Req_dec_T d 0); [lra | reflexivity]. }
  rewrite !Ediv.
  change (msin (XFin angleH)) with (XFin (sin angleH)).
  change (mcos (XFin angleH)) with (XFin (cos angleH)).
  change (msin (XFin angleV)) with (XFin (sin angleV)).
  change (mcos (XFin angleV)) with (XFin (cos angleV)).
  set (c := sin angleH * cos angleV * (x / d) + cos angleH * cos angleV * (y / d) +
            sin angleV * (z / d)).
  change ((XFin (sin angleH) * XFin (cos angleV) * XFin (x / d) +
           XFin (cos angleH) * XFin (cos angleV) * XFin (y / d) +
           XFin (sin angleV) * XFin (z / d))%js) with (XFin c).
  change (nle (XFin c) (lit 0.001)) with (Rleb c (Q2R 0.001)).
  destruct (Rleb c (Q2R 0.001)) eqn:Ec.
  { exists (Q2R 0). split; [reflexivity | lra]. }
  apply Rleb_false in Ec.
  change (lit 1) with (XFin (Q2R 1)). rewrite nmin_xreal.
  assert (Hmin : -1 <= Rmin (Q2R 1) c <= 1).
  { split.
    - apply Rmin_glb; lra.
    - eapply Rle_trans; [apply Rmin_l | lra]. }
  assert (Eacos : macos (XFin (Rmin (Q2R 1) c)) = XFin (acos (Rmin (Q2R 1) c))).
  { cbn. destruct Hmin as [Hlo Hhi].
    apply Rleb_true in Hlo, Hhi. now rewrite Hlo, Hhi. }
  rewrite Eacos.
  assert (Edeg : (XFin (acos (Rmin (Q2R 1) c)) * (lit 180 / mPI))%js
                 = XFin (acos (Rmin (Q2R 1) c) * (Q2R 180 / PI))).
  { cbn. destruct (Req_dec_T PI 0) as [E|E]; [|reflexivity].
    exfalso. exact (PI_neq0 E). }
  rewrite Edeg.
  destruct (getBeamIntensityDynamic_finite (acos (Rmin (Q2R 1) c) * (Q2R 180 / PI)) Hne)
    as [rel ->].
  change (nle (XFin rel) (lit 0)) with (Rleb rel (Q2R 0)).
  destruct (Rleb rel (Q2R 0)) eqn:Erel.
  { exists (Q2R 0). split; [reflexivity | lra]. }
  apply Rleb_false in Erel.
  exists (peakCandela * spectralFactor * rel * exp (- Q2R ALPHA * d) / (d * d)).
  split.
  - f_equal. cbn. destruct (Req_dec_T (d * d) 0) as [E|E]; [|reflexivity].
    exfalso. nra.
  - pose proof (exp_pos (- Q2R ALPHA * d)) as He.
    apply Rmult_le_pos; [|left; apply Rinv_0_lt_compat; nra].
    apply Rmult_le_pos; [|lra].
    apply Rmult_le_pos; [|lra]. apply Rmult_le_pos; lra.
Qed.

(** A point 100 m ahead of a 1 cd source with the default pattern. *)
Lemma calculateIlluminance_total_exact_example :
  DEFAULT_PATTERN_R <> [] /\ 0 <= 1 /\ 0 <= 1 /\
  exists e : R,
    calculateIlluminance (XFin 0) (XFin 100) (XFin 0) (XFin 0) (XFin 0)
      (XFin 1) (XFin 1) (finitePattern DEFAULT_PATTERN_R)
    = Some (XFin e) /\ 0 <= e.
Proof.
  assert (Hne : DEFAULT_PATTERN_R <> []) by discriminate.
  assert (H0 : 0 <= 1) by lra.
  split; [exact Hne|]. split; [exact H0|]. split; [exact H0|].
  exact (@calculateIlluminance_total_exact 0 100 0 0 0 1 1 DEFAULT_PATTERN_R Hne H0 H0).
Defined.

End PhysicsFacts.

(* ================================================================== *)
(** * Facts about the optimizer's coverage score *)

Module OptimizerFacts.
Import Physics Optimizer PhysicsFacts.

(** ** The sample lattice *)

Section Lattice.
Context {T : Type} `{Number T} `{MathLib T}.

Lemma samples_length (targetW targetH targetR : T) :
  length (samples targetW targetH targetR) = 200%nat.
Proof. reflexivity. Qed.

(** The lattice point with indices [i], [k], [j]. *)
Definition latticePoint (targetW targetH targetR : T) (i k j : nat) : Point3D T :=
  mkPoint3D ((of_nat i / of_nat 4) * (targetW / lit 2))%js
            ((of_nat j / of_nat 8) * targetR)%js
            ((of_nat k / of_nat 4) * (targetH / lit 2))%js.

Lemma samples_In (targetW targetH targetR : T) (p : Point3D T) :
  In p (samples targetW targetH targetR) <->
  exists i k j, i <= 4 /\ k <= 4 /\ 1 <= j <= 8 /\
                p = latticePoint targetW targetH targetR i k j.
Proof.
  unfold samples, latticePoint, stepX, stepY, stepZ. rewrite in_flat_map. split.
  - intros [i [Hi Hp]]. apply in_flat_map in Hp as [k [Hk Hp]].
    apply in_map_iff in Hp as [j [<- Hj]].
    apply in_seq in Hi, Hk, Hj. exists i, k, j. repeat split; lia.
  - intros (i & k & j & Hi & Hk & Hj & ->).
    exists i. split; [apply in_seq; lia|].
    apply in_flat_map. exists k. split; [apply in_seq; lia|].
    apply in_map_iff. exists j. split; [reflexivity | apply in_seq; lia].
Qed.

(** The fold of [countHits] counts the points whose total reaches the
    threshold. *)
Lemma countHits_counts (cfg : list (LedConfig T)) (pts : list (Point3D T))
  (sourceIntensity spectralCorrection threshold : T)
  (beamPattern : list (BeamPoint T)) (total : Point3D T -> T) :
  (forall p, In p pts ->
     totalAt cfg p sourceIntensity spectralCorrection beamPattern = Some (total p)) ->
  countHits cfg pts sourceIntensity spectralCorrection threshold beamPattern
  = Some (length (filter (fun p => (total p >=? threshold)%js) pts)).
Proof.
  unfold countHits. intros Htot.
  change (Some (length (filter (fun p => (total p >=? threshold)%js) pts)))
    with (Some (0 + length (filter (fun p => (total p >=? threshold)%js) pts))).
  generalize 0 as n. induction pts as [|p pts IH]; intros n; simpl.
  - f_equal; lia.
  - rewrite (Htot p) by now left.
    destruct (nle threshold (total p)); simpl.
    + rewrite IH by (intros q Hq; apply Htot; now right). f_equal; lia.
    + apply IH. intros q Hq; apply Htot; now right.
Qed.

End Lattice.

(** C2 as the specification words it: 225 lattice points, among them
    points at [y = 0]. *)
Definition lattice_225_claim (targetW targetH targetR : jsnum) : Prop :=
  length (samples targetW targetH targetR) = 225%nat /\
  exists p, In p (samples targetW targetH targetR) /\ p3y p = lit 0.

(** For the default target box (1000 x 600 x 2000) the lattice has 200
    points and the smallest [y] is 250. *)
Lemma lattice_not_225 :
  ~ lattice_225_claim (lit 1000) (lit 600) (lit 2000) /\
  length (samples (lit 1000 : jsnum) (lit 600) (lit 2000)) = 200%nat /\
  forallb (fun p => (p3y p >=? lit 250)%js)
          (samples (lit 1000 : jsnum) (lit 600) (lit 2000)) = true.
Proof.
  split; [|split; vm_compute; reflexivity].
  intros [Hlen _]. vm_compute in Hlen. discriminate Hlen.
Qed.

Local Open Scope R_scope.

Lemma latticePoint_R (targetW targetH targetR : R) (i k j : nat) :
  latticePoint targetW targetH targetR i k j =
  mkPoint3D (INR i / 4 * (targetW / 2)) (INR j / 8 * targetR)
            (INR k / 4 * (targetH / 2)).
Proof.
  unfold latticePoint. rewrite !of_nat_R. simpl. f_equal; lra.
Qed.

(** C2, as the code has it: the lattice has 5 x 5 x 8 = 200 points,
    [x = (i/4) (W/2)] and [z = (k/4) (H/2)] for [i, k = 0..4] (so [x = 0]
    and [z = 0] are sampled) and [y = (j/8) R] for [j = 1..8] (so [y = 0]
    is not, unless the range is 0); the coverage is the number of lattice
    points whose summed illuminance reaches the threshold, divided by 200,
    times 100. *)
Theorem sample_lattice (targetW targetH targetR : R) :
  let pts := samples targetW targetH targetR in
  length pts = 200%nat /\
  (forall p, In p pts <->
     exists i k j, (i <= 4)%nat /\ (k <= 4)%nat /\ (1 <= j <= 8)%nat /\
       p = mkPoint3D (INR i / 4 * (targetW / 2)) (INR j / 8 * targetR)
                     (INR k / 4 * (targetH / 2))) /\
  (forall j, (1 <= j <= 8)%nat -> In (mkPoint3D 0 (INR j / 8 * targetR) 0) pts) /\
  (targetR <> 0 -> forall p, In p pts -> p3y p <> 0) /\
  (forall ledCount rowCount sourceIntensity spectralCorrection threshold
          beamPattern h v (total : Point3D R -> R),
     (forall p, In p pts ->
        totalAt (generateLedConfig ledCount h rowCount v) p sourceIntensity
                spectralCorrection beamPattern = Some (total p)) ->
     coverage ledCount rowCount sourceIntensity spectralCorrection threshold
              beamPattern targetW targetH targetR h v
     = Some (INR (length (filter (fun p => Rleb threshold (total p)) pts))
             / 200 * 100)).
Proof.
  intros pts.
  assert (Hin : forall p, In p pts <->
     exists i k j, (i <= 4)%nat /\ (k <= 4)%nat /\ (1 <= j <= 8)%nat /\
       p = mkPoint3D (INR i / 4 * (targetW / 2)) (INR j / 8 * targetR)
                     (INR k / 4 * (targetH / 2))).
  { intros p. unfold pts. rewrite samples_In. split.
    - intros (i & k & j & Hi & Hk & Hj & ->). exists i, k, j.
      rewrite latticePoint_R. auto.
    - intros (i & k & j & Hi & Hk & Hj & ->). exists i, k, j.
      rewrite latticePoint_R. auto. }
  split; [reflexivity|]. split; [exact Hin|]. split; [|split].
  - intros j Hj. apply Hin. exists 0%nat, 0%nat, j.
    repeat split; try lia. simpl. f_equal; lra.
  - intros HR p Hp. apply Hin in Hp as (i & k & j & Hi & Hk & Hj & ->). simpl.
    assert (1 <= INR j).
    { change 1 with (INR 1). apply le_INR. lia. }
    intros E. apply Rmult_integral in E as [E|E]; lra.
  - intros ledCount rowCount sourceIntensity spectralCorrection threshold
           beamPattern h v total Htot.
    unfold coverage. fold pts.
    rewrite (countHits_counts _ pts _ _ threshold _ total Htot).
    rewrite !of_nat_R. simpl nle. apply f_equal.
    assert (Hlen : INR (length pts) = 200).
    { unfold pts. rewrite samples_length, INR_IZR_INZ. simpl Z.of_nat. lra. }
    rewrite Hlen. change (lit 100) with (Q2R 100).
    change nmul with Rmult. change ndiv with Rdiv. lra.
Qed.

(** ** Monotonicity in the peak intensity *)

(** The summed field of a configuration is linear in the source
    intensity, with a non-negative factor. *)
Lemma totalAt_linear (cfg : list (LedConfig R)) (p : Point3D R)
  (spectralCorrection : R) (beamPattern : list (BeamPoint R)) :
  beamPattern <> [] -> 0 <= spectralCorrection ->
  exists K : R, 0 <= K /\
    forall sourceIntensity,
      totalAt cfg p sourceIntensity spectralCorrection beamPattern
      = Some (sourceIntensity * K).
Proof.
  intros Hne Hs. unfold totalAt.
  assert (Hgen : forall K0, 0 <= K0 ->
    exists K, 0 <= K /\ forall I,
      fold_left
        (fun total c =>
           match total with
           | None => None
           | Some t =>
               match calculateIlluminance (p3x p) (p3y p) (p3z p) (led_h c) (led_v c)
                       I spectralCorrection beamPattern with
               | None => None
               | Some e => Some (t + e)%js
               end
           end) cfg (Some (I * K0)) = Some (I * K)).
  { induction cfg as [|c cfg IH]; intros K0 HK0; simpl.
    - exists K0. auto.
    - destruct (calculateIlluminance_linear (p3x p) (p3y p) (p3z p) (led_h c)
                  (led_v c) spectralCorrection Hne) as [Kc [HKc Hc]].
      destruct (IH (K0 + Kc)) as [K [HK Hfold]]; [specialize (HKc Hs); lra|].
      exists K. split; [exact HK|]. intros I. rewrite Hc.
      replace (I * K0 + I * Kc) with (I * (K0 + Kc)) by ring. apply Hfold. }
  destruct (Hgen 0) as [K [HK Hfold]]; [lra|].
  exists K. split; [exact HK|]. intros I.
  rewrite <- Hfold. f_equal. f_equal. simpl. lra.
Qed.

Lemma countHits_mono (cfg : list (LedConfig R)) (pts : list (Point3D R))
  (I I' spectralCorrection threshold : R) (beamPattern : list (BeamPoint R)) :
  beamPattern <> [] -> 0 <= spectralCorrection -> I <= I' ->
  exists n n',
    countHits cfg pts I spectralCorrection threshold beamPattern = Some n /\
    countHits cfg pts I' spectralCorrection threshold beamPattern = Some n' /\
    (n <= n')%nat.
Proof.
  intros Hne Hs HI. unfold countHits.
  assert (Hgen : forall a a', (a <= a')%nat ->
    exists n n',
      fold_left
        (fun hits p =>
           match hits with
           | None => None
           | Some n =>
               match totalAt cfg p I spectralCorrection beamPattern with
               | None => None
               | Some total => Some (if (total >=? threshold)%js then S n else n)
               end
           end) pts (Some a) = Some n /\
      fold_left
        (fun hits p =>
           match hits with
           | None => None
           | Some n =>
               match totalAt cfg p I' spectralCorrection beamPattern with
               | None => None
               | Some total => Some (if (total >=? threshold)%js then S n else n)
               end
           end) pts (Some a') = Some n' /\
      (n <= n')%nat).
  { induction pts as [|p pts IH]; intros a a' Ha; simpl.
    - exists a, a'. auto.
    - destruct (totalAt_linear cfg p Hne Hs) as [K [HK Htot]].
      rewrite !Htot. apply IH.
      change (nle threshold (I * K)) with (Rleb threshold (I * K)).
      change (nle threshold (I' * K)) with (Rleb threshold (I' * K)).
      destruct (Rleb threshold (I * K)) eqn:E.
      + apply Rleb_true in E.
        assert (E' : Rleb threshold (I' * K) = true) by (apply Rleb_true; nra).
        rewrite E'. lia.
      + destruct (Rleb threshold (I' * K)); lia. }
  apply Hgen. lia.
Qed.

(** [params] with another peak intensity. *)
Definition withPeak (params : SimulationParams R) (peak : R) : SimulationParams R :=
  mkParams (ledCount params) (rowCount params) peak (wavelength params)
           (logThreshold params) (isFlashing params) (beamPattern params).

Lemma sourceIntensity_mono (params : SimulationParams R) (peak' : R) :
  peakCandela params <= peak' ->
  sourceIntensity params <= sourceIntensity (withPeak params peak').
Proof.
  intros Hp. unfold sourceIntensity, isInfrared, withPeak; simpl.
  destruct (Rleb (Q2R 800) (wavelength params)); [|exact Hp].
  unfold Rdiv. apply Rmult_le_compat_r; [|exact Hp]. lra.
Qed.

(** With exact numbers: for a fixed candidate [(h, v)], target box,
    configuration, beam pattern, wavelength (hence spectral factor) and
    threshold, the coverage computed by the optimizer does not decrease when
    the peak intensity is raised.  The overflow and the underflow of a double
    are not part of this statement; [RangeFacts] has them. *)
Lemma coverage_monotone_exact
  (params : SimulationParams R) (optTargets : OptTargets R) (h v peak' : R) :
  beamPattern params <> [] ->
  0 <= peakCandela params <= peak' ->
  exists c c',
    candidateCoverage params optTargets h v = Some c /\
    candidateCoverage (withPeak params peak') optTargets h v = Some c' /\
    c <= c'.
Proof.
  intros Hne [Hp0 Hp]. unfold candidateCoverage.
  change (wavelength (withPeak params peak')) with (wavelength params).
  destruct (spectral_factor_ge_1 (wavelength params)) as [s [-> Hs]].
  unfold coverage.
  change (ledCount (withPeak params peak')) with (ledCount params).
  change (rowCount (withPeak params peak')) with (rowCount params).
  change (beamPattern (withPeak params peak')) with (beamPattern params).
  change (effectiveThreshold (withPeak params peak'))
    with (effectiveThreshold params).
  set (pts := samples _ _ _).
  set (cfg := generateLedConfig _ _ _ _).
  destruct (countHits_mono cfg pts (effectiveThreshold params)
              (I := sourceIntensity params)
              (I' := sourceIntensity (withPeak params peak'))
              (spectralCorrection := s) Hne)
    as (n & n' & -> & -> & Hn); [lra | now apply sourceIntensity_mono |].
  do 2 eexists. split; [reflexivity|]. split; [reflexivity|].
  rewrite !of_nat_R.
  change nmul with Rmult. change ndiv with Rdiv. change (lit 100) with (Q2R 100).
  assert (Hlen : INR (length pts) = 200).
  { unfold pts. rewrite samples_length, INR_IZR_INZ. simpl Z.of_nat. lra. }
  rewrite Hlen. apply le_INR in Hn. lra.
Qed.

(** Three sources, green light, peak intensity raised from 1 cd to 2 cd. *)
Definition exampleParams : SimulationParams R :=
  mkParams 3 1 1 525 (-6) false (beamPatternOf DEFAULT_BEAM_PATTERN).

Lemma coverage_monotone_exact_example :
  beamPattern exampleParams <> [] /\
  0 <= peakCandela exampleParams <= 2 /\
  exists c c',
    candidateCoverage exampleParams (mkTargets 1000 600 2000) 20 10 = Some c /\
    candidateCoverage (withPeak exampleParams 2) (mkTargets 1000 600 2000) 20 10
    = Some c' /\
    c <= c'.
Proof.
  assert (Hne : beamPattern exampleParams <> []) by (simpl; discriminate).
  assert (Hp : 0 <= peakCandela exampleParams <= 2) by (simpl; lra).
  split; [exact Hne|]. split; [exact Hp|].
  exact (coverage_monotone_exact exampleParams (mkTargets 1000 600 2000)
           20 10 Hne Hp).
Defined.

End OptimizerFacts.

(* ================================================================== *)
(** * More about the contour extractor *)

Module ContourExtra.
Import Contour ContourFacts.

Section Cells.
Context {T : Type} `{Number T}.
Variable grid : GridData T.
Variable threshold : T.

(** The corner test of the source: [getVal(gx, gy) >= threshold]. *)
Definition above (gx gy : nat) : bool :=
  (getVal grid gx gy >=? threshold)%js.

Lemma cellConfig_above (gx gy : nat) :
  cellConfig grid threshold gx gy =
  Z.lor (Z.lor (Z.lor (if above gx gy then 8 else 0)
                      (if above (gx + 1) gy then 4 else 0))
               (if above (gx + 1) (gy + 1) then 2 else 0))
        (if above gx (gy + 1) then 1 else 0).
Proof.
  unfold cellConfig, above.
  destruct (nle threshold (getVal grid gx gy)),
           (nle threshold (getVal grid (gx + 1) gy)),
           (nle threshold (getVal grid (gx + 1) (gy + 1))),
           (nle threshold (getVal grid gx (gy + 1))); reflexivity.
Qed.

Lemma fold_cellStep_id (l : list (nat * nat)) (st : Graph T) :
  (forall c, In c l -> cellStep grid threshold st (fst c) (snd c) = st) ->
  fold_left (fun st c => cellStep grid threshold st (fst c) (snd c)) l st = st.
Proof.
  induction l as [|c l IH]; intros Hid; [reflexivity|].
  simpl. rewrite (Hid c) by now left.
  apply IH. intros c' Hc'. apply Hid. now right.
Qed.

(** X1: when every sample of the grid falls on the same side of the
    threshold (all pass the test [>=], or none does), no cell is processed
    and [marchSquares] returns no polyline. *)
Theorem uniform_grid_no_polyline (side : bool) :
  (forall gx gy, gx < width grid -> gy < height grid -> above gx gy = side) ->
  marchSquares grid threshold = Some [].
Proof.
  intros Hside.
  assert (Hg : buildGraph grid threshold = mkGraph [] []).
  { rewrite buildGraph_cells. apply fold_cellStep_id.
    intros [gx gy] Hc. apply In_cells in Hc as [Hx Hy]. simpl in Hx, Hy |- *.
    unfold cellStep. rewrite cellConfig_above.
    rewrite !Hside by lia. destruct side; reflexivity. }
  unfold marchSquares. rewrite Hg. reflexivity.
Qed.

(** X2: a grid with fewer than two columns or fewer than two rows has no
    cell, and [marchSquares] returns no polyline. *)
Theorem degenerate_grid_no_polyline :
  width grid < 2 \/ height grid < 2 ->
  marchSquares grid threshold = Some [].
Proof.
  intros Hdim.
  assert (Hg : buildGraph grid threshold = mkGraph [] []).
  { rewrite buildGraph_cells.
    assert (Hc : cells (width grid - 1) (height grid - 1) = []).
    { destruct Hdim as [Hw|Hh].
      - replace (width grid - 1) with 0 by lia. unfold cells. simpl.
        induction (seq 0 (height grid - 1)); [reflexivity | assumption].
      - replace (height grid - 1) with 0 by lia. reflexivity. }
    now rewrite Hc. }
  unfold marchSquares. rewrite Hg. reflexivity.
Qed.

(** ** The stored points and the connected edges *)

(** The crossing point that the source computes for the edge [k]: on a
    horizontal edge the abscissa is interpolated between the two ends, on a
    vertical edge the ordinate. *)
Definition edgePoint (k : EdgeKey) : Point T :=
  match k with
  | (H, x, y) =>
      mkPoint (interpolate (getVal grid x y) (getVal grid (x + 1) y)
                 (getX grid x) (getX grid (x + 1)) threshold)
              (getY grid y)
  | (V, x, y) =>
      mkPoint (getX grid x)
              (interpolate (getVal grid x y) (getVal grid x (y + 1))
                 (getY grid y) (getY grid (y + 1)) threshold)
  end.

Lemma In_addNode (k k' : EdgeKey) (p p' : Point T) (nodes : list (EdgeKey * Point T)) :
  In (k', p') (addNode k p nodes) -> In (k', p') nodes \/ (k', p') = (k, p).
Proof.
  unfold addNode. destruct (mhas k nodes); [auto|].
  rewrite in_app_iff. simpl. intuition.
Qed.

Definition nodesAreEdgePoints (st : Graph T) : Prop :=
  forall k p, In (k, p) (edgeNodes st) -> p = edgePoint k.

Lemma cellStep_nodesAreEdgePoints (st : Graph T) (gx gy : nat) :
  nodesAreEdgePoints st -> nodesAreEdgePoints (cellStep grid threshold st gx gy).
Proof.
  intros Hinv k p. unfold cellStep.
  destruct ((_ =? 0)%Z || (_ =? 15)%Z); [apply Hinv|].
  cbn [edgeNodes].
  repeat match goal with
         | |- context [if edgeActive ?c ?a ?b then _ else _] =>
             destruct (edgeActive c a b)
         end;
    intros Hin;
    repeat match goal with
           | Hx : In _ (addNode _ _ _) |- _ =>
               apply In_addNode in Hx; destruct Hx as [Hx|Hx];
               [|inversion Hx; reflexivity]
           end;
    now apply Hinv.
Qed.

Lemma buildGraph_nodesAreEdgePoints :
  nodesAreEdgePoints (buildGraph grid threshold).
Proof.
  rewrite buildGraph_cells.
  generalize (cells (width grid - 1) (height grid - 1)).
  assert (Hinit : nodesAreEdgePoints (mkGraph (T:=T) [] [])) by (intros k p []).
  revert Hinit. generalize (mkGraph (T:=T) [] []).
  intros st Hst l. revert st Hst.
  induction l as [|c l IH]; intros st Hst; [exact Hst|].
  simpl. apply IH. now apply cellStep_nodesAreEdgePoints.
Qed.

(** X3: every point stored in [edgeNodes] is the crossing point of the
    edge it is stored under, whichever of the two cells that share the edge
    stored it first. *)
Theorem stored_point_is_edge_point (k : EdgeKey) (p : Point T) :
  In (k, p) (edgeNodes (buildGraph grid threshold)) -> p = edgePoint k.
Proof. apply buildGraph_nodesAreEdgePoints. Qed.

(** The two grid samples at the ends of an edge. *)
Definition edgeEnds (k : EdgeKey) : (nat * nat) * (nat * nat) :=
  match k with
  | (H, x, y) => ((x, y), (x + 1, y))
  | (V, x, y) => ((x, y), (x, y + 1))
  end.

(** Exactly one end of the edge passes the test [>= threshold]. *)
Definition crosses (k : EdgeKey) : bool :=
  let '(a, b) := edgeEnds k in
  xorb (above (fst a) (snd a)) (above (fst b) (snd b)).

Lemma cellConns_cross (c : nat * nat) (e : EdgeKey * EdgeKey) :
  In e (cellConns grid threshold c) ->
  crosses (fst e) = true /\ crosses (snd e) = true.
Proof.
  destruct c as [gx gy]. unfold cellConns. cbn [fst snd].
  rewrite cellConfig_above.
  unfold crosses, kTop, kRight, kBottom, kLeft, getEdgeKey.
  destruct (above gx gy) eqn:Etl, (above (gx + 1) gy) eqn:Etr,
           (above (gx + 1) (gy + 1)) eqn:Ebr, (above gx (gy + 1)) eqn:Ebl;
    simpl; intros Hin; repeat (destruct Hin as [<-|Hin]); try contradiction;
    simpl; rewrite ?Etl, ?Etr, ?Ebr, ?Ebl; split; reflexivity.
Qed.

(** X4: every edge that takes part in a connection is a true crossing:
    exactly one of its two ends passes the test [>= threshold], and a point
    is stored for it. *)
Theorem connected_edge_crosses (k : EdgeKey) :
  In k (mkeys (adj (buildGraph grid threshold))) ->
  crosses k = true /\
  mget k (edgeNodes (buildGraph grid threshold)) = Some (edgePoint k).
Proof.
  intros Hk. split.
  - rewrite adj_buildGraph in Hk. apply mkeys_addConnections in Hk as [[]|[e [He Hke]]].
    unfold allConns in He. apply in_flat_map in He as [c [_ He]].
    destruct (cellConns_cross c e He) as [H1 H2].
    destruct Hke as [->| ->]; assumption.
  - destruct (buildGraph_nodes grid threshold k Hk) as [p Hp].
    rewrite Hp. f_equal.
    apply buildGraph_nodesAreEdgePoints. now apply mget_Some_In.
Qed.

(** X5: the graph is undirected: when [m] is in the array stored under
    [k], the key [m] is present and [k] is in the array stored under it,
    as many times. *)
Theorem adjacency_symmetric (k m : EdgeKey) (n : list EdgeKey) :
  In (k, n) (adj (buildGraph grid threshold)) -> In m n ->
  exists n',
    In (m, n') (adj (buildGraph grid threshold)) /\ In k n' /\
    count_occ key_eq_dec n' k = count_occ key_eq_dec n m.
Proof.
  intros Hkn Hm.
  pose proof (NoDup_keys_buildGraph grid threshold) as Hnd.
  assert (Hn : nbrs (adj (buildGraph grid threshold)) k = n).
  { unfold nbrs. now rewrite (@In_mget _ k n _ Hnd Hkn). }
  pose proof (buildGraph_sym grid threshold k m) as Hsym. rewrite Hn in Hsym.
  assert (Hpos : count_occ key_eq_dec n m > 0) by now apply count_occ_In.
  unfold nbrs in Hsym.
  destruct (mget m (adj (buildGraph grid threshold))) as [n'|] eqn:E.
  - exists n'. split; [now apply mget_Some_In|]. split.
    + apply (count_occ_In key_eq_dec). lia.
    + now symmetry.
  - simpl in Hsym. lia.
Qed.

End Cells.

(** A 2 x 2 grid of zeros, thresholded at 5. *)
Definition zeroGrid : GridData jsnum :=
  mkGrid (map lit [0; 0; 0; 0]%Q) 2 2 (lit 0) (lit 1) (lit 0) (lit 1).

Lemma uniform_grid_no_polyline_witness :
  (forall gx gy, gx < width zeroGrid -> gy < height zeroGrid ->
     above zeroGrid (lit 5) gx gy = false) /\
  marchSquares zeroGrid (lit 5) = Some [].
Proof.
  assert (Hside : forall gx gy, gx < width zeroGrid -> gy < height zeroGrid ->
                    above zeroGrid (lit 5) gx gy = false).
  { intros gx gy Hx Hy. simpl in Hx, Hy.
    destruct gx as [|[|gx]], gy as [|[|gy]]; try lia; reflexivity. }
  split; [exact Hside|].
  exact (@uniform_grid_no_polyline jsnum _ zeroGrid (lit 5) false Hside).
Defined.

(** One row of three samples. *)
Definition rowGrid : GridData jsnum :=
  mkGrid (map lit [0; 10; 0]%Q) 3 1 (lit 0) (lit 2) (lit 0) (lit 0).

Lemma degenerate_grid_no_polyline_witness :
  (width rowGrid < 2 \/ height rowGrid < 2) /\
  marchSquares rowGrid (lit 5) = Some [].
Proof.
  assert (Hdim : width rowGrid < 2 \/ height rowGrid < 2) by (right; simpl; lia).
  split; [exact Hdim|].
  exact (@degenerate_grid_no_polyline jsnum _ rowGrid (lit 5) Hdim).
Defined.

Lemma stored_point_is_edge_point_witness :
  In (kTop 0 0, mkPoint (lit 0.5) (lit 0)) (edgeNodes (buildGraph saddleGrid (lit 5))) /\
  mkPoint (lit 0.5) (lit 0) = edgePoint saddleGrid (lit 5) (kTop 0 0).
Proof.
  assert (Hin : In (kTop 0 0, mkPoint (lit 0.5) (lit 0))
                   (edgeNodes (buildGraph saddleGrid (lit 5))))
    by (vm_compute; auto).
  split; [exact Hin|].
  exact (@stored_point_is_edge_point jsnum _ saddleGrid (lit 5) (kTop 0 0)
           (mkPoint (lit 0.5) (lit 0)) Hin).
Defined.

Lemma connected_edge_crosses_witness :
  In (kLeft 0 0) (mkeys (adj (buildGraph stripeGrid (lit 5)))) /\
  crosses stripeGrid (lit 5) (kLeft 0 0) = true /\
  mget (kLeft 0 0) (edgeNodes (buildGraph stripeGrid (lit 5)))
  = Some (edgePoint stripeGrid (lit 5) (kLeft 0 0)).
Proof.
  assert (Hin : In (kLeft 0 0) (mkeys (adj (buildGraph stripeGrid (lit 5)))))
    by (vm_compute; auto).
  split; [exact Hin|].
  exact (@connected_edge_crosses jsnum _ stripeGrid (lit 5) (kLeft 0 0) Hin).
Defined.

Lemma adjacency_symmetric_witness :
  In (kTop 0 0, [kRight 0 0]) (adj (buildGraph saddleGrid (lit 5))) /\
  In (kRight 0 0) [kRight 0 0] /\
  exists n',
    In (kRight 0 0, n') (adj (buildGraph saddleGrid (lit 5))) /\ In (kTop 0 0) n' /\
    count_occ key_eq_dec n' (kTop 0 0) = count_occ key_eq_dec [kRight 0 0] (kRight 0 0).
Proof.
  assert (Hin : In (kTop 0 0, [kRight 0 0]) (adj (buildGraph saddleGrid (lit 5))))
    by (vm_compute; auto).
  assert (Hm : In (kRight 0 0) [kRight 0 0]) by (now left).
  split; [exact Hin|]. split; [exact Hm|].
  exact (@adjacency_symmetric jsnum _ saddleGrid (lit 5) (kTop 0 0) (kRight 0 0)
           [kRight 0 0] Hin Hm).
Defined.

(** ** The traversal reaches every connected edge *)

Section Coverage.
Context {T : Type} `{Number T}.
Variable nodes : list (EdgeKey * Point T).
Variable adjm : list (EdgeKey * list EdgeKey).

(** What one run of the [while] loop adds to [visited] and to [path]:
    nothing is removed, the start is visited at the end, and the point of
    every newly visited key has been pushed. *)
Lemma traceLoop_visits (fuel : nat) :
  forall vis curr path F P,
    traceLoop fuel nodes adjm vis curr path = Some (F, P) ->
    incl vis F /\
    (forall c, curr = Some c -> In c F) /\
    (forall k, In k F ->
       In k vis \/ exists p, mget k nodes = Some p /\ In p P) /\
    incl path P.
Proof.
  induction fuel as [|fuel IH]; intros vis curr path F P Htr.
  - destruct curr as [c|]; simpl in Htr.
    + destruct (shas c vis) eqn:E; [|discriminate].
      inversion Htr; subst. apply shas_In in E.
      repeat split; auto using incl_refl. intros c' [= <-]. exact E.
    + inversion Htr; subst. repeat split; auto using incl_refl. intros c [=].
  - destruct curr as [c|].
    + rewrite traceLoop_step in Htr. destruct (shas c vis) eqn:E.
      * inversion Htr; subst. apply shas_In in E.
        repeat split; auto using incl_refl. intros c' [= <-]. exact E.
      * destruct (mget c nodes) as [p|] eqn:Ep; [|discriminate].
        apply IH in Htr as (Hv & _ & Hk & Hp).
        repeat split.
        -- intros x Hx. apply Hv. now right.
        -- intros c' [= <-]. apply Hv. now left.
        -- intros k Hk'. destruct (Hk k Hk') as [[<-|Hin]|Hex]; auto.
           right. exists p. split; [exact Ep|].
           apply Hp. apply in_or_app. right. now left.
        -- intros x Hx. apply Hp. apply in_or_app. now left.
    + rewrite traceLoop_None in Htr. inversion Htr; subst.
      repeat split; auto using incl_refl. intros c [=].
Qed.

(** Every visited key has its point in one of the paths. *)
Definition covered (V : list EdgeKey) (paths : list (list (Point T))) : Prop :=
  forall k, In k V ->
    exists p path, mget k nodes = Some p /\ In path paths /\ In p path.

Lemma trace_covers (f : list (Point T) -> list (Point T))
  (V V1 : list EdgeKey) (paths : list (list (Point T))) (k : EdgeKey)
  (path : list (Point T)) :
  (forall p, In p path -> In p (f path)) ->
  trace nodes adjm V k = Some (V1, path) ->
  covered V paths ->
  covered V1 (paths ++ [f path]) /\ incl V V1 /\ In k V1.
Proof.
  intros Hf Htr Hcov. apply traceLoop_visits in Htr as (Hv & Hc & Hk & _).
  repeat split; [|exact Hv|now apply Hc].
  intros k0 Hk0. destruct (Hk k0 Hk0) as [Hin|[p [Hp Hin]]].
  - destruct (Hcov k0 Hin) as (p & pa & Hp & Hpa & Hin').
    exists p, pa. repeat split; auto. apply in_or_app. now left.
  - exists p, (f path). repeat split; auto.
    apply in_or_app. right. now left.
Qed.

Lemma In_closeLoop (p : Point T) (path : list (Point T)) :
  In p path -> In p (closeLoop path).
Proof.
  unfold closeLoop. destruct (Nat.ltb 2 (length path)); [|auto].
  destruct path; [auto|]. intros Hin. apply in_or_app. now left.
Qed.

Definition coveringStep
  (step : option (list EdgeKey * list (list (Point T))) -> EdgeKey ->
          option (list EdgeKey * list (list (Point T)))) : Prop :=
  (forall k, step None k = None) /\
  forall V paths k V' paths',
    step (Some (V, paths)) k = Some (V', paths') ->
    covered V paths -> covered V' paths' /\ incl V V' /\ In k V'.

Lemma traceOpen_covering : coveringStep (traceOpen nodes adjm).
Proof.
  split; [reflexivity|]. intros V paths k V' paths' Hst Hcov.
  unfold traceOpen in Hst. destruct (shas k V) eqn:E.
  - inversion Hst; subst. apply shas_In in E. auto using incl_refl.
  - destruct (trace nodes adjm V k) as [[V1 path]|] eqn:Et; [|discriminate].
    inversion Hst; subst.
    exact (@trace_covers (fun x => x) V V' paths k path (fun p Hp => Hp) Et Hcov).
Qed.

Lemma traceClosed_covering : coveringStep (traceClosed nodes adjm).
Proof.
  split; [reflexivity|]. intros V paths k V' paths' Hst Hcov.
  unfold traceClosed in Hst. destruct (shas k V) eqn:E.
  - inversion Hst; subst. apply shas_In in E. auto using incl_refl.
  - destruct (trace nodes adjm V k) as [[V1 path]|] eqn:Et; [|discriminate].
    inversion Hst; subst.
    exact (@trace_covers (@closeLoop T) V V' paths k path
             (fun p Hp => In_closeLoop p path Hp) Et Hcov).
Qed.

Lemma fold_covering step (l : list EdgeKey) :
  coveringStep step ->
  forall V paths V' paths',
    fold_left step l (Some (V, paths)) = Some (V', paths') ->
    covered V paths ->
    covered V' paths' /\ incl V V' /\ incl l V'.
Proof.
  intros [HNone Hstep].
  assert (Hfail : forall l', fold_left step l' None = None).
  { induction l' as [|a l' IH]; [reflexivity|]. simpl. now rewrite HNone. }
  induction l as [|k l IH]; intros V paths V' paths' Hf Hcov.
  - inversion Hf; subst. repeat split; auto using incl_refl. intros x [].
  - simpl in Hf.
    destruct (step (Some (V, paths)) k) as [[V1 paths1]|] eqn:Es.
    + destruct (Hstep _ _ _ _ _ Es Hcov) as (Hc1 & Hi1 & Hk1).
      destruct (IH _ _ _ _ Hf Hc1) as (Hc2 & Hi2 & Hl2).
      repeat split; [exact Hc2| |].
      * intros x Hx. apply Hi2, Hi1, Hx.
      * intros x [<-|Hx]; [now apply Hi2 | now apply Hl2].
    + rewrite Hfail in Hf. discriminate.
Qed.

Lemma keys_split (k : EdgeKey) :
  In k (mkeys adjm) -> In k (endpoints adjm) \/ In k (midpoints adjm).
Proof.
  unfold endpoints, midpoints, mkeys. rewrite !in_map_iff.
  intros [e [<- Hin]].
  destruct (Nat.eqb (length (snd e)) 1) eqn:E; [left|right];
    exists e; (split; [reflexivity|]); apply filter_In; split; auto.
  now rewrite E.
Qed.

Lemma tracePaths_covers (paths : list (list (Point T))) :
  tracePaths (mkGraph nodes adjm) = Some paths ->
  forall k, In k (mkeys adjm) ->
    exists p path, mget k nodes = Some p /\ In path paths /\ In p path.
Proof.
  unfold tracePaths. cbn [edgeNodes adj]. intros Htr k Hk.
  match type of Htr with
  | context [fold_left (traceClosed nodes adjm) (midpoints adjm) ?x] =>
      destruct x as [[V1 paths1]|] eqn:E1
  end.
  - match type of Htr with
    | match ?x with _ => _ end = _ => destruct x as [[V2 paths2]|] eqn:E2
    end; [|discriminate].
    inversion Htr; subst.
    destruct (@fold_covering _ _ traceOpen_covering _ _ _ _ E1) as (Hc1 & _ & Hl1).
    { intros x []. }
    destruct (@fold_covering _ _ traceClosed_covering _ _ _ _ E2 Hc1) as (Hc2 & Hi2 & Hl2).
    apply Hc2. destruct (keys_split k Hk) as [He|Hm].
    + apply Hi2, Hl1, He.
    + apply Hl2, Hm.
  - assert (Hfail : forall l', fold_left (traceClosed nodes adjm) l' None = None).
    { induction l' as [|a l' IH]; [reflexivity|]. simpl. exact IH. }
    rewrite Hfail in Htr. discriminate.
Qed.

End Coverage.

Section Traced.
Context {T : Type} `{Number T}.
Variable grid : GridData T.
Variable threshold : T.

(** X6: the traversal loses no crossing: it returns, and the point of
    every edge that takes part in a connection is on one of the traced
    polylines. *)
Theorem every_connected_edge_is_traced :
  exists paths,
    tracePaths (buildGraph grid threshold) = Some paths /\
    forall k, In k (mkeys (adj (buildGraph grid threshold))) ->
      exists path, In path paths /\ In (edgePoint grid threshold k) path.
Proof.
  set (G := buildGraph grid threshold).
  destruct (@tracePaths_spec T _ (edgeNodes G) (adj G)) as [paths [Htr _]].
  - apply NoDup_keys_buildGraph.
  - apply degree_buildGraph.
  - apply buildGraph_deg1.
  - apply buildGraph_sym.
  - apply buildGraph_no_self.
  - apply buildGraph_nodes.
  - pose proof (@tracePaths_covers T _ (edgeNodes G) (adj G) paths Htr) as Hcov.
    exists paths. split.
    + replace (mkGraph (edgeNodes G) (adj G)) with G in Htr
        by (destruct G; reflexivity).
      exact Htr.
    + intros k Hk.
      destruct (Hcov k Hk) as (p & path & Hp & Hpa & Hin).
      exists path. split; [exact Hpa|].
      replace (edgePoint grid threshold k) with p; [exact Hin|].
      apply (buildGraph_nodesAreEdgePoints grid threshold). now apply mget_Some_In.
Qed.

End Traced.

(** ** Smoothing and the ends of a polyline *)

Section Chaikin.
Context {T : Type} `{Number T}.

(** The test [isClosed] of [smoothChaikin], on the first and the last
    point. *)
Definition samePoint (a b : Point T) : bool :=
  (nabs (px a - px b) <? lit 1e-5)%js && (nabs (py a - py b) <? lit 1e-5)%js.

Lemma chaikinStep_eq (first : Point T) (rest : list (Point T)) :
  chaikinStep (first :: rest) =
  if samePoint first (last (first :: rest) first) then
    match cutCorners (first :: rest) with
    | [] => None
    | n0 :: _ => Some (cutCorners (first :: rest) ++ [n0])
    end
  else Some (first :: cutCorners (first :: rest) ++ [last (first :: rest) first]).
Proof.
  unfold chaikinStep, samePoint. cbv zeta.
  destruct (_ && _); reflexivity.
Qed.

Lemma last_ends (a b d : Point T) (mid : list (Point T)) :
  last (a :: mid ++ [b]) d = b.
Proof. change (a :: mid ++ [b]) with ((a :: mid) ++ [b]). apply last_last. Qed.

Lemma cutCorners_ends (a b : Point T) (mid : list (Point T)) :
  exists n0 rest, cutCorners (a :: mid ++ [b]) = n0 :: rest.
Proof.
  destruct (mid ++ [b]) as [|p1 r] eqn:E.
  - now apply app_eq_nil in E as [_ E].
  - simpl. eauto.
Qed.

Lemma chaikinStep_open (a b : Point T) (mid : list (Point T)) :
  samePoint a b = false ->
  chaikinStep (a :: mid ++ [b]) = Some (a :: cutCorners (a :: mid ++ [b]) ++ [b]).
Proof. intros Hab. now rewrite chaikinStep_eq, last_ends, Hab. Qed.

Lemma chaikinIter_open (a b : Point T) (k : nat) :
  samePoint a b = false ->
  forall mid, exists mid',
    chaikinIter k (a :: mid ++ [b]) = Some (a :: mid' ++ [b]) /\
    length (a :: mid' ++ [b]) = 2 ^ k * length (a :: mid ++ [b]).
Proof.
  intros Hab. induction k as [|k IH]; intros mid.
  - exists mid. split; [reflexivity|]. simpl. lia.
  - cbn [chaikinIter]. rewrite chaikinStep_open by exact Hab.
    destruct (IH (cutCorners (a :: mid ++ [b]))) as [mid' [Hit Hlen]].
    exists mid'. split; [exact Hit|]. rewrite Hlen.
    assert (Hdouble : length (a :: cutCorners (a :: mid ++ [b]) ++ [b])
                      = 2 * length (a :: mid ++ [b])).
    { cbn [length]. rewrite length_app, cutCorners_length.
      cbn [length]. rewrite length_app. cbn [length]. lia. }
    rewrite Hdouble, Nat.pow_succ_r'. ring.
Qed.

(** X7: an open polyline of at least three points keeps its first and
    its last point through any number of smoothing passes, and every pass
    doubles the number of points. *)
Theorem open_polyline_keeps_ends (a b : Point T) (mid : list (Point T)) (k : nat) :
  samePoint a b = false -> mid <> [] ->
  exists mid',
    smoothChaikin (a :: mid ++ [b]) k = Some (a :: mid' ++ [b]) /\
    length (a :: mid' ++ [b]) = 2 ^ k * length (a :: mid ++ [b]).
Proof.
  intros Hab Hmid. unfold smoothChaikin.
  destruct k as [|k].
  - exists mid. split; [reflexivity|]. simpl. lia.
  - replace (Nat.ltb (length (a :: mid ++ [b])) 3) with false.
    + cbn [Nat.eqb orb]. now apply chaikinIter_open.
    + symmetry. apply Nat.ltb_ge. destruct mid; [congruence|].
      cbn [length app]. rewrite length_app. cbn [length]. lia.
Qed.

Lemma chaikinIter_closed (k : nat) :
  forall (p : Point T) mid, exists p' mid',
    chaikinIter k (p :: mid ++ [p]) = Some (p' :: mid' ++ [p']).
Proof.
  induction k as [|k IH]; intros p mid.
  - exists p, mid. reflexivity.
  - cbn [chaikinIter]. rewrite chaikinStep_eq, last_ends.
    destruct (samePoint p p).
    + destruct (cutCorners_ends p p mid) as (n0 & rest & ->).
      change ((n0 :: rest) ++ [n0]) with (n0 :: rest ++ [n0]). apply IH.
    + apply IH.
Qed.

(** X8: a polyline whose last point is its first point, as the loops come
    out of the traversal, is still one after smoothing: the first and the
    last point of the result are the same point, whatever the test
    [isClosed] answers on the way. *)
Theorem closed_polyline_stays_closed (p : Point T) (mid : list (Point T)) (k : nat) :
  exists p' mid', smoothChaikin (p :: mid ++ [p]) k = Some (p' :: mid' ++ [p']).
Proof.
  unfold smoothChaikin. destruct (_ || _).
  - exists p, mid. reflexivity.
  - apply chaikinIter_closed.
Qed.

(** X9: a polyline of at least three points whose ends are within 1e-5
    of each other in both coordinates is closed exactly by one or more
    smoothing passes: the result starts and ends with the same point. *)
Theorem nearly_closed_polyline_is_closed (a b : Point T) (mid : list (Point T))
  (k : nat) :
  samePoint a b = true -> mid <> [] -> 1 <= k ->
  exists p' mid', smoothChaikin (a :: mid ++ [b]) k = Some (p' :: mid' ++ [p']).
Proof.
  intros Hab Hmid Hk. unfold smoothChaikin.
  destruct k as [|k]; [lia|].
  replace (Nat.ltb (length (a :: mid ++ [b])) 3) with false.
  - cbn [Nat.eqb orb chaikinIter]. rewrite chaikinStep_eq, last_ends, Hab.
    destruct (cutCorners_ends a b mid) as (n0 & rest & ->).
    change ((n0 :: rest) ++ [n0]) with (n0 :: rest ++ [n0]).
    apply chaikinIter_closed.
  - symmetry. apply Nat.ltb_ge. destruct mid; [congruence|].
    cbn [length app]. rewrite length_app. cbn [length]. lia.
Qed.

End Chaikin.

Definition pt (x y : Q) : Point jsnum := mkPoint (lit x) (lit y).

Lemma open_polyline_keeps_ends_witness :
  samePoint (pt 0 0) (pt 1 1) = false /\ [pt 1 0] <> [] /\
  exists mid',
    smoothChaikin (pt 0 0 :: [pt 1 0] ++ [pt 1 1]) 2 = Some (pt 0 0 :: mid' ++ [pt 1 1]) /\
    length (pt 0 0 :: mid' ++ [pt 1 1]) = 2 ^ 2 * length (pt 0 0 :: [pt 1 0] ++ [pt 1 1]).
Proof.
  assert (H1 : samePoint (pt 0 0) (pt 1 1) = false) by (vm_compute; reflexivity).
  assert (H2 : [pt 1 0] <> []) by discriminate.
  split; [exact H1|]. split; [exact H2|].
  exact (@open_polyline_keeps_ends jsnum _ (pt 0 0) (pt 1 1) [pt 1 0] 2 H1 H2).
Defined.

Lemma nearly_closed_polyline_is_closed_witness :
  samePoint (pt 0 0) (pt 0 0.000001) = true /\ [pt 1 0; pt 1 1] <> [] /\ 1 <= 2 /\
  exists p' mid',
    smoothChaikin (pt 0 0 :: [pt 1 0; pt 1 1] ++ [pt 0 0.000001]) 2
    = Some (p' :: mid' ++ [p']).
Proof.
  assert (H1 : samePoint (pt 0 0) (pt 0 0.000001) = true) by (vm_compute; reflexivity).
  assert (H2 : [pt 1 0; pt 1 1] <> []) by discriminate.
  assert (H3 : 1 <= 2) by lia.
  split; [exact H1|]. split; [exact H2|]. split; [exact H3|].
  exact (@nearly_closed_polyline_is_closed jsnum _ (pt 0 0) (pt 0 0.000001)
           [pt 1 0; pt 1 1] 2 H1 H2 H3).
Defined.

End ContourExtra.

(* ================================================================== *)
(** * More facts about the photometric model *)

Module PhysicsExtra.
Import Physics PhysicsFacts.
Local Open Scope R_scope.

(** ** Interpolation stays between its two values *)

Lemma lerp_between (x x0 x1 y0 y1 : R) :
  x0 <= x <= x1 ->
  Rmin y0 y1 <= lerp x x0 x1 y0 y1 <= Rmax y0 y1.
Proof.
  intros Hx. unfold lerp; simpl.
  destruct (Rltb (Rabs (x1 - x0)) (Q2R 1e-9)) eqn:E.
  - split; [apply Rmin_l | apply Rmax_l].
  - apply Rltb_false in E. rewrite lit_1e_9, Rabs_right in E by lra.
    assert (He : 0 < / 1000000000) by (apply Rinv_0_lt_compat; lra).
    assert (Hd : 0 < x1 - x0) by lra.
    set (t := (x - x0) / (x1 - x0)).
    assert (Ht : 0 <= t <= 1).
    { unfold t. split.
      - apply Rmult_le_pos; [lra|]. left. now apply Rinv_0_lt_compat.
      - apply (Rmult_le_reg_r (x1 - x0)); [exact Hd|].
        unfold Rdiv. rewrite Rmult_assoc, Rinv_l by lra. lra. }
    replace (y0 + (x - x0) * (y1 - y0) / (x1 - x0)) with (y0 + t * (y1 - y0))
      by (unfold t; field; lra).
    unfold Rmin, Rmax. destruct (Rle_dec y0 y1); nra.
Qed.

Lemma lit_0 : Q2R 0 = 0.
Proof. unfold Q2R; simpl; lra. Qed.

Lemma beamLoop_range (lo hi : R) (pat : list (BeamPoint R)) (a : R) :
  lo <= 0 <= hi ->
  (forall b, In b pat -> lo <= intensity b <= hi) ->
  lo <= beamLoop pat a <= hi.
Proof.
  intros H0. induction pat as [|b0 [|b1 rest] IH]; intros Hall.
  - simpl. rewrite lit_0. exact H0.
  - simpl. rewrite lit_0. exact H0.
  - change (beamLoop (b0 :: b1 :: rest) a)
      with (if (Rleb (angle b0) a && Rleb a (angle b1))%bool
            then lerp a (angle b0) (angle b1) (intensity b0) (intensity b1)
            else beamLoop (b1 :: rest) a).
    destruct (Rleb (angle b0) a && Rleb a (angle b1))%bool eqn:E.
    + apply andb_true_iff in E as [E1 E2]. apply Rleb_true in E1, E2.
      pose proof (@lerp_between a (angle b0) (angle b1) (intensity b0) (intensity b1)
                    (conj E1 E2)) as Hl.
      pose proof (Hall b0 (or_introl eq_refl)) as Hb0.
      pose proof (Hall b1 (or_intror (or_introl eq_refl))) as Hb1.
      unfold Rmin, Rmax in Hl. destruct (Rle_dec (intensity b0) (intensity b1)); lra.
    + apply IH. intros b Hb. apply Hall. now right.
Qed.

Lemma beam_intensity_range_aux (M : R) (pat : list (BeamPoint R)) (angleDeg : R) :
  pat <> [] ->
  (forall b, In b pat -> 0 <= intensity b <= M) ->
  exists r, getBeamIntensityDynamic pat angleDeg = Some r /\ 0 <= r <= M.
Proof.
  intros Hne Hall. destruct pat as [|b0 rest]; [contradiction|].
  assert (HM : 0 <= 0 <= M).
  { pose proof (Hall b0 (or_introl eq_refl)). lra. }
  unfold getBeamIntensityDynamic.
  destruct (nle _ _).
  { eexists; split; [reflexivity|]. apply Hall. now left. }
  destruct (nlt _ _).
  { eexists; split; [reflexivity|]. simpl. rewrite lit_0. exact HM. }
  eexists; split; [reflexivity|]. now apply beamLoop_range.
Qed.

(** X10: with a non-empty beam pattern whose intensities all lie between
    0 and [M], the beam lookup returns a value between 0 and [M] at every
    angle, whatever the order of the pattern's angles. *)
Theorem beam_intensity_range (M : R) (pat : list (BeamPoint R)) (angleDeg : R) :
  pat <> [] ->
  (forall b, In b pat -> 0 <= intensity b <= M) ->
  exists r, getBeamIntensityDynamic pat angleDeg = Some r /\ 0 <= r <= M.
Proof. apply beam_intensity_range_aux. Qed.

Lemma beam_intensity_range_witness :
  beamPatternOf (T:=R) DEFAULT_BEAM_PATTERN <> [] /\
  (forall b, In b (beamPatternOf (T:=R) DEFAULT_BEAM_PATTERN) -> 0 <= intensity b <= 1) /\
  exists r,
    getBeamIntensityDynamic (beamPatternOf DEFAULT_BEAM_PATTERN) 15 = Some r /\
    0 <= r <= 1.
Proof.
  assert (H1 : beamPatternOf (T:=R) DEFAULT_BEAM_PATTERN <> []) by discriminate.
  assert (H2 : forall b, In b (beamPatternOf (T:=R) DEFAULT_BEAM_PATTERN) ->
                         0 <= intensity b <= 1).
  { intros b Hb. simpl in Hb.
    repeat (destruct Hb as [<-|Hb]; [simpl; unfold Q2R; simpl; lra|]).
    contradiction. }
  split; [exact H1|]. split; [exact H2|].
  exact (@beam_intensity_range 1 (beamPatternOf DEFAULT_BEAM_PATTERN) 15 H1 H2).
Defined.

(** ** The tables are reproduced at their knots *)

Lemma ascending_tail_gt (a : R * R) (l : list (R * R)) :
  ascending (a :: l) -> forall e, In e l -> fst a < fst e.
Proof.
  assert (He : 0 < / 1000000000) by (apply Rinv_0_lt_compat; lra).
  revert a. induction l as [|b l IH]; intros a Hasc e Hin; [contradiction|].
  destruct Hasc as [Hgap Hasc]. destruct Hin as [<-|Hin]; [lra|].
  specialize (IH b Hasc e Hin). lra.
Qed.

Lemma ascending_last (a : R * R) (l : list (R * R)) :
  ascending (a :: l) ->
  forall e, In e (a :: l) ->
    fst e <= fst (last (a :: l) a) /\
    (fst (last (a :: l) a) <= fst e -> e = last (a :: l) a).
Proof.
  revert a. induction l as [|b l IH]; intros a Hasc e Hin.
  - destruct Hin as [<-|[]]. simpl. split; [lra | reflexivity].
  - change (last (a :: b :: l) a) with (last (b :: l) a).
    rewrite (last_default b l a b).
    pose proof (ascending_tail_gt a (b :: l) Hasc b (or_introl eq_refl)) as Hab.
    destruct Hasc as [_ Hasc].
    destruct Hin as [<-|Hin].
    + destruct (IH b Hasc b (or_introl eq_refl)) as [Hle _].
      split; [lra | intros; lra].
    + now apply IH.
Qed.

Lemma lookupLoop_knot (first : R * R) (tbl : list (R * R)) (x y : R) :
  ascending (first :: tbl) -> In (x, y) tbl ->
  lookupLoop (first :: tbl) x = y.
Proof.
  revert first. induction tbl as [|b rest IH]; intros a Hasc Hin; [contradiction|].
  pose proof (ascending_tail_gt a (b :: rest) Hasc) as Hgt.
  destruct Hasc as [Hgap Hasc].
  change (lookupLoop (a :: b :: rest) x)
    with (if (Rleb (fst a) x && Rleb x (fst b))%bool
          then lerp x (fst a) (fst b) (snd a) (snd b)
          else lookupLoop (b :: rest) x).
  destruct Hin as [->|Hin].
  - cbn [fst snd] in *.
    replace (Rleb (fst a) x) with true by (symmetry; apply Rleb_true; lra).
    replace (Rleb x x) with true by (symmetry; apply Rleb_true; lra).
    cbn [andb]. rewrite lerp_nondegenerate by exact Hgap. field. lra.
  - pose proof (ascending_tail_gt b rest Hasc (x, y) Hin) as Hb. cbn [fst] in Hb.
    replace (Rleb x (fst b)) with false by (symmetry; apply Rleb_false; lra).
    rewrite andb_false_r. now apply IH.
Qed.

(** X11: on a table with ascending knots, the lookup at a tabulated
    abscissa returns the tabulated value: the first and the last entry by
    the two clamps, the entries between by interpolation at the right end of
    the pair before them. *)
Theorem lookup_at_knot (tbl : list (R * R)) (x y : R) :
  ascending tbl -> In (x, y) tbl -> getLookupValue tbl x = Some y.
Proof.
  intros Hasc Hin. destruct tbl as [|first rest]; [contradiction|].
  unfold getLookupValue.
  change (nle x (fst first)) with (Rleb x (fst first)).
  change (nle (fst (last (first :: rest) first)) x)
    with (Rleb (fst (last (first :: rest) first)) x).
  destruct Hin as [->|Hin].
  - cbn [fst snd].
    replace (Rleb x x) with true by (symmetry; apply Rleb_true; lra).
    reflexivity.
  - pose proof (ascending_tail_gt first rest Hasc (x, y) Hin) as Hgt. cbn [fst] in Hgt.
    replace (Rleb x (fst first)) with false by (symmetry; apply Rleb_false; lra).
    destruct (@ascending_last first rest Hasc (x, y) (or_intror Hin)) as [_ Hlast].
    cbn [fst] in Hlast.
    destruct (Rleb (fst (last (first :: rest) first)) x) eqn:E.
    + apply Rleb_true in E. rewrite <- (Hlast E). reflexivity.
    + f_equal. now apply lookupLoop_knot.
Qed.

Lemma lookup_at_knot_witness :
  ascending (table PHOTOPIC_DATA) /\ In (555, 1) (table PHOTOPIC_DATA) /\
  getLookupValue (table PHOTOPIC_DATA) 555 = Some 1.
Proof.
  assert (Hin : In (555, 1) (table PHOTOPIC_DATA)).
  { unfold table, PHOTOPIC_DATA. cbn [map fst snd].
    do 9 right. left. f_equal; simpl; unfold Q2R; simpl; lra. }
  split; [exact ascending_PHOTOPIC|]. split; [exact Hin|].
  exact (@lookup_at_knot (table PHOTOPIC_DATA) 555 1 ascending_PHOTOPIC Hin).
Defined.

(** ** The range of a table lookup *)

Lemma interpolates_range (lo hi : R) (tbl : list (R * R)) (x y : R) :
  (forall e, In e tbl -> lo <= snd e <= hi) ->
  interpolates tbl x y -> lo <= y <= hi.
Proof.
  intros Hall (pre & a & b & post & -> & Hx & Hlt & ->).
  assert (Ha : lo <= snd a <= hi).
  { apply Hall. apply in_or_app. right. now left. }
  assert (Hb : lo <= snd b <= hi).
  { apply Hall. apply in_or_app. right. right. now left. }
  set (t := (x - fst a) / (fst b - fst a)).
  assert (Ht : 0 <= t <= 1).
  { unfold t. split.
    - apply Rmult_le_pos; [lra|]. left. apply Rinv_0_lt_compat. lra.
    - apply (Rmult_le_reg_r (fst b - fst a)); [lra|].
      unfold Rdiv. rewrite Rmult_assoc, Rinv_l by lra. lra. }
  replace (snd a + (x - fst a) * ((snd b - snd a) / (fst b - fst a)))
    with (snd a + t * (snd b - snd a)) by (unfold t; field; lra).
  nra.
Qed.

Lemma In_last {A} (a : A) (l : list A) : In (last (a :: l) a) (a :: l).
Proof.
  revert a. induction l as [|b l IH]; intros a; [now left|].
  change (last (a :: b :: l) a) with (last (b :: l) a).
  rewrite (last_default b l a b). right. apply IH.
Qed.

Lemma lookup_in_range (lo hi : R) (tbl : list (R * R)) (x : R) :
  tbl <> [] -> ascending tbl ->
  (forall e, In e tbl -> lo <= snd e <= hi) ->
  exists y, getLookupValue tbl x = Some y /\ lo <= y <= hi.
Proof.
  intros Hne Hasc Hall.
  destruct (getLookupValue_clamped x Hne Hasc) as [y [Hy Hc]].
  exists y. split; [exact Hy|].
  destruct tbl as [|first rest]; [contradiction|].
  unfold clampedLookup in Hc.
  destruct Hc as [[_ ->]|[[_ ->]|[_ Hi]]].
  - apply Hall. now left.
  - apply Hall. apply In_last.
  - now apply (interpolates_range (tbl := first :: rest) (x := x)).
Qed.

(** X12: on a non-empty table with ascending knots whose values all lie
    between [lo] and [hi], the lookup is defined and returns a value
    between [lo] and [hi] for every argument: the final [return 0] of the
    loop is never reached. *)
Theorem lookup_range (lo hi : R) (tbl : list (R * R)) (x : R) :
  tbl <> [] -> ascending tbl ->
  (forall e, In e tbl -> lo <= snd e <= hi) ->
  exists y, getLookupValue tbl x = Some y /\ lo <= y <= hi.
Proof. apply lookup_in_range. Qed.

Lemma SCOTOPIC_range (e : R * R) :
  In e (table SCOTOPIC_DATA) -> 0.0000178 <= snd e <= 1.
Proof.
  unfold table, SCOTOPIC_DATA. cbn [map fst snd]. intros Hin.
  repeat (destruct Hin as [<-|Hin]; [cbn [snd]; unfold Q2R; simpl; lra|]).
  contradiction.
Qed.

Lemma PHOTOPIC_range (e : R * R) :
  In e (table PHOTOPIC_DATA) -> 0.000039 <= snd e <= 1.
Proof.
  unfold table, PHOTOPIC_DATA. cbn [map fst snd]. intros Hin.
  repeat (destruct Hin as [<-|Hin]; [cbn [snd]; unfold Q2R; simpl; lra|]).
  contradiction.
Qed.

Lemma lookup_range_witness :
  table (T:=R) PHOTOPIC_DATA <> [] /\ ascending (table PHOTOPIC_DATA) /\
  (forall e, In e (table PHOTOPIC_DATA) -> 0.000039 <= snd e <= 1) /\
  exists y, getLookupValue (table PHOTOPIC_DATA) 470 = Some y /\ 0.000039 <= y <= 1.
Proof.
  assert (H1 : table (T:=R) PHOTOPIC_DATA <> []) by discriminate.
  split; [exact H1|]. split; [exact ascending_PHOTOPIC|].
  split; [exact PHOTOPIC_range|].
  exact (@lookup_range 0.000039 1 (table PHOTOPIC_DATA) 470 H1
           ascending_PHOTOPIC PHOTOPIC_range).
Defined.

(** X13: the guard [Math.max(v_photopic, 1e-6)] never acts: below
    700 nm both CIE lookups are defined, the photopic one is at least
    0.000039 (and so above 1e-6), the scotopic one is positive, neither
    exceeds 1, and the correction factor is
    [max(1, 2.489 * v_scotopic / v_photopic)]. *)
Theorem photopic_guard_inactive (wavelength : R) :
  wavelength < 700 ->
  exists v_scotopic v_photopic,
    getLookupValue (table SCOTOPIC_DATA) wavelength = Some v_scotopic /\
    getLookupValue (table PHOTOPIC_DATA) wavelength = Some v_photopic /\
    0.0000178 <= v_scotopic <= 1 /\ 0.000039 <= v_photopic <= 1 /\
    getSpectralCorrectionFactor wavelength
    = Some (Rmax 1 (2.489 * (v_scotopic / v_photopic))).
Proof.
  intros Hw.
  destruct (@lookup_in_range 0.0000178 1 (table SCOTOPIC_DATA) wavelength)
    as [vs [Hvs Hrs]];
    [discriminate | apply ascending_SCOTOPIC | apply SCOTOPIC_range |].
  destruct (@lookup_in_range 0.000039 1 (table PHOTOPIC_DATA) wavelength)
    as [vp [Hvp Hrp]];
    [discriminate | apply ascending_PHOTOPIC | apply PHOTOPIC_range |].
  exists vs, vp. repeat split; try tauto.
  unfold getSpectralCorrectionFactor.
  assert (H700 : Q2R 700 = 700) by (unfold Q2R; simpl; lra).
  assert (H1 : Q2R 1 = 1) by (unfold Q2R; simpl; lra).
  replace (nle (lit 700) wavelength) with false
    by (symmetry; apply Rleb_false; simpl; rewrite H700; exact Hw).
  rewrite Hvs, Hvp, !nmax_R. simpl. rewrite H1, lit_1e_6.
  rewrite (Rmax_left vp) by lra. reflexivity.
Qed.

Lemma photopic_guard_inactive_witness :
  525 < 700 /\
  exists v_scotopic v_photopic,
    getLookupValue (table SCOTOPIC_DATA) 525 = Some v_scotopic /\
    getLookupValue (table PHOTOPIC_DATA) 525 = Some v_photopic /\
    0.0000178 <= v_scotopic <= 1 /\ 0.000039 <= v_photopic <= 1 /\
    getSpectralCorrectionFactor 525
    = Some (Rmax 1 (2.489 * (v_scotopic / v_photopic))).
Proof.
  assert (H : 525 < 700) by lra.
  split; [exact H|]. exact (@photopic_guard_inactive 525 H).
Defined.

(** ** The illuminance over the reals *)

(** The body of [calculateIlluminance], with the near-field distance and
    the cosine named. *)
Lemma calculateIlluminance_R
  (x y z angleH angleV peakCandela spectralFactor : R)
  (beamPattern : list (BeamPoint R)) :
  let d := Rmax (Q2R 0.05) (sqrt (x * x + y * y + z * z)) in
  let c := sin angleH * cos angleV * (x / d) + cos angleH * cos angleV * (y / d) +
           sin angleV * (z / d) in
  calculateIlluminance x y z angleH angleV peakCandela spectralFactor beamPattern =
  if Rleb c (Q2R 0.001) then Some 0 else
  match getBeamIntensityDynamic beamPattern (acos (Rmin 1 c) * (180 / PI)) with
  | None => None
  | Some rel =>
      if Rleb rel 0 then Some 0
      else Some (peakCandela * spectralFactor * rel * exp (- Q2R ALPHA * d) / (d * d))
  end.
Proof.
  intros d c. unfold calculateIlluminance. simpl.
  rewrite nmax_R, nmin_R. fold d. fold c.
  assert (H1 : Q2R 1 = 1) by (unfold Q2R; simpl; lra).
  assert (H180 : Q2R 180 = 180) by (unfold Q2R; simpl; lra).
  rewrite !lit_0, H1, H180. reflexivity.
Qed.

Lemma direction_unit (angleH angleV : R) :
  (sin angleH * cos angleV) * (sin angleH * cos angleV) +
  (cos angleH * cos angleV) * (cos angleH * cos angleV) +
  sin angleV * sin angleV = 1.
Proof.
  pose proof (sin2_cos2 angleH) as HH. pose proof (sin2_cos2 angleV) as HV.
  unfold Rsqr in *. nra.
Qed.

Lemma on_axis_value
  (angleH angleV d peakCandela spectralFactor : R)
  (b0 : BeamPoint R) (rest : list (BeamPoint R)) :
  0.05 <= d -> 0 <= angle b0 ->
  calculateIlluminance (d * (sin angleH * cos angleV)) (d * (cos angleH * cos angleV))
    (d * sin angleV) angleH angleV peakCandela spectralFactor (b0 :: rest)
  = if Rleb (intensity b0) 0 then Some 0
    else Some (peakCandela * spectralFactor * intensity b0 * exp (- (0.00015) * d)
               / (d * d)).
Proof.
  intros Hd Ha. rewrite calculateIlluminance_R. cbv zeta.
  pose proof (direction_unit angleH angleV) as Hu.
  set (Dx := sin angleH * cos angleV) in *.
  set (Dy := cos angleH * cos angleV) in *.
  set (Dz := sin angleV) in *.
  replace (d * Dx * (d * Dx) + d * Dy * (d * Dy) + d * Dz * (d * Dz))
    with (d * d * (Dx * Dx + Dy * Dy + Dz * Dz)) by ring.
  rewrite Hu, Rmult_1_r, sqrt_square by lra.
  rewrite Rmax_right by exact Hd.
  replace (Dx * (d * Dx / d) + Dy * (d * Dy / d) + Dz * (d * Dz / d))
    with (Dx * Dx + Dy * Dy + Dz * Dz) by (field; lra).
  rewrite Hu.
  replace (Rleb 1 (Q2R 0.001)) with false
    by (symmetry; apply Rleb_false; lits; lra).
  rewrite Rmin_left by lra. rewrite acos_1, Rmult_0_l.
  unfold getBeamIntensityDynamic. simpl. rewrite Rabs_R0.
  replace (Rleb 0 (angle b0)) with true by (symmetry; now apply Rleb_true).
  reflexivity.
Qed.

(** X14: Allard's law on the optical axis.  At distance [d >= 0.05]
    along the direction in which a source points, whatever its yaw and
    pitch, the illuminance is
    [peak * spectral * i0 * exp(-ALPHA * d) / d^2], where [i0] is the
    intensity of the first point of the beam pattern, taken positive, and
    the angle of that point is not negative. *)
Theorem on_axis_illuminance
  (angleH angleV d peakCandela spectralFactor : R)
  (b0 : BeamPoint R) (rest : list (BeamPoint R)) :
  0.05 <= d -> 0 <= angle b0 -> 0 < intensity b0 ->
  calculateIlluminance (d * (sin angleH * cos angleV)) (d * (cos angleH * cos angleV))
    (d * sin angleV) angleH angleV peakCandela spectralFactor (b0 :: rest)
  = Some (peakCandela * spectralFactor * intensity b0 * exp (- (0.00015) * d) / (d * d)).
Proof.
  intros Hd Ha Hi. rewrite on_axis_value by assumption.
  replace (Rleb (intensity b0) 0) with false by (symmetry; now apply Rleb_false).
  reflexivity.
Qed.

Lemma on_axis_illuminance_witness :
  0.05 <= 100 /\ 0 <= angle (mkBeamPoint 0 1) /\ 0 < intensity (mkBeamPoint 0 1) /\
  calculateIlluminance (100 * (sin 0 * cos 0)) (100 * (cos 0 * cos 0)) (100 * sin 0)
    0 0 2 3 (mkBeamPoint 0 1 :: [mkBeamPoint 30 0])
  = Some (2 * 3 * intensity (mkBeamPoint 0 1) * exp (- (0.00015) * 100) / (100 * 100)).
Proof.
  assert (H1 : 0.05 <= 100) by lra.
  assert (H2 : 0 <= angle (mkBeamPoint 0 1)) by (simpl; lra).
  assert (H3 : 0 < intensity (mkBeamPoint 0 1)) by (simpl; lra).
  split; [exact H1|]. split; [exact H2|]. split; [exact H3|].
  exact (@on_axis_illuminance 0 0 100 2 3 (mkBeamPoint 0 1) [mkBeamPoint 30 0] H1 H2 H3).
Defined.

(** X23: on the optical axis the illuminance does not increase with
    the distance: for [0.05 <= d1 <= d2], a non-negative peak intensity, a
    non-negative spectral factor and a beam pattern whose first angle is not
    negative, the value at [d2] is at most the value at [d1]. *)
Theorem on_axis_decreasing
  (angleH angleV d1 d2 peakCandela spectralFactor : R)
  (b0 : BeamPoint R) (rest : list (BeamPoint R)) :
  0.05 <= d1 <= d2 -> 0 <= angle b0 -> 0 <= peakCandela -> 0 <= spectralFactor ->
  exists e1 e2,
    calculateIlluminance (d1 * (sin angleH * cos angleV))
      (d1 * (cos angleH * cos angleV)) (d1 * sin angleV)
      angleH angleV peakCandela spectralFactor (b0 :: rest) = Some e1 /\
    calculateIlluminance (d2 * (sin angleH * cos angleV))
      (d2 * (cos angleH * cos angleV)) (d2 * sin angleV)
      angleH angleV peakCandela spectralFactor (b0 :: rest) = Some e2 /\
    e2 <= e1.
Proof.
  intros [Hd1 Hd12] Ha Hp Hs.
  rewrite !on_axis_value by (try assumption; lra).
  destruct (Rleb (intensity b0) 0) eqn:E.
  { exists 0, 0. repeat split; lra. }
  apply Rleb_false in E.
  do 2 eexists. split; [reflexivity|]. split; [reflexivity|].
  set (K := peakCandela * spectralFactor * intensity b0).
  assert (HK : 0 <= K).
  { unfold K. apply Rmult_le_pos; [|lra]. now apply Rmult_le_pos. }
  assert (He : 0 < exp (- (0.00015) * d2) <= exp (- (0.00015) * d1)).
  { split; [apply exp_pos|].
    destruct (Req_dec d1 d2) as [->|Hne]; [lra|].
    left. apply exp_increasing. lra. }
  assert (He1 : 0 < exp (- (0.00015) * d1)) by apply exp_pos.
  assert (Hi : 0 < / (d2 * d2) <= / (d1 * d1)).
  { split; [apply Rinv_0_lt_compat; nra|].
    apply Rinv_le_contravar; nra. }
  assert (Hi1 : 0 < / (d1 * d1)) by (apply Rinv_0_lt_compat; nra).
  unfold Rdiv. rewrite !(Rmult_assoc K).
  apply Rmult_le_compat_l; [exact HK|].
  apply Rmult_le_compat; lra.
Qed.

Lemma on_axis_decreasing_witness :
  0.05 <= 100 <= 200 /\ 0 <= angle (mkBeamPoint 0 1) /\ 0 <= 2 /\ 0 <= 3 /\
  exists e1 e2,
    calculateIlluminance (100 * (sin 0 * cos 0)) (100 * (cos 0 * cos 0)) (100 * sin 0)
      0 0 2 3 (mkBeamPoint 0 1 :: [mkBeamPoint 30 0]) = Some e1 /\
    calculateIlluminance (200 * (sin 0 * cos 0)) (200 * (cos 0 * cos 0)) (200 * sin 0)
      0 0 2 3 (mkBeamPoint 0 1 :: [mkBeamPoint 30 0]) = Some e2 /\
    e2 <= e1.
Proof.
  assert (H1 : 0.05 <= 100 <= 200) by lra.
  assert (H2 : 0 <= angle (mkBeamPoint 0 1)) by (simpl; lra).
  assert (H3 : 0 <= 2) by lra.
  assert (H4 : 0 <= 3) by lra.
  split; [exact H1|]. split; [exact H2|]. split; [exact H3|]. split; [exact H4|].
  exact (@on_axis_decreasing 0 0 100 200 2 3 (mkBeamPoint 0 1) [mkBeamPoint 30 0]
           H1 H2 H3 H4).
Defined.

(** X15: the near-field clamp bounds the illuminance.  With a non-empty
    beam pattern whose intensities lie between 0 and [M], a non-negative
    peak intensity and a non-negative spectral factor, the illuminance at
    every point is defined, non-negative and at most
    [400 * peak * spectral * M], which is the inverse square of the clamp
    distance 0.05 times the source intensity: there is no singularity at
    the source. *)
Theorem illuminance_bounded
  (x y z angleH angleV peakCandela spectralFactor M : R)
  (beamPattern : list (BeamPoint R)) :
  beamPattern <> [] ->
  (forall b, In b beamPattern -> 0 <= intensity b <= M) ->
  0 <= peakCandela -> 0 <= spectralFactor ->
  exists e,
    calculateIlluminance x y z angleH angleV peakCandela spectralFactor beamPattern
    = Some e /\
    0 <= e <= 400 * peakCandela * spectralFactor * M.
Proof.
  intros Hne Hall Hp Hs. rewrite calculateIlluminance_R. cbv zeta.
  set (d := Rmax (Q2R 0.05) (sqrt (x * x + y * y + z * z))).
  assert (Hd : 0.05 <= d) by apply d_safe_pos.
  assert (HM : 0 <= M).
  { destruct beamPattern as [|b0 rest]; [contradiction|].
    pose proof (Hall b0 (or_introl eq_refl)). lra. }
  assert (Hbound : 0 <= 400 * peakCandela * spectralFactor * M).
  { apply Rmult_le_pos; [|exact HM]. apply Rmult_le_pos; [|exact Hs]. lra. }
  destruct (Rleb _ (Q2R 0.001)).
  { exists 0. split; [reflexivity|]. lra. }
  match goal with
  | |- context [getBeamIntensityDynamic beamPattern ?a] =>
      destruct (@beam_intensity_range_aux M beamPattern a Hne Hall) as [rel [-> Hrel]]
  end.
  destruct (Rleb rel 0).
  { exists 0. split; [reflexivity|]. lra. }
  eexists; split; [reflexivity|].
  assert (He : 0 < exp (- Q2R ALPHA * d) <= 1).
  { split; [apply exp_pos|]. rewrite <- exp_0. 
    destruct (Req_dec (- Q2R ALPHA * d) 0) as [->|Hn]; [lra|].
    left. apply exp_increasing. lits. lra. }
  assert (Hinv : 0 < / (d * d) <= 400).
  { split; [apply Rinv_0_lt_compat; nra|].
    replace 400 with (/ (0.05 * 0.05)) by lra.
    apply Rinv_le_contravar; nra. }
  set (E := exp (- Q2R ALPHA * d)) in *. set (V := / (d * d)) in *.
  unfold Rdiv. fold V.
  assert (H1 : 0 <= peakCandela * spectralFactor) by (apply Rmult_le_pos; lra).
  assert (H2 : 0 <= peakCandela * spectralFactor * rel) by (apply Rmult_le_pos; lra).
  assert (H3 : peakCandela * spectralFactor * rel <= peakCandela * spectralFactor * M)
    by (apply Rmult_le_compat_l; lra).
  assert (H4 : 0 <= peakCandela * spectralFactor * rel * E) by (apply Rmult_le_pos; lra).
  assert (H5 : peakCandela * spectralFactor * rel * E <= peakCandela * spectralFactor * M).
  { apply Rle_trans with (peakCandela * spectralFactor * rel * 1); [|lra].
    apply Rmult_le_compat_l; lra. }
  split; [apply Rmult_le_pos; lra|].
  apply Rle_trans with (peakCandela * spectralFactor * M * V).
  - apply Rmult_le_compat_r; lra.
  - replace (400 * peakCandela * spectralFactor * M)
      with (peakCandela * spectralFactor * M * 400) by ring.
    apply Rmult_le_compat_l; [|lra]. apply Rmult_le_pos; lra.
Qed.

(** A point one centimetre in front of the source, inside the clamp
    distance, with a beam pattern of constant intensity 1 up to 90 degrees:
    the cosine is 0.2, the off-axis angle about 78.5 degrees, and the value
    is [2 * 3 * exp(-0.00015 * 0.05) / 0.0025], just below the bound 2400. *)
Lemma illuminance_bounded_witness :
  [mkBeamPoint 0 1; mkBeamPoint 90 1] <> [] /\
  (forall b, In b [mkBeamPoint 0 1; mkBeamPoint 90 1] -> 0 <= intensity b <= 1) /\
  0 <= 2 /\ 0 <= 3 /\
  exists e,
    calculateIlluminance 0 (1 / 100) 0 0 0 2 3 [mkBeamPoint 0 1; mkBeamPoint 90 1]
    = Some e /\
    0 <= e <= 400 * 2 * 3 * 1.
Proof.
  assert (H1 : [mkBeamPoint 0 1; mkBeamPoint 90 1] <> []) by discriminate.
  assert (H2 : forall b, In b [mkBeamPoint 0 1; mkBeamPoint 90 1] ->
                         0 <= intensity b <= 1).
  { intros b Hb. simpl in Hb.
    repeat (destruct Hb as [<-|Hb]; [simpl; lra|]).
    contradiction. }
  assert (H3 : 0 <= 2) by lra.
  assert (H4 : 0 <= 3) by lra.
  split; [exact H1|]. split; [exact H2|]. split; [exact H3|]. split; [exact H4|].
  exact (@illuminance_bounded 0 (1 / 100) 0 0 0 2 3 1
           [mkBeamPoint 0 1; mkBeamPoint 90 1] H1 H2 H3 H4).
Defined.

(** At that point the clamp is what bounds the value: the illuminance is
    above 2399, where the inverse square of the true distance 0.01 would
    give about 60000. *)
Lemma illuminance_bounded_example_value :
  exists e,
    calculateIlluminance 0 (1 / 100) 0 0 0 2 3 [mkBeamPoint 0 1; mkBeamPoint 90 1]
    = Some e /\
    2399 < e.
Proof.
  rewrite calculateIlluminance_R. cbv zeta.
  assert (Hs : sqrt (0 * 0 + 1 / 100 * (1 / 100) + 0 * 0) = 1 / 100).
  { replace (0 * 0 + 1 / 100 * (1 / 100) + 0 * 0) with ((1 / 100) * (1 / 100)) by lra.
    apply sqrt_square. lra. }
  rewrite Hs. rewrite (Rmax_left 0.05 (1 / 100)) by lra.
  rewrite sin_0, cos_0.
  replace (0 * 1 * (0 / 0.05) + 1 * 1 * (1 / 100 / 0.05) + 0 * (0 / 0.05))
    with 0.2 by lra.
  replace (Rleb 0.2 0.001) with false by (symmetry; apply Rleb_false; lra).
  rewrite (Rmin_right 1 0.2) by lra.
  assert (Hac : 0 < acos 0.2 < PI / 2).
  { assert (Hr : -1 < 0.2 < 1) by lra.
    destruct (acos_bound_lt 0.2 Hr) as [H0 Hpi]. split; [exact H0|].
    destruct (Rlt_le_dec (acos 0.2) (PI / 2)) as [Hlt | Hge]; [exact Hlt|].
    assert (Hc : cos (acos 0.2) <= 0) by (apply cos_le_0; lra).
    rewrite cos_acos in Hc by lra. lra. }
  pose proof PI_RGT_0 as Hpi.
  set (theta := acos 0.2 * (180 / PI)).
  assert (Hth : 0 < theta < 90).
  { unfold theta. assert (Hk : 0 < 180 / PI) by (apply Rdiv_lt_0_compat; lra).
    split; [apply Rmult_lt_0_compat; lra|].
    replace 90 with (PI / 2 * (180 / PI)) by (field; lra).
    apply Rmult_lt_compat_r; lra. }
  assert (Hbeam : getBeamIntensityDynamic [mkBeamPoint 0 1; mkBeamPoint 90 1] theta
                  = Some 1).
  { unfold getBeamIntensityDynamic. cbn [angle intensity last].
    change (nabs theta) with (Rabs theta). rewrite Rabs_right by lra.
    change (nle theta 0) with (Rleb theta 0).
    replace (Rleb theta 0) with false by (symmetry; apply Rleb_false; lra).
    change (nlt 90 theta) with (Rltb 90 theta).
    replace (Rltb 90 theta) with false by (symmetry; apply Rltb_false; lra).
    f_equal. cbn [beamLoop angle intensity].
    change (nle 0 theta) with (Rleb 0 theta).
    change (nle theta 90) with (Rleb theta 90).
    replace (Rleb 0 theta) with true by (symmetry; apply Rleb_true; lra).
    replace (Rleb theta 90) with true by (symmetry; apply Rleb_true; lra).
    cbn [andb]. unfold lerp.
    destruct (nlt _ _); [reflexivity|].
    change (1 + (theta - 0) * (1 - 1) / (90 - 0) = 1). field. }
  rewrite Hbeam.
  replace (Rleb 1 0) with false by (symmetry; apply Rleb_false; lra).
  eexists. split; [reflexivity|].
  assert (He : 1 + - Q2R ALPHA * 0.05 < exp (- Q2R ALPHA * 0.05)).
  { apply exp_ineq1. unfold ALPHA. lra. }
  unfold ALPHA in *.
  assert (Hlow : 0.9999 < exp (- (0.00015) * 0.05)) by lra.
  unfold Rdiv. replace (/ (0.05 * 0.05)) with 400 by lra. lra.
Qed.

(** X16: the illuminance is homogeneous in the peak intensity: scaling
    the peak by any factor [k] scales the result by [k], including the
    cases where the result is 0 or where an empty pattern raises. *)
Theorem illuminance_scales_with_peak
  (x y z angleH angleV peakCandela spectralFactor k : R)
  (beamPattern : list (BeamPoint R)) :
  calculateIlluminance x y z angleH angleV (k * peakCandela) spectralFactor beamPattern
  = option_map (Rmult k)
      (calculateIlluminance x y z angleH angleV peakCandela spectralFactor beamPattern).
Proof.
  rewrite !calculateIlluminance_R. cbv zeta.
  destruct (Rleb _ (Q2R 0.001)).
  { simpl. f_equal. lra. }
  destruct (getBeamIntensityDynamic beamPattern _) as [rel|]; [|reflexivity].
  destruct (Rleb rel 0); simpl; f_equal; [lra|].
  unfold Rdiv. ring.
Qed.

(** X17: there is no light within 40 micrometres of the source: at
    every point whose distance to the origin is at most 0.00004, and for
    every orientation, peak, spectral factor and beam pattern (even an
    empty one), the illuminance is exactly 0, because the cosine computed
    with the clamped distance 0.05 is at most 0.0008, below the culling
    bound 0.001.  (In exact arithmetic the same holds up to 0.00005; the
    radius stated keeps a margin of a fifth under the bound.) *)
Theorem dead_zone_at_source
  (x y z angleH angleV peakCandela spectralFactor : R)
  (beamPattern : list (BeamPoint R)) :
  x * x + y * y + z * z <= 0.00004 * 0.00004 ->
  calculateIlluminance x y z angleH angleV peakCandela spectralFactor beamPattern
  = Some 0.
Proof.
  intros Hnear. rewrite calculateIlluminance_R. cbv zeta.
  pose proof (direction_unit angleH angleV) as Hu.
  set (Dx := sin angleH * cos angleV) in *.
  set (Dy := cos angleH * cos angleV) in *.
  set (Dz := sin angleV) in *.
  set (n2 := x * x + y * y + z * z) in *.
  assert (Hn2 : 0 <= n2) by (unfold n2; nra).
  assert (Hsqrt : sqrt n2 <= 0.00004).
  { rewrite <- (sqrt_square 0.00004) by lra. now apply sqrt_le_1_alt. }
  rewrite Rmax_left by lra.
  assert (Hcs : (Dx * x + Dy * y + Dz * z) * (Dx * x + Dy * y + Dz * z) <= n2).
  { assert (Hid : (Dx * Dx + Dy * Dy + Dz * Dz) * n2
                  - (Dx * x + Dy * y + Dz * z) * (Dx * x + Dy * y + Dz * z)
                  = (Dx * y - Dy * x) * (Dx * y - Dy * x)
                    + (Dy * z - Dz * y) * (Dy * z - Dz * y)
                    + (Dz * x - Dx * z) * (Dz * x - Dx * z))
      by (unfold n2; ring).
    rewrite Hu in Hid.
    pose proof (Rle_0_sqr (Dx * y - Dy * x)) as S1.
    pose proof (Rle_0_sqr (Dy * z - Dz * y)) as S2.
    pose proof (Rle_0_sqr (Dz * x - Dx * z)) as S3.
    unfold Rsqr in S1, S2, S3. lra. }
  assert (Hdot : Dx * x + Dy * y + Dz * z <= 0.00004) by nra.
  replace (Rleb (Dx * (x / 0.05) + Dy * (y / 0.05) + Dz * (z / 0.05)) (Q2R 0.001))
    with true; [reflexivity|].
  symmetry. apply Rleb_true. lits. lra.
Qed.

(** The point 40 micrometres in front of a source that looks along +Y:
    on the optical axis and on the sphere of the statement, where the cosine
    is largest (0.00004 / 0.05 = 0.0008). *)
Lemma dead_zone_at_source_witness :
  0 * 0 + 0.00004 * 0.00004 + 0 * 0 <= 0.00004 * 0.00004 /\
  calculateIlluminance 0 0.00004 0 0 0 1 1 (beamPatternOf DEFAULT_BEAM_PATTERN)
  = Some 0.
Proof.
  assert (H : 0 * 0 + 0.00004 * 0.00004 + 0 * 0 <= 0.00004 * 0.00004) by lra.
  split; [exact H|].
  exact (@dead_zone_at_source 0 0.00004 0 0 0 1 1
           (beamPatternOf DEFAULT_BEAM_PATTERN) H).
Defined.

End PhysicsExtra.

(* ================================================================== *)
(** * The pair of pattern points with equal angles *)

Module DegeneratePair.
Import Physics PhysicsFacts PhysicsExtra.
Local Open Scope R_scope.

(** The angles and intensities of a beam pattern, as a table. *)
Definition knots (pat : list (BeamPoint R)) : list (R * R) :=
  map (fun b => (angle b, intensity b)) pat.

Lemma beamLoop_knots (pat : list (BeamPoint R)) (a : R) :
  beamLoop pat a = lookupLoop (knots pat) a.
Proof.
  induction pat as [|b0 [|b1 rest] IH]; [reflexivity | reflexivity |].
  change (beamLoop (b0 :: b1 :: rest) a)
    with (if (Rleb (angle b0) a && Rleb a (angle b1))%bool
          then lerp a (angle b0) (angle b1) (intensity b0) (intensity b1)
          else beamLoop (b1 :: rest) a).
  rewrite IH. reflexivity.
Qed.

(** On a table that ascends up to the knot [(x, y)], the scan stops at the
    pair that ends in that knot and interpolates at its right end, whatever
    follows the knot. *)
Lemma lookupLoop_prefix_knot (l : list (R * R)) :
  forall (first : R * R) (x y : R) (rest : list (R * R)),
    ascending (first :: l ++ [(x, y)]) ->
    lookupLoop (first :: l ++ (x, y) :: rest) x = y.
Proof.
  induction l as [|c l IH]; intros first x y rest Hasc.
  - cbn [app] in *. destruct Hasc as [Hgap _]. cbn [fst] in Hgap.
    assert (He : 0 < / 1000000000) by (apply Rinv_0_lt_compat; lra).
    change (lookupLoop (first :: (x, y) :: rest) x)
      with (if (Rleb (fst first) x && Rleb x x)%bool
            then lerp x (fst first) x (snd first) y
            else lookupLoop ((x, y) :: rest) x).
    replace (Rleb (fst first) x) with true by (symmetry; apply Rleb_true; lra).
    replace (Rleb x x) with true by (symmetry; apply Rleb_true; lra).
    cbn [andb]. rewrite lerp_nondegenerate by exact Hgap. field. lra.
  - change (first :: (c :: l) ++ [(x, y)])
      with (first :: c :: (l ++ [(x, y)])) in Hasc.
    destruct Hasc as [_ Hasc].
    assert (Hc : fst c < x).
    { apply (@ascending_tail_gt c (l ++ [(x, y)]) Hasc (x, y)).
      apply in_or_app. right. now left. }
    change (lookupLoop (first :: (c :: l) ++ (x, y) :: rest) x)
      with (if (Rleb (fst first) x && Rleb x (fst c))%bool
            then lerp x (fst first) (fst c) (snd first) (snd c)
            else lookupLoop (c :: l ++ (x, y) :: rest) x).
    replace (Rleb x (fst c)) with false by (symmetry; apply Rleb_false; lra).
    rewrite andb_false_r. now apply IH.
Qed.

(** The lookup at the common angle of a pair with equal angles. *)
Lemma equal_pair_lookup
  (pre : list (BeamPoint R)) (b0 b1 : BeamPoint R) (post : list (BeamPoint R))
  (angleDeg : R) :
  angle b1 = angle b0 ->
  Rabs angleDeg = angle b0 ->
  ascending (knots (pre ++ [b0])) ->
  angle b0 <= angle (last (pre ++ b0 :: b1 :: post) b0) ->
  getBeamIntensityDynamic (pre ++ b0 :: b1 :: post) angleDeg = Some (intensity b0).
Proof.
  intros Heq Ha Hasc Hlast. unfold getBeamIntensityDynamic.
  change (nabs angleDeg) with (Rabs angleDeg). rewrite Ha.
  destruct pre as [|f pre'].
  - cbn [app].
    change (nle (angle b0) (angle b0)) with (Rleb (angle b0) (angle b0)).
    replace (Rleb (angle b0) (angle b0)) with true
      by (symmetry; apply Rleb_true; lra).
    reflexivity.
  - change ((f :: pre') ++ b0 :: b1 :: post)
      with (f :: (pre' ++ b0 :: b1 :: post)) in *.
    assert (Hf : angle f < angle b0).
    { change (knots ((f :: pre') ++ [b0]))
        with ((angle f, intensity f) :: knots (pre' ++ [b0])) in Hasc.
      apply (@ascending_tail_gt (angle f, intensity f) (knots (pre' ++ [b0])) Hasc
               (angle b0, intensity b0)).
      unfold knots. rewrite map_app. apply in_or_app. right. now left. }
    cbv beta iota zeta.
    change (nle (angle b0) (angle f)) with (Rleb (angle b0) (angle f)).
    replace (Rleb (angle b0) (angle f)) with false
      by (symmetry; apply Rleb_false; exact Hf).
    rewrite (last_default f (pre' ++ b0 :: b1 :: post) f b0).
    match goal with
    | |- context [nlt ?u ?v] => change (nlt u v) with (Rltb u v);
                                replace (Rltb u v) with false
                                  by (symmetry; apply Rltb_false; exact Hlast)
    end.
    f_equal. rewrite beamLoop_knots.
    change (knots (f :: pre' ++ b0 :: b1 :: post))
      with ((angle f, intensity f) :: knots (pre' ++ b0 :: b1 :: post)).
    unfold knots at 1. rewrite map_app. cbn [map]. fold (knots pre').
    apply lookupLoop_prefix_knot.
    change (knots ((f :: pre') ++ [b0]))
      with ((angle f, intensity f) :: knots (pre' ++ [b0])) in Hasc.
    unfold knots at 1 in Hasc. rewrite map_app in Hasc. exact Hasc.
Qed.


(** The pattern (0, 1), (10, 0.8), (10, 0.2), (30, 0), queried at 10
    degrees. *)
Definition plateauPre : list (BeamPoint R) := [mkBeamPoint 0 1].
Definition plateauFirst : BeamPoint R := mkBeamPoint 10 0.8.
Definition plateauSecond : BeamPoint R := mkBeamPoint 10 0.2.
Definition plateauPost : list (BeamPoint R) := [mkBeamPoint 30 0].

Lemma plateau_hypotheses :
  angle plateauSecond = angle plateauFirst /\
  Rabs 10 = angle plateauFirst /\
  ascending (knots (plateauPre ++ [plateauFirst])) /\
  angle plateauFirst
  <= angle (last (plateauPre ++ plateauFirst :: plateauSecond :: plateauPost)
              plateauFirst).
Proof.
  split; [reflexivity|]. split; [simpl; rewrite Rabs_right; lra|].
  split; simpl; [repeat split|]; lra.
Qed.


(** C7 as the specification words it: at the common angle of a pair with
    equal angles the lookup would return the midpoint of the two
    intensities. *)
Definition degenerate_pair_midpoint_claim : Prop :=
  forall (pre : list (BeamPoint R)) (b0 b1 : BeamPoint R)
         (post : list (BeamPoint R)) (angleDeg : R),
    angle b1 = angle b0 ->
    Rabs angleDeg = angle b0 ->
    ascending (knots (pre ++ [b0])) ->
    angle b0 <= angle (last (pre ++ b0 :: b1 :: post) b0) ->
    getBeamIntensityDynamic (pre ++ b0 :: b1 :: post) angleDeg
    = Some ((intensity b0 + intensity b1) / 2).


End DegeneratePair.

(* ================================================================== *)
(** * Facts about the search of the optimizer *)

Module SearchFacts.
Import Physics Optimizer Search PhysicsFacts OptimizerFacts.
Local Open Scope R_scope.

Section Bisection.
Variable sourceIntensity spectralCorrection threshold : R.
Variable beamPattern : list (BeamPoint R).
Hypothesis Hpattern : beamPattern <> [].

(** With a non-empty beam pattern the summed field is defined at every
    point. *)
Lemma totalAt_defined (cfg : list (LedConfig R)) (p : Point3D R) :
  exists total, totalAt cfg p sourceIntensity spectralCorrection beamPattern = Some total.
Proof.
  unfold totalAt. generalize (lit (T:=R) 0) as t0.
  induction cfg as [|c cfg IH]; intros t0; simpl.
  - eauto.
  - destruct (calculateIlluminance_linear (p3x p) (p3y p) (p3z p) (led_h c)
                (led_v c) spectralCorrection Hpattern) as [K [_ ->]].
    apply IH.
Qed.

Variable cfg : list (LedConfig R).
Variable startP dir : Point3D R.
Variable maxDist : R.

(** The field reaches the threshold at distance [d] from [startP] along
    [dir]. *)
Definition litAt (d : R) : Prop :=
  exists total,
    totalAt cfg
      (mkPoint3D (p3x startP + p3x dir * d) (p3y startP + p3y dir * d)
                 (p3z startP + p3z dir * d))
      sourceIntensity spectralCorrection beamPattern = Some total /\
    threshold <= total.

(** After [i] iterations the bracket is the [n]-th of the [2^i] equal
    parts of [0, maxDist], and [limit] is its lower end. *)
Definition bracket (i n : nat) (st : Bisect R) : Prop :=
  (n < 2 ^ i)%nat /\
  low st = INR n * maxDist / 2 ^ i /\
  high st = (INR n + 1) * maxDist / 2 ^ i /\
  limit st = low st /\
  (n = 0%nat \/ litAt (low st)).

Lemma findExtentStep_bracket (i n : nat) (st : Bisect R) :
  bracket i n st ->
  exists n' st',
    findExtentStep sourceIntensity spectralCorrection threshold beamPattern
      cfg startP dir st = Some st' /\
    bracket (S i) n' st'.
Proof.
  intros (Hn & Hlow & Hhigh & Hlim & Hlit).
  assert (Hpow : 2 ^ i <> 0) by (apply pow_nonzero; lra).
  assert (H2 : Q2R 2 = 2) by (unfold Q2R; simpl; lra).
  assert (Hmid : (low st + high st) / 2 = (2 * INR n + 1) * maxDist / 2 ^ S i).
  { rewrite Hlow, Hhigh. simpl pow. field. exact Hpow. }
  unfold findExtentStep. cbv zeta.
  change (@nadd R _) with Rplus. change (@nmul R _) with Rmult.
  change (@ndiv R _) with Rdiv. change (lit (T:=R) 2) with (Q2R 2). rewrite H2.
  set (mid := (low st + high st) / 2) in *.
  destruct (totalAt_defined cfg
              (mkPoint3D (p3x startP + p3x dir * mid) (p3y startP + p3y dir * mid)
                         (p3z startP + p3z dir * mid))) as [total Htot].
  rewrite Htot.
  change (nle threshold total) with (Rleb threshold total).
  destruct (Rleb threshold total) eqn:E.
  - apply Rleb_true in E.
    exists (2 * n + 1)%nat. eexists. split; [reflexivity|].
    unfold bracket. cbn [low high limit].
    split; [rewrite Nat.pow_succ_r'; lia|].
    rewrite plus_INR, mult_INR. change (INR 2) with 2. change (INR 1) with 1.
    split; [exact Hmid|]. split.
    { rewrite Hhigh. simpl pow. field. exact Hpow. }
    split; [reflexivity|]. right. exists total. auto.
  - exists (2 * n)%nat. eexists. split; [reflexivity|].
    unfold bracket. cbn [low high limit].
    split; [rewrite Nat.pow_succ_r'; lia|].
    rewrite mult_INR. change (INR 2) with 2.
    split; [rewrite Hlow; simpl pow; field; exact Hpow|].
    split; [rewrite Hmid; reflexivity|].
    split; [exact Hlim|].
    destruct Hlit as [->|Hl]; [left; reflexivity | right; exact Hl].
Qed.

Lemma findExtentLoop_bracket (k : nat) :
  forall i n st,
    bracket i n st ->
    exists n' st',
      findExtentLoop sourceIntensity spectralCorrection threshold beamPattern
        k cfg startP dir st = Some st' /\
      bracket (k + i) n' st'.
Proof.
  induction k as [|k IH]; intros i n st Hb.
  - exists n, st. split; [reflexivity | exact Hb].
  - cbn [findExtentLoop].
    destruct (findExtentStep_bracket Hb) as (n1 & st1 & -> & Hb1).
    destruct (IH _ _ _ Hb1) as (n2 & st2 & Hl & Hb2).
    exists n2, st2. split; [exact Hl|].
    replace (S k + i)%nat with (k + S i)%nat by lia. exact Hb2.
Qed.

Lemma findExtent_grid :
  exists n : nat,
    (n < 4096)%nat /\
    findExtent sourceIntensity spectralCorrection threshold beamPattern
      cfg startP dir maxDist = Some (INR n * maxDist / 4096) /\
    (n = 0%nat \/ litAt (INR n * maxDist / 4096)).
Proof.
  assert (H0 : Q2R 0 = 0) by (unfold Q2R; simpl; lra).
  destruct (@findExtentLoop_bracket 12 0 0
              (mkBisect (lit 0) maxDist (lit 0)))
    as (n & st & Hl & Hn & Hlow & _ & Hlim & Hlit).
  { unfold bracket. cbn [low high limit]. simpl. rewrite H0.
    repeat split; try lra; lia. }
  exists n. split; [exact Hn|].
  assert (H4096 : 2 ^ (12 + 0) = 4096) by (simpl; lra).
  rewrite H4096 in Hlow.
  unfold findExtent. rewrite Hl, Hlim, Hlow. split; [reflexivity|].
  rewrite <- Hlow. exact Hlit.
Qed.

(** X18: with a non-empty beam pattern the bisection of [findExtent]
    returns, and what it returns is a multiple [n * maxDist / 4096] of the
    4096-th part of the search bound with [n <= 4095]: below the bound when
    the bound is positive.  A result with [n] other than 0 is a distance at
    which the summed field was found at or above the threshold. *)
Theorem findExtent_returns_sampled_distance :
  exists n : nat,
    (n <= 4095)%nat /\
    findExtent sourceIntensity spectralCorrection threshold beamPattern
      cfg startP dir maxDist = Some (INR n * maxDist / 4096) /\
    (n = 0%nat \/ litAt (INR n * maxDist / 4096)).
Proof.
  destruct findExtent_grid as (n & Hn & Hf & Hl).
  exists n. split; [lia|]. split; [exact Hf | exact Hl].
Qed.

(** For a search bound that is not negative the result lies in
    [0, maxDist]. *)
Lemma findExtent_bounds :
  0 <= maxDist ->
  exists d,
    findExtent sourceIntensity spectralCorrection threshold beamPattern
      cfg startP dir maxDist = Some d /\
    0 <= d <= maxDist.
Proof.
  intros HM. destruct findExtent_grid as (n & Hn & Hf & _).
  eexists; split; [exact Hf|].
  assert (H0 : 0 <= INR n) by apply pos_INR.
  assert (H1 : INR n <= 4096).
  { assert (H4096 : INR 4096 = 4096) by (rewrite INR_IZR_INZ; simpl Z.of_nat; lra).
    apply lt_INR in Hn. lra. }
  split.
  - unfold Rdiv. apply Rmult_le_pos; [|lra]. now apply Rmult_le_pos.
  - apply (Rmult_le_reg_r 4096); [lra|].
    unfold Rdiv. rewrite Rmult_assoc, Rinv_l by lra. nra.
Qed.

End Bisection.

Lemma findExtent_returns_sampled_distance_witness :
  beamPatternOf (T:=R) DEFAULT_BEAM_PATTERN <> [] /\
  exists n : nat,
    (n <= 4095)%nat /\
    findExtent 1 1 (/ 1000000) (beamPatternOf DEFAULT_BEAM_PATTERN)
      [mkLed 0 0] (mkPoint3D 0 0 0) (mkPoint3D 0 1 0) 4000
    = Some (INR n * 4000 / 4096) /\
    (n = 0%nat \/
     litAt 1 1 (/ 1000000) (beamPatternOf DEFAULT_BEAM_PATTERN)
       [mkLed 0 0] (mkPoint3D 0 0 0) (mkPoint3D 0 1 0) (INR n * 4000 / 4096)).
Proof.
  assert (H1 : beamPatternOf (T:=R) DEFAULT_BEAM_PATTERN <> []) by discriminate.
  split; [exact H1|].
  exact (@findExtent_returns_sampled_distance 1 1 (/ 1000000)
           (beamPatternOf DEFAULT_BEAM_PATTERN) H1
           [mkLed 0 0] (mkPoint3D 0 0 0) (mkPoint3D 0 1 0) 4000).
Defined.

(** ** The list of results *)

Section Results.
Variable sourceIntensity spectralCorrection threshold : R.
Variable beamPattern : list (BeamPoint R).
Hypothesis Hpattern : beamPattern <> [].
Variable ledCount rowCount : nat.
Variable targetW targetH targetR : R.
Hypothesis HtargetW : 0 <= targetW.
Hypothesis HtargetH : 0 <= targetH.
Hypothesis HtargetR : 0 <= targetR.

(** The coverage of a candidate is a percentage. *)
Lemma coverage_percent (h v : R) :
  exists c,
    coverage ledCount rowCount sourceIntensity spectralCorrection threshold
      beamPattern targetW targetH targetR h v = Some c /\
    0 <= c <= 100.
Proof.
  unfold coverage.
  set (pts := samples targetW targetH targetR).
  set (cfg := generateLedConfig ledCount h rowCount v).
  set (total := fun p =>
         match totalAt cfg p sourceIntensity spectralCorrection beamPattern with
         | Some t => t
         | None => 0
         end).
  rewrite (@countHits_counts R _ _ cfg pts sourceIntensity spectralCorrection
             threshold beamPattern total).
  - eexists; split; [reflexivity|].
    rewrite !of_nat_R.
    change nmul with Rmult. change ndiv with Rdiv. change (lit 100) with (Q2R 100).
    assert (Hlen : INR (length pts) = 200).
    { unfold pts. rewrite samples_length, INR_IZR_INZ. simpl Z.of_nat. lra. }
    rewrite Hlen.
    set (hits := length (filter (fun p => (total p >=? threshold)%js) pts)).
    assert (Hhits : INR hits <= 200).
    { rewrite <- Hlen. apply le_INR. apply filter_length_le. }
    pose proof (pos_INR hits). lra.
  - intros p _. unfold total.
    destruct (totalAt_defined sourceIntensity spectralCorrection Hpattern cfg p)
      as [t ->].
    reflexivity.
Qed.

(** What every result pushed by the search satisfies. *)
Definition goodResult (res : OptResult R) : Prop :=
  In (res_h res) candidateAngles /\ In (res_v res) candidateAngles /\
  2 < vol res <= 100 /\
  0 <= r res <= 2 * targetR /\
  0 <= w res <= 4 * targetW /\
  0 <= hDim res <= 4 * targetH.

Lemma evalCandidate_good (h v : R) :
  In h candidateAngles -> In v candidateAngles ->
  exists pushed,
    evalCandidate sourceIntensity spectralCorrection threshold beamPattern
      ledCount rowCount targetW targetH targetR h v = Some pushed /\
    Forall goodResult pushed.
Proof.
  intros Hh Hv. unfold evalCandidate.
  destruct (coverage_percent h v) as [c [-> Hc]].
  assert (H2 : Q2R 2 = 2) by (unfold Q2R; simpl; lra).
  change (nlt (lit 2) c) with (Rltb (Q2R 2) c).
  destruct (Rltb (Q2R 2) c) eqn:E; [|exists []; split; [reflexivity | constructor]].
  apply Rltb_true in E. rewrite H2 in E.
  change (@nmul R _) with Rmult. change (lit (T:=R) 2) with (Q2R 2). rewrite H2.
  set (cfg := generateLedConfig ledCount h rowCount v).
  destruct (@findExtent_bounds sourceIntensity spectralCorrection threshold
              beamPattern Hpattern cfg (mkPoint3D (lit 0) (lit 0) (lit 0))
              (mkPoint3D (lit 0) (lit 1) (lit 0)) (targetR * 2))
    as [range [-> Hrange]]; [lra|].
  destruct (@findExtent_bounds sourceIntensity spectralCorrection threshold
              beamPattern Hpattern cfg
              (mkPoint3D (lit 0) (range * lit 0.5) (lit 0))
              (mkPoint3D (lit 1) (lit 0) (lit 0)) (targetW * 2))
    as [halfWidth [-> HhalfW]]; [lra|].
  destruct (@findExtent_bounds sourceIntensity spectralCorrection threshold
              beamPattern Hpattern cfg
              (mkPoint3D (lit 0) (range * lit 0.5) (lit 0))
              (mkPoint3D (lit 0) (lit 0) (lit 1)) (targetH * 2))
    as [halfHeight [-> HhalfH]]; [lra|].
  eexists; split; [reflexivity|].
  constructor; [|constructor].
  unfold goodResult. cbn [res_h res_v vol w hDim r].
  repeat split; auto; lra.
Qed.

Lemma collectResults_good :
  exists validResults,
    collectResults sourceIntensity spectralCorrection threshold beamPattern
      ledCount rowCount targetW targetH targetR = Some validResults /\
    Forall goodResult validResults.
Proof.
  unfold collectResults.
  set (cands := flat_map (fun h => map (fun v => (h, v)) candidateAngles)
                  (candidateAngles (T:=R))).
  assert (Hc : forall hv, In hv cands ->
                 In (fst hv) candidateAngles /\ In (snd hv) candidateAngles).
  { intros hv Hin. unfold cands in Hin.
    apply in_flat_map in Hin as [h [Hh Hin]].
    apply in_map_iff in Hin as [v [<- Hv]]. auto. }
  assert (Hacc : Forall goodResult (@nil (OptResult R))) by constructor.
  revert Hc Hacc. generalize (@nil (OptResult R)) as acc.
  induction cands as [|hv cands IH]; intros acc Hc Hacc.
  - exists acc. auto.
  - cbn [fold_left].
    destruct (Hc hv (or_introl eq_refl)) as [Hh Hv].
    destruct (evalCandidate_good Hh Hv) as [pushed [-> Hp]].
    apply IH.
    + intros hv' Hin. apply Hc. now right.
    + apply Forall_app. auto.
Qed.

(** [vol] does not increase along the list. *)
Definition descending (l : list (OptResult R)) : Prop :=
  StronglySorted (fun a b => vol b <= vol a) l.

Lemma insertResult_cons (x y : OptResult R) (l : list (OptResult R)) :
  insertResult x (y :: l) =
  if Rltb (Q2R 0) (vol x - vol y) then x :: y :: l else y :: insertResult x l.
Proof. reflexivity. Qed.

Lemma In_insertResult (x y : OptResult R) (l : list (OptResult R)) :
  In y (insertResult x l) -> y = x \/ In y l.
Proof.
  induction l as [|z l IH].
  - intros [<-|[]]. now left.
  - rewrite insertResult_cons. destruct (Rltb _ _); simpl.
    + intros [<-|Hin]; auto.
    + intros [<-|Hin]; auto. destruct (IH Hin); auto.
Qed.

Lemma length_insertResult (x : OptResult R) (l : list (OptResult R)) :
  length (insertResult x l) = S (length l).
Proof.
  induction l as [|y l IH]; [reflexivity|].
  rewrite insertResult_cons. destruct (Rltb _ _); simpl; [reflexivity|].
  now rewrite IH.
Qed.

Lemma insertResult_descending (x : OptResult R) (l : list (OptResult R)) :
  descending l -> descending (insertResult x l).
Proof.
  assert (H0 : Q2R 0 = 0) by (unfold Q2R; simpl; lra).
  induction 1 as [|y l Hsorted IH Hy].
  - simpl. constructor; constructor.
  - rewrite insertResult_cons.
    destruct (Rltb (Q2R 0) (vol x - vol y)) eqn:E.
    + apply Rltb_true in E. rewrite H0 in E.
      constructor; [constructor; assumption|].
      constructor; [lra|].
      rewrite Forall_forall in *. intros z Hz. specialize (Hy z Hz). lra.
    + apply Rltb_false in E. rewrite H0 in E.
      constructor; [exact IH|].
      rewrite Forall_forall in *. intros z Hz.
      destruct (In_insertResult _ _ _ Hz) as [->|Hin]; [lra | now apply Hy].
Qed.

Lemma sortResults_spec (P : OptResult R -> Prop) (l : list (OptResult R)) :
  Forall P l ->
  descending (sortResults l) /\ Forall P (sortResults l) /\
  length (sortResults l) = length l.
Proof.
  unfold sortResults. intros Hl.
  assert (Hgen : forall acc,
            descending acc -> Forall P acc ->
            descending (fold_left (fun sorted x => insertResult x sorted) l acc) /\
            Forall P (fold_left (fun sorted x => insertResult x sorted) l acc) /\
            length (fold_left (fun sorted x => insertResult x sorted) l acc)
            = (length acc + length l)%nat).
  { induction Hl as [|x l Hx Hl IH]; intros acc Hd Hacc.
    - simpl. repeat split; auto.
    - cbn [fold_left].
      destruct (IH (insertResult x acc)) as (H1 & H2 & H3).
      + now apply insertResult_descending.
      + rewrite Forall_forall in *. intros y Hy.
        destruct (In_insertResult _ _ _ Hy) as [->|Hin]; auto.
      + repeat split; auto. rewrite H3. cbn [length].
        rewrite length_insertResult. lia. }
  destruct (Hgen []) as (H1 & H2 & H3); [constructor | constructor |].
  auto.
Qed.

Lemma firstn_descending (n : nat) (l : list (OptResult R)) :
  descending l -> descending (firstn n l).
Proof.
  intros Hd. revert n. induction Hd as [|x l Hs IH Hx]; intros n.
  - rewrite firstn_nil. constructor.
  - destruct n; [constructor|]. cbn [firstn]. constructor; [apply IH|].
    rewrite Forall_forall in *. intros y Hy. apply Hx.
    rewrite <- (firstn_skipn n l). apply in_or_app. now left.
Qed.

Lemma firstn_Forall {A} (P : A -> Prop) (n : nat) (l : list A) :
  Forall P l -> Forall P (firstn n l).
Proof.
  intros Hl. rewrite Forall_forall in *. intros y Hy. apply Hl.
  rewrite <- (firstn_skipn n l). apply in_or_app. now left.
Qed.

(** X19: with a non-empty beam pattern and a target box whose three
    dimensions are not negative, the search of [handleOptimize] returns;
    its list has at most 100 results, ordered by coverage, best first;
    every result comes from a candidate with [h] and [v] among
    0, 2, ..., 80, has a coverage above 2 and at most 100, a range between
    0 and twice the target range, and a width and a height between 0 and
    four times those of the target. *)
Theorem handleOptimize_results :
  exists results,
    handleOptimize sourceIntensity spectralCorrection threshold beamPattern
      ledCount rowCount targetW targetH targetR = Some results /\
    (length results <= 100)%nat /\
    descending results /\
    Forall goodResult results.
Proof.
  unfold handleOptimize.
  destruct collectResults_good as [validResults [-> Hgood]].
  destruct (sortResults_spec Hgood) as (Hd & Hf & _).
  eexists; split; [reflexivity|]. split; [|split].
  - rewrite length_firstn. lia.
  - now apply firstn_descending.
  - now apply firstn_Forall.
Qed.

End Results.

Lemma handleOptimize_results_witness :
  beamPatternOf (T:=R) DEFAULT_BEAM_PATTERN <> [] /\
  0 <= 1000 /\ 0 <= 600 /\ 0 <= 2000 /\
  exists results,
    handleOptimize 1 1 (/ 1000000) (beamPatternOf DEFAULT_BEAM_PATTERN)
      3 1 1000 600 2000 = Some results /\
    (length results <= 100)%nat /\
    descending results /\
    Forall (goodResult 1000 600 2000) results.
Proof.
  assert (H1 : beamPatternOf (T:=R) DEFAULT_BEAM_PATTERN <> []) by discriminate.
  assert (H2 : 0 <= 1000) by lra.
  assert (H3 : 0 <= 600) by lra.
  assert (H4 : 0 <= 2000) by lra.
  split; [exact H1|]. split; [exact H2|]. split; [exact H3|]. split; [exact H4|].
  exact (@handleOptimize_results 1 1 (/ 1000000)
           (beamPatternOf DEFAULT_BEAM_PATTERN) H1 3 1 1000 600 2000 H2 H3 H4).
Defined.

End SearchFacts.

(* ================================================================== *)
(** * Facts about the array of sources *)

Module OptimizerExtra.
Import Physics Optimizer PhysicsFacts.

Section Array.
Context {T : Type} `{Number T} `{MathLib T}.

Lemma spreadAngles_length (count : nat) (spread : T) :
  length (spreadAngles count spread) = count.
Proof.
  unfold spreadAngles. destruct (Nat.eqb count 1) eqn:E.
  - apply Nat.eqb_eq in E. now subst.
  - now rewrite length_map, length_seq.
Qed.

(** X20: the array has one source for every pair of a column and a row:
    [ledCount * rowCount] sources, whatever the two spread angles are (and
    none when either count is 0). *)
Theorem generateLedConfig_length (ledCount rowCount : nat)
  (spreadAngle verticalSpreadAngle : T) :
  length (generateLedConfig ledCount spreadAngle rowCount verticalSpreadAngle)
  = ledCount * rowCount.
Proof.
  unfold generateLedConfig.
  assert (Hprod : forall hAngles vAngles : list T,
            length (flat_map (fun h => map (fun v => mkLed h v) vAngles) hAngles)
            = length hAngles * length vAngles).
  { intros hAngles vAngles. induction hAngles as [|h hAngles IH]; [reflexivity|].
    cbn [flat_map length]. rewrite length_app, length_map, IH. lia. }
  now rewrite Hprod, !spreadAngles_length.
Qed.

End Array.

Local Open Scope R_scope.

Lemma spreadAngles_bound (count : nat) (spread a : R) :
  0 <= spread -> In a (spreadAngles count spread) ->
  Rabs a <= spread * PI / 180.
Proof.
  intros Hs Hin.
  assert (Hpi : 0 < PI) by apply PI_RGT_0.
  assert (Hhalf : 0 <= spread * PI / 180).
  { unfold Rdiv. apply Rmult_le_pos; [|lra]. apply Rmult_le_pos; lra. }
  unfold spreadAngles in Hin. destruct (Nat.eqb count 1) eqn:E.
  - destruct Hin as [<-|[]]. simpl. rewrite PhysicsExtra.lit_0, Rabs_R0. exact Hhalf.
  - apply Nat.eqb_neq in E.
    apply in_map_iff in Hin as [i [<- Hi]]. apply in_seq in Hi.
    assert (H180 : Q2R 180 = 180) by (unfold Q2R; simpl; lra).
    assert (H2 : Q2R 2 = 2) by (unfold Q2R; simpl; lra).
    assert (H1 : Q2R 1 = 1) by (unfold Q2R; simpl; lra).
    rewrite !of_nat_R. simpl. rewrite H180, H2, H1.
    set (half := spread * PI / 180) in *.
    assert (Hc : 2 <= INR count).
    { change 2 with (INR 2). apply le_INR. lia. }
    assert (Hi0 : 0 <= INR i) by apply pos_INR.
    assert (Hi1 : INR i <= INR count - 1).
    { assert (Hle : (i + 1 <= count)%nat) by lia.
      apply le_INR in Hle. rewrite plus_INR in Hle. simpl in Hle. lra. }
    set (t := INR i / (INR count - 1)).
    assert (Ht : 0 <= t <= 1).
    { unfold t. split.
      - apply Rmult_le_pos; [lra|]. left. apply Rinv_0_lt_compat. lra.
      - apply (Rmult_le_reg_r (INR count - 1)); [lra|].
        unfold Rdiv. rewrite Rmult_assoc, Rinv_l by lra. lra. }
    replace (- half + INR i * (half * 2 / (INR count - 1)))
      with (half * (2 * t - 1)) by (unfold t; field; lra).
    apply Rabs_le. nra.
Qed.

(** X21: the fan of sources stays within the spread: when the two spread
    angles are not negative, the yaw of every source is within
    [spreadAngle] degrees of the axis and its pitch within
    [verticalSpreadAngle] degrees, in radians. *)
Theorem led_angles_within_spread (ledCount rowCount : nat)
  (spreadAngle verticalSpreadAngle : R) (c : LedConfig R) :
  0 <= spreadAngle -> 0 <= verticalSpreadAngle ->
  In c (generateLedConfig ledCount spreadAngle rowCount verticalSpreadAngle) ->
  Rabs (led_h c) <= spreadAngle * PI / 180 /\
  Rabs (led_v c) <= verticalSpreadAngle * PI / 180.
Proof.
  intros Hs Hv Hin. unfold generateLedConfig in Hin.
  apply in_flat_map in Hin as [h [Hh Hin]].
  apply in_map_iff in Hin as [v [<- Hvin]]. cbn [led_h led_v].
  split; [now apply (spreadAngles_bound ledCount) | now apply (spreadAngles_bound rowCount)].
Qed.

Lemma led_angles_within_spread_witness :
  0 <= 45 /\ 0 <= 0 /\
  In (mkLed (- (45 * PI / 180) + INR 0 * (45 * PI / 180 * 2 / (INR 3 - 1))) 0)
     (generateLedConfig 3 45 1 0) /\
  Rabs (led_h (mkLed (- (45 * PI / 180) + INR 0 * (45 * PI / 180 * 2 / (INR 3 - 1))) 0))
  <= 45 * PI / 180 /\
  Rabs (led_v (mkLed (- (45 * PI / 180) + INR 0 * (45 * PI / 180 * 2 / (INR 3 - 1))) 0))
  <= 0 * PI / 180.
Proof.
  assert (H1 : 0 <= 45) by lra.
  assert (H2 : 0 <= 0) by lra.
  assert (H3 : In (mkLed (- (45 * PI / 180) + INR 0 * (45 * PI / 180 * 2 / (INR 3 - 1))) 0)
                  (generateLedConfig 3 45 1 0)).
  { unfold generateLedConfig. apply in_flat_map.
    exists (- (45 * PI / 180) + INR 0 * (45 * PI / 180 * 2 / (INR 3 - 1))). split.
    - unfold spreadAngles. cbn [Nat.eqb seq map]. left.
      rewrite !of_nat_R. simpl.
      assert (H180 : Q2R 180 = 180) by (unfold Q2R; simpl; lra).
      assert (H2' : Q2R 2 = 2) by (unfold Q2R; simpl; lra).
      assert (H1' : Q2R 1 = 1) by (unfold Q2R; simpl; lra).
      rewrite H180, H2', H1'. reflexivity.
    - unfold spreadAngles. cbn [Nat.eqb map]. left. f_equal.
      simpl. apply PhysicsExtra.lit_0. }
  split; [exact H1|]. split; [exact H2|]. split; [exact H3|].
  exact (@led_angles_within_spread 3 1 45 0 _ H1 H2 H3).
Defined.

(** ** Flashing lowers the threshold *)

(** [params] with another value of [isFlashing]. *)
Definition withFlashing (params : SimulationParams R) (b : bool) : SimulationParams R :=
  mkParams (ledCount params) (rowCount params) (peakCandela params)
           (wavelength params) (logThreshold params) b (beamPattern params).

Lemma filter_length_mono {A} (f g : A -> bool) (l : list A) :
  (forall x, f x = true -> g x = true) ->
  (length (filter f l) <= length (filter g l))%nat.
Proof.
  intros Hfg. induction l as [|a l IH]; [reflexivity|].
  simpl. destruct (f a) eqn:Ef.
  - rewrite (Hfg a Ef). simpl. lia.
  - destruct (g a); simpl; lia.
Qed.

(** The value of the summed field, 0 standing for an exception. *)
Definition fieldAt (cfg : list (LedConfig R)) (I s : R) (pat : list (BeamPoint R))
  (p : Point3D R) : R :=
  match totalAt cfg p I s pat with
  | Some t => t
  | None => 0
  end.

Lemma totalAt_fieldAt (cfg : list (LedConfig R)) (I s : R)
  (pat : list (BeamPoint R)) (p : Point3D R) :
  pat <> [] -> totalAt cfg p I s pat = Some (fieldAt cfg I s pat p).
Proof.
  intros Hne. unfold fieldAt.
  destruct (SearchFacts.totalAt_defined I s Hne cfg p) as [t ->]. reflexivity.
Qed.

(** X24: flashing never reduces the coverage of a candidate: with a
    non-empty beam pattern, the coverage computed with [isFlashing] set is
    at least the one computed without it, all else equal, because the
    threshold [10^logThreshold] is positive and is divided by 8. *)
Theorem flashing_never_reduces_coverage
  (params : SimulationParams R) (optTargets : OptTargets R) (h v : R) :
  beamPattern params <> [] ->
  exists steady flashing,
    candidateCoverage (withFlashing params false) optTargets h v = Some steady /\
    candidateCoverage (withFlashing params true) optTargets h v = Some flashing /\
    steady <= flashing.
Proof.
  intros Hne. unfold candidateCoverage.
  change (wavelength (withFlashing params false)) with (wavelength params).
  change (wavelength (withFlashing params true)) with (wavelength params).
  destruct (spectral_factor_ge_1 (wavelength params)) as [s [-> _]].
  unfold coverage.
  change (ledCount (withFlashing params false)) with (ledCount params).
  change (ledCount (withFlashing params true)) with (ledCount params).
  change (rowCount (withFlashing params false)) with (rowCount params).
  change (rowCount (withFlashing params true)) with (rowCount params).
  change (beamPattern (withFlashing params false)) with (beamPattern params).
  change (beamPattern (withFlashing params true)) with (beamPattern params).
  change (sourceIntensity (withFlashing params false)) with (sourceIntensity params).
  change (sourceIntensity (withFlashing params true)) with (sourceIntensity params).
  set (pts := samples _ _ _).
  set (cfg := generateLedConfig _ _ _ _).
  set (total := fieldAt cfg (sourceIntensity params) s (beamPattern params)).
  rewrite !(@OptimizerFacts.countHits_counts R _ _ cfg pts (sourceIntensity params) s
              _ (beamPattern params) total)
    by (intros p _; now apply totalAt_fieldAt).
  do 2 eexists. split; [reflexivity|]. split; [reflexivity|].
  rewrite !of_nat_R.
  change nmul with Rmult. change ndiv with Rdiv. change (lit 100) with (Q2R 100).
  assert (Hlen : INR (length pts) = 200).
  { unfold pts. rewrite OptimizerFacts.samples_length, INR_IZR_INZ.
    simpl Z.of_nat. lra. }
  rewrite Hlen.
  assert (Hhits :
    (length (filter (fun p => (total p >=? effectiveThreshold (withFlashing params false))%js) pts)
     <= length (filter (fun p => (total p >=? effectiveThreshold (withFlashing params true))%js) pts))%nat).
  { apply filter_length_mono. intros p.
    unfold effectiveThreshold. cbn [isFlashing logThreshold withFlashing].
    change (nle ?a ?b) with (Rleb a b).
    change (@ndiv R _) with Rdiv. change (mpow (T:=R)) with Rpower.
    intros Hp. apply Rleb_true in Hp. apply Rleb_true.
    assert (Hpos : 0 < Rpower (lit 10) (logThreshold params))
      by (unfold Rpower; apply exp_pos).
    assert (H8 : Q2R 8 = 8) by (unfold Q2R; simpl; lra).
    change (lit (T:=R) 8) with (Q2R 8). rewrite H8. lra. }
  apply le_INR in Hhits. lra.
Qed.

Lemma flashing_never_reduces_coverage_witness :
  beamPattern OptimizerFacts.exampleParams <> [] /\
  exists steady flashing,
    candidateCoverage (withFlashing OptimizerFacts.exampleParams false)
      (mkTargets 1000 600 2000) 20 10 = Some steady /\
    candidateCoverage (withFlashing OptimizerFacts.exampleParams true)
      (mkTargets 1000 600 2000) 20 10 = Some flashing /\
    steady <= flashing.
Proof.
  assert (Hne : beamPattern OptimizerFacts.exampleParams <> [])
    by (simpl; discriminate).
  split; [exact Hne|].
  exact (@flashing_never_reduces_coverage OptimizerFacts.exampleParams
           (mkTargets 1000 600 2000) 20 10 Hne).
Defined.

(** ** The field of the array is mirror-symmetric *)

Lemma illuminance_mirror_x (x y z angleH angleV I s : R) (pat : list (BeamPoint R)) :
  calculateIlluminance (- x) y z angleH angleV I s pat
  = calculateIlluminance x y z (- angleH) angleV I s pat.
Proof.
  rewrite !PhysicsExtra.calculateIlluminance_R. cbv zeta.
  rewrite sin_neg, cos_neg.
  replace (- x * - x) with (x * x) by ring.
  set (d := Rmax (Q2R 0.05) (sqrt (x * x + y * y + z * z))).
  replace (sin angleH * cos angleV * (- x / d)) with (- sin angleH * cos angleV * (x / d))
    by (unfold Rdiv; ring).
  reflexivity.
Qed.

Lemma illuminance_mirror_z (x y z angleH angleV I s : R) (pat : list (BeamPoint R)) :
  calculateIlluminance x y (- z) angleH angleV I s pat
  = calculateIlluminance x y z angleH (- angleV) I s pat.
Proof.
  rewrite !PhysicsExtra.calculateIlluminance_R. cbv zeta.
  rewrite sin_neg, cos_neg.
  replace (- z * - z) with (z * z) by ring.
  set (d := Rmax (Q2R 0.05) (sqrt (x * x + y * y + z * z))).
  replace (sin angleV * (- z / d)) with (- sin angleV * (z / d))
    by (unfold Rdiv; ring).
  reflexivity.
Qed.

Definition sumR (l : list R) : R := fold_right Rplus 0 l.

Lemma sumR_app (l1 l2 : list R) : sumR (l1 ++ l2) = sumR l1 + sumR l2.
Proof. induction l1 as [|a l1 IH]; simpl; [lra | rewrite IH; lra]. Qed.

Lemma sumR_rev (l : list R) : sumR (rev l) = sumR l.
Proof.
  induction l as [|a l IH]; [reflexivity|].
  simpl. rewrite sumR_app, IH. simpl. lra.
Qed.

(** The contribution of one source, 0 standing for an exception. *)
Definition contribution (I s : R) (pat : list (BeamPoint R)) (p : Point3D R)
  (h v : R) : R :=
  match calculateIlluminance (p3x p) (p3y p) (p3z p) h v I s pat with
  | Some e => e
  | None => 0
  end.

Lemma totalAt_sum (cfg : list (LedConfig R)) (I s : R) (pat : list (BeamPoint R))
  (p : Point3D R) :
  pat <> [] ->
  totalAt cfg p I s pat
  = Some (sumR (map (fun c => contribution I s pat p (led_h c) (led_v c)) cfg)).
Proof.
  intros Hne. unfold totalAt.
  assert (Hgen : forall t0,
    fold_left
      (fun total c =>
         match total with
         | None => None
         | Some t =>
             match calculateIlluminance (p3x p) (p3y p) (p3z p) (led_h c) (led_v c)
                     I s pat with
             | None => None
             | Some e => Some (t + e)%js
             end
         end) cfg (Some t0)
    = Some (t0 + sumR (map (fun c => contribution I s pat p (led_h c) (led_v c)) cfg))).
  { induction cfg as [|c cfg IH]; intros t0; simpl.
    - f_equal. lra.
    - unfold contribution at 1.
      destruct (calculateIlluminance_linear (p3x p) (p3y p) (p3z p) (led_h c)
                  (led_v c) s Hne) as [K [_ HK]].
      rewrite !HK. rewrite IH. f_equal. lra. }
  rewrite Hgen. f_equal. change (lit (T:=R) 0) with (Q2R 0).
  rewrite PhysicsExtra.lit_0. lra.
Qed.

Lemma sum_product (g : R -> R -> R) (hAngles vAngles : list R) :
  sumR (map (fun c => g (led_h c) (led_v c))
          (flat_map (fun h => map (fun v => mkLed h v) vAngles) hAngles))
  = sumR (map (fun h => sumR (map (g h) vAngles)) hAngles).
Proof.
  induction hAngles as [|h hAngles IH]; [reflexivity|].
  cbn [flat_map map]. rewrite map_app, sumR_app, IH, map_map. reflexivity.
Qed.

Lemma rev_seq (n : nat) :
  rev (seq 0 n) = map (fun i => (n - 1 - i)%nat) (seq 0 n).
Proof.
  induction n as [|n IH]; [reflexivity|].
  rewrite seq_S at 1. rewrite rev_app_distr. cbn [rev app plus].
  cbn [seq map]. f_equal; [lia|].
  rewrite IH, <- seq_shift, map_map.
  apply map_ext. intros i. lia.
Qed.

(** The fan of angles is symmetric about 0. *)
Lemma spreadAngles_opp (count : nat) (spread : R) :
  map Ropp (spreadAngles count spread) = rev (spreadAngles count spread).
Proof.
  unfold spreadAngles. destruct (Nat.eqb count 1) eqn:E.
  - simpl. rewrite PhysicsExtra.lit_0. f_equal. lra.
  - apply Nat.eqb_neq in E.
    rewrite <- map_rev, rev_seq, !map_map.
    apply map_ext_in. intros i Hi. apply in_seq in Hi.
    assert (H180 : Q2R 180 = 180) by (unfold Q2R; simpl; lra).
    assert (H2 : Q2R 2 = 2) by (unfold Q2R; simpl; lra).
    assert (H1 : Q2R 1 = 1) by (unfold Q2R; simpl; lra).
    rewrite !of_nat_R. simpl. rewrite H180, H2, H1.
    assert (Hc : 2 <= INR count).
    { change 2 with (INR 2). apply le_INR. lia. }
    rewrite !minus_INR by lia. change (INR 1) with 1.
    field. lra.
Qed.

Lemma sumR_map_opp (G : R -> R) (l : list R) :
  map Ropp l = rev l -> sumR (map (fun a => G (- a)) l) = sumR (map G l).
Proof.
  intros Hl. rewrite <- (sumR_rev (map G l)), <- map_rev, <- Hl, map_map.
  reflexivity.
Qed.

(** X25: the summed field of the array is mirror-symmetric: with a
    non-empty beam pattern, the total at [(-x, y, z)] and the total at
    [(x, y, -z)] both equal the total at [(x, y, z)], for every array that
    [generateLedConfig] produces.  The optimizer samples one quadrant of the
    target box only. *)
Theorem field_mirror_symmetric
  (ledCount rowCount : nat) (spreadAngle verticalSpreadAngle : R)
  (x y z I s : R) (pat : list (BeamPoint R)) :
  pat <> [] ->
  let cfg := generateLedConfig ledCount spreadAngle rowCount verticalSpreadAngle in
  totalAt cfg (mkPoint3D (- x) y z) I s pat = totalAt cfg (mkPoint3D x y z) I s pat /\
  totalAt cfg (mkPoint3D x y (- z)) I s pat = totalAt cfg (mkPoint3D x y z) I s pat.
Proof.
  intros Hne cfg. unfold cfg, generateLedConfig.
  rewrite !totalAt_sum by exact Hne.
  rewrite !(sum_product (contribution I s pat _)).
  split; f_equal.
  - rewrite <- (@sumR_map_opp
                  (fun h => sumR (map (contribution I s pat (mkPoint3D x y z) h)
                                    (spreadAngles rowCount verticalSpreadAngle)))
                  _ (spreadAngles_opp ledCount spreadAngle)).
    f_equal. apply map_ext. intros h. f_equal. apply map_ext. intros v.
    unfold contribution. cbn [p3x p3y p3z].
    now rewrite illuminance_mirror_x.
  - f_equal. apply map_ext. intros h.
    rewrite <- (@sumR_map_opp (contribution I s pat (mkPoint3D x y z) h)
                  _ (spreadAngles_opp rowCount verticalSpreadAngle)).
    f_equal. apply map_ext. intros v.
    unfold contribution. cbn [p3x p3y p3z].
    now rewrite illuminance_mirror_z.
Qed.

Lemma field_mirror_symmetric_witness :
  beamPatternOf (T:=R) DEFAULT_BEAM_PATTERN <> [] /\
  let cfg := generateLedConfig (T:=R) 3 45 2 10 in
  totalAt cfg (mkPoint3D (- 100) 500 50) 1 1 (beamPatternOf DEFAULT_BEAM_PATTERN)
  = totalAt cfg (mkPoint3D 100 500 50) 1 1 (beamPatternOf DEFAULT_BEAM_PATTERN) /\
  totalAt cfg (mkPoint3D 100 500 (- 50)) 1 1 (beamPatternOf DEFAULT_BEAM_PATTERN)
  = totalAt cfg (mkPoint3D 100 500 50) 1 1 (beamPatternOf DEFAULT_BEAM_PATTERN).
Proof.
  assert (H1 : beamPatternOf (T:=R) DEFAULT_BEAM_PATTERN <> []) by discriminate.
  split; [exact H1|].
  exact (@field_mirror_symmetric 3 2 45 10 100 500 50 1 1
           (beamPatternOf DEFAULT_BEAM_PATTERN) H1).
Defined.

(** ** The coverage counts lattice points *)

(** X30: with a non-empty beam pattern the coverage of a candidate is
    half the number of lattice points at which the summed field reaches the
    threshold (200 points, so a percentage in steps of 0.5), and the test
    [coverage > 2] of the search holds exactly when at least 5 points are
    lit. *)
Theorem coverage_counts_lit_points
  (ledCount rowCount : nat) (I s threshold : R) (pat : list (BeamPoint R))
  (targetW targetH targetR h v : R) :
  pat <> [] ->
  let cfg := generateLedConfig ledCount h rowCount v in
  let hits :=
    length (filter (fun p => Rleb threshold (fieldAt cfg I s pat p))
              (samples targetW targetH targetR)) in
  coverage ledCount rowCount I s threshold pat targetW targetH targetR h v
  = Some (INR hits / 2) /\
  (hits <= 200)%nat /\
  (2 < INR hits / 2 <-> (5 <= hits)%nat).
Proof.
  intros Hne cfg hits. unfold coverage. fold cfg.
  set (pts := samples targetW targetH targetR) in *.
  rewrite (@OptimizerFacts.countHits_counts R _ _ cfg pts I s threshold pat
             (fieldAt cfg I s pat))
    by (intros p _; now apply totalAt_fieldAt).
  change (fun p => (fieldAt cfg I s pat p >=? threshold)%js)
    with (fun p => Rleb threshold (fieldAt cfg I s pat p)).
  fold hits.
  assert (Hlen : length pts = 200%nat) by apply OptimizerFacts.samples_length.
  assert (H200 : INR 200 = 200) by (rewrite INR_IZR_INZ; simpl Z.of_nat; lra).
  assert (H5 : INR 5 = 5) by (rewrite INR_IZR_INZ; simpl Z.of_nat; lra).
  split; [|split].
  - f_equal. rewrite !of_nat_R, Hlen, H200.
    change nmul with Rmult. change ndiv with Rdiv. change (lit 100) with (Q2R 100).
    assert (H100 : Q2R 100 = 100) by (unfold Q2R; simpl; lra).
    rewrite H100. field.
  - rewrite <- Hlen. apply filter_length_le.
  - split.
    + intros Hc. apply INR_le. rewrite H5. 
      assert (Hlt : INR 4 < INR hits).
      { replace (INR 4) with 4 by (rewrite INR_IZR_INZ; simpl Z.of_nat; lra). lra. }
      apply INR_lt in Hlt. apply le_INR in Hlt. 
      replace (INR 5) with 5 in Hlt by (symmetry; exact H5). exact Hlt.
    + intros Hh. apply le_INR in Hh. rewrite H5 in Hh. lra.
Qed.

Lemma coverage_counts_lit_points_witness :
  beamPatternOf (T:=R) DEFAULT_BEAM_PATTERN <> [] /\
  let cfg := generateLedConfig (T:=R) 3 20 1 10 in
  let hits :=
    length (filter (fun p => Rleb (/ 1000000)
                               (fieldAt cfg 1 1 (beamPatternOf DEFAULT_BEAM_PATTERN) p))
              (samples 1000 600 2000)) in
  coverage 3 1 1 1 (/ 1000000) (beamPatternOf DEFAULT_BEAM_PATTERN)
    1000 600 2000 20 10
  = Some (INR hits / 2) /\
  (hits <= 200)%nat /\
  (2 < INR hits / 2 <-> (5 <= hits)%nat).
Proof.
  assert (H1 : beamPatternOf (T:=R) DEFAULT_BEAM_PATTERN <> []) by discriminate.
  split; [exact H1|].
  exact (@coverage_counts_lit_points 3 1 1 1 (/ 1000000)
           (beamPatternOf DEFAULT_BEAM_PATTERN) 1000 600 2000 20 10 H1).
Defined.

End OptimizerExtra.

(* ================================================================== *)
(** * Where the vertices of a contour lie *)

Module ContourGeometry.
Import Contour ContourFacts ContourExtra PhysicsFacts.
Local Open Scope R_scope.

(** A grid of numbers: no NaN among the samples or the limits. *)
Definition realGrid (samples : list R) (w h : nat) (x0 x1 y0 y1 : R)
  : GridData xreal :=
  mkGrid (map XFin samples) w h (XFin x0) (XFin x1) (XFin y0) (XFin y1).

Lemma interpolate_real_between (v1 v2 o1 o2 t : R) :
  v1 < t <= v2 \/ v2 < t <= v1 ->
  exists p,
    interpolate (XFin v1) (XFin v2) (XFin o1) (XFin o2) (XFin t) = XFin p /\
    Rmin o1 o2 <= p <= Rmax o1 o2.
Proof.
  intros Hcross. unfold interpolate. cbn.
  assert (H2 : Q2R 2 = 2) by (unfold Q2R; simpl; lra).
  destruct (Rltb (Rabs (v2 - v1)) _) eqn:E.
  - destruct (Req_dec_T (Q2R 2) 0) as [Hz|_]; [lra|].
    eexists; split; [reflexivity|]. rewrite H2.
    unfold Rmin, Rmax. destruct (Rle_dec o1 o2); lra.
  - destruct (Req_dec_T (v2 - v1) 0) as [Hz|Hnz]; [lra|].
    eexists; split; [reflexivity|].
    set (s := (t - v1) / (v2 - v1)).
    assert (Hs : 0 <= s <= 1).
    { unfold s. destruct Hcross as [Hc|Hc].
      - split.
        + apply Rmult_le_pos; [lra|]. left. apply Rinv_0_lt_compat. lra.
        + apply (Rmult_le_reg_r (v2 - v1)); [lra|].
          unfold Rdiv. rewrite Rmult_assoc, Rinv_l by lra. lra.
      - replace ((t - v1) / (v2 - v1)) with ((v1 - t) / (v1 - v2)) by (field; lra).
        split.
        + apply Rmult_le_pos; [lra|]. left. apply Rinv_0_lt_compat. lra.
        + apply (Rmult_le_reg_r (v1 - v2)); [lra|].
          unfold Rdiv. rewrite Rmult_assoc, Rinv_l by lra. lra. }
    unfold Rmin, Rmax. destruct (Rle_dec o1 o2); nra.
Qed.

Section OnEdge.
Variable samples : list R.
Variable w h : nat.
Variable x0 x1 y0 y1 : R.
Variable t : R.
Hypothesis Hsamples : length samples = (w * h)%nat.

#[local] Abbreviation G := (realGrid samples w h x0 x1 y0 y1).

(** The abscissa of column [i] and the ordinate of row [j]. *)
Definition colX (i : nat) : R := x0 + INR i * ((x1 - x0) / (INR w - 1)).
Definition rowY (j : nat) : R := y0 + INR j * ((y1 - y0) / (INR h - 1)).

Definition sample (gx gy : nat) : R := nth (gy * w + gx) samples 0.

Lemma getVal_real (gx gy : nat) :
  (gx < w)%nat -> (gy < h)%nat -> getVal G gx gy = XFin (sample gx gy).
Proof.
  intros Hx Hy. unfold getVal, sample. cbn [data width realGrid].
  change (@undef xreal _) with XNaN.
  rewrite (nth_indep _ XNaN (XFin 0)) by (rewrite length_map, Hsamples; nia).
  apply (map_nth XFin).
Qed.

Lemma of_nat_xreal (n : nat) : of_nat (T:=xreal) n = XFin (INR n).
Proof.
  unfold of_nat. cbn [lit xreal_Number]. f_equal.
  rewrite <- (of_nat_R n). reflexivity.
Qed.

Lemma getX_real (i : nat) : (2 <= w)%nat -> getX G i = XFin (colX i).
Proof.
  intros Hw. unfold getX, colX. cbn [minX maxX width realGrid].
  rewrite !of_nat_xreal. cbn.
  assert (H1 : Q2R 1 = 1) by (unfold Q2R; simpl; lra).
  assert (Hc : 2 <= INR w) by (change 2 with (INR 2); apply le_INR; lia).
  destruct (Req_dec_T (INR w - Q2R 1) 0) as [Hz|_]; [lra|].
  now rewrite H1.
Qed.

Lemma getY_real (j : nat) : (2 <= h)%nat -> getY G j = XFin (rowY j).
Proof.
  intros Hh. unfold getY, rowY. cbn [minY maxY height realGrid].
  rewrite !of_nat_xreal. cbn.
  assert (H1 : Q2R 1 = 1) by (unfold Q2R; simpl; lra).
  assert (Hc : 2 <= INR h) by (change 2 with (INR 2); apply le_INR; lia).
  destruct (Req_dec_T (INR h - Q2R 1) 0) as [Hz|_]; [lra|].
  now rewrite H1.
Qed.

Lemma above_real (gx gy : nat) :
  (gx < w)%nat -> (gy < h)%nat ->
  above G (XFin t) gx gy = Rleb t (sample gx gy).
Proof. intros Hx Hy. unfold above. now rewrite getVal_real. Qed.

Lemma xorb_cross (v1 v2 : R) :
  xorb (Rleb t v1) (Rleb t v2) = true -> v1 < t <= v2 \/ v2 < t <= v1.
Proof.
  destruct (Rleb t v1) eqn:E1, (Rleb t v2) eqn:E2; try discriminate; intros _.
  - apply Rleb_true in E1. apply Rleb_false in E2. right. lra.
  - apply Rleb_false in E1. apply Rleb_true in E2. left. lra.
Qed.

(** The position of an edge and the statement that a point lies on it. *)
Definition onEdge (k : EdgeKey) (p : Point xreal) : Prop :=
  match k with
  | (H, x, y) =>
      exists a, p = mkPoint (XFin a) (XFin (rowY y)) /\
                Rmin (colX x) (colX (x + 1)) <= a <= Rmax (colX x) (colX (x + 1))
  | (V, x, y) =>
      exists b, p = mkPoint (XFin (colX x)) (XFin b) /\
                Rmin (rowY y) (rowY (y + 1)) <= b <= Rmax (rowY y) (rowY (y + 1))
  end.

Lemma horizontal_on_edge (x y : nat) :
  (x + 1 < w)%nat -> (y < h)%nat -> (2 <= h)%nat ->
  crosses G (XFin t) (H, x, y) = true ->
  onEdge (H, x, y) (edgePoint G (XFin t) (H, x, y)).
Proof.
  intros Hx Hy Hh Hc. unfold crosses in Hc. cbn [edgeEnds fst snd] in Hc.
  rewrite !above_real in Hc by lia. apply xorb_cross in Hc.
  unfold onEdge, edgePoint.
  rewrite !getVal_real, !getX_real, getY_real by lia.
  destruct (interpolate_real_between (colX x) (colX (x + 1)) Hc) as [a [-> Ha]].
  exists a. split; [reflexivity | exact Ha].
Qed.

Lemma vertical_on_edge (x y : nat) :
  (x < w)%nat -> (y + 1 < h)%nat -> (2 <= w)%nat ->
  crosses G (XFin t) (V, x, y) = true ->
  onEdge (V, x, y) (edgePoint G (XFin t) (V, x, y)).
Proof.
  intros Hx Hy Hw Hc. unfold crosses in Hc. cbn [edgeEnds fst snd] in Hc.
  rewrite !above_real in Hc by lia. apply xorb_cross in Hc.
  unfold onEdge, edgePoint.
  rewrite !getVal_real, !getY_real, getX_real by lia.
  destruct (interpolate_real_between (rowY y) (rowY (y + 1)) Hc) as [b [-> Hb]].
  exists b. split; [reflexivity | exact Hb].
Qed.

(** X22: on a grid of numbers whose [data] has [width * height]
    entries, every vertex of the graph lies on the grid edge it is named
    after: the point of a connected horizontal edge has the ordinate of its
    row and an abscissa between those of its two columns, the point of a
    connected vertical edge has the abscissa of its column and an ordinate
    between those of its two rows. *)
Theorem vertex_on_grid_edge (k : EdgeKey) :
  In k (mkeys (adj (buildGraph G (XFin t)))) ->
  onEdge k (edgePoint G (XFin t) k).
Proof.
  intros Hk. rewrite adj_buildGraph in Hk.
  apply mkeys_addConnections in Hk as [[]|[e [He Hke]]].
  unfold allConns in He. apply in_flat_map in He as [c [Hc He]].
  apply In_cells in Hc. cbn [width height realGrid] in Hc. destruct Hc as [Hcx Hcy].
  assert (Hcr : crosses G (XFin t) k = true).
  { destruct (cellConns_cross G (XFin t) c e He) as [H1 H2].
    destruct Hke as [->| ->]; assumption. }
  unfold cellConns in He.
  destruct ((_ =? 0)%Z || (_ =? 15)%Z); [contradiction|].
  destruct (@table_edges_active _ _ _ _ _ e k He Hke)
    as [[-> _]|[[-> _]|[[-> _]|[-> _]]]];
    unfold kTop, kRight, kBottom, kLeft, getEdgeKey in *.
  - apply horizontal_on_edge; auto; lia.
  - apply vertical_on_edge; auto; lia.
  - apply horizontal_on_edge; auto; lia.
  - apply vertical_on_edge; auto; lia.
Qed.

End OnEdge.

Lemma vertex_on_grid_edge_witness :
  length [10; 0; 0; 10] = (2 * 2)%nat /\
  In (kTop 0 0) (mkeys (adj (buildGraph (realGrid [10; 0; 0; 10] 2 2 0 1 0 1) (XFin 5)))) /\
  onEdge 2 2 0 1 0 1 (kTop 0 0)
    (edgePoint (realGrid [10; 0; 0; 10] 2 2 0 1 0 1) (XFin 5) (kTop 0 0)).
Proof.
  assert (H1 : length [10; 0; 0; 10] = (2 * 2)%nat) by reflexivity.
  assert (H2 : In (kTop 0 0)
                 (mkeys (adj (buildGraph (realGrid [10; 0; 0; 10] 2 2 0 1 0 1) (XFin 5))))).
  { rewrite adj_buildGraph. unfold allConns. cbn [width height realGrid].
    cbn [Nat.sub cells seq flat_map map app].
    unfold cellConns. cbn [fst snd].
    assert (Hcfg : cellConfig (realGrid [10; 0; 0; 10] 2 2 0 1 0 1) (XFin 5) 0 0 = 10%Z).
    { rewrite cellConfig_above. unfold above, getVal. cbn.
      replace (Rleb 5 10) with true by (symmetry; apply Rleb_true; lra).
      replace (Rleb 5 0) with false by (symmetry; apply Rleb_false; lra).
      reflexivity. }
    rewrite Hcfg. vm_compute. auto. }
  split; [exact H1|]. split; [exact H2|].
  exact (@vertex_on_grid_edge [10; 0; 0; 10] 2 2 0 1 0 1 5 H1 (kTop 0 0) H2).
Defined.

End ContourGeometry.

(* ================================================================== *)
(** * The earlier photometric model against the current one *)

Module PhysicsV2Facts.
Import Physics PhysicsFacts PhysicsExtra DegeneratePair.
Local Open Scope R_scope.

Lemma lerp_agree (x x0 x1 y0 y1 : R) :
  x0 + / 1000000000 <= x1 ->
  PhysicsV2.lerp x x0 x1 y0 y1 = lerp x x0 x1 y0 y1.
Proof.
  intros Hgap.
  assert (He : 0 < / 1000000000) by (apply Rinv_0_lt_compat; lra).
  unfold PhysicsV2.lerp, PhysicsV2.strictEq, lerp. simpl.
  replace (Rleb x1 x0) with false by (symmetry; apply Rleb_false; lra).
  rewrite andb_false_r.
  replace (Rltb (Rabs (x1 - x0)) (Q2R 1e-9)) with false; [reflexivity|].
  symmetry. apply Rltb_false. rewrite lit_1e_9, Rabs_right; lra.
Qed.

Lemma lookupLoop_agree (tbl : list (R * R)) (x : R) :
  ascending tbl -> PhysicsV2.lookupLoop tbl x = lookupLoop tbl x.
Proof.
  induction tbl as [|a [|b rest] IH]; intros Hasc; [reflexivity | reflexivity |].
  destruct Hasc as [Hgap Hasc].
  change (PhysicsV2.lookupLoop (a :: b :: rest) x)
    with (if (Rleb (fst a) x && Rleb x (fst b))%bool
          then PhysicsV2.lerp x (fst a) (fst b) (snd a) (snd b)
          else PhysicsV2.lookupLoop (b :: rest) x).
  change (lookupLoop (a :: b :: rest) x)
    with (if (Rleb (fst a) x && Rleb x (fst b))%bool
          then lerp x (fst a) (fst b) (snd a) (snd b)
          else lookupLoop (b :: rest) x).
  rewrite lerp_agree by exact Hgap. rewrite IH by exact Hasc. reflexivity.
Qed.

Lemma getLookupValue_agree (tbl : list (R * R)) (x : R) :
  ascending tbl -> PhysicsV2.getLookupValue tbl x = getLookupValue tbl x.
Proof.
  intros Hasc. unfold PhysicsV2.getLookupValue, getLookupValue.
  destruct tbl as [|d0 rest]; [reflexivity|].
  now rewrite lookupLoop_agree.
Qed.

(** X26: the effective efficiency of the earlier model is defined for
    every wavelength and lies between 0.000039 and 1: it is the larger of
    the two CIE lookups, which on these tables are the lookups of the
    current model. *)
Theorem effective_efficiency_range (wavelength : R) :
  exists scotopic photopic,
    getLookupValue (table SCOTOPIC_DATA) wavelength = Some scotopic /\
    getLookupValue (table PHOTOPIC_DATA) wavelength = Some photopic /\
    PhysicsV2.getEffectiveEfficiency wavelength = Some (Rmax scotopic photopic) /\
    0.000039 <= Rmax scotopic photopic <= 1.
Proof.
  destruct (@lookup_in_range 0.0000178 1 (table SCOTOPIC_DATA) wavelength)
    as [vs [Hvs Hrs]];
    [discriminate | apply ascending_SCOTOPIC | apply SCOTOPIC_range |].
  destruct (@lookup_in_range 0.000039 1 (table PHOTOPIC_DATA) wavelength)
    as [vp [Hvp Hrp]];
    [discriminate | apply ascending_PHOTOPIC | apply PHOTOPIC_range |].
  exists vs, vp. split; [exact Hvs|]. split; [exact Hvp|]. split.
  - unfold PhysicsV2.getEffectiveEfficiency.
    rewrite !getLookupValue_agree
      by (apply ascending_SCOTOPIC || apply ascending_PHOTOPIC).
    now rewrite Hvs, Hvp, nmax_R.
  - unfold Rmax. destruct (Rle_dec vs vp); lra.
Qed.

(** ** The two beam lookups *)

Lemma beamLoopV2_knots (pat : list (BeamPoint R)) (a : R) :
  PhysicsV2.beamLoop pat a = PhysicsV2.lookupLoop (knots pat) a.
Proof.
  induction pat as [|b0 [|b1 rest] IH]; [reflexivity | reflexivity |].
  change (PhysicsV2.beamLoop (b0 :: b1 :: rest) a)
    with (if (Rleb (angle b0) a && Rleb a (angle b1))%bool
          then PhysicsV2.lerp a (angle b0) (angle b1) (intensity b0) (intensity b1)
          else PhysicsV2.beamLoop (b1 :: rest) a).
  rewrite IH. reflexivity.
Qed.

Lemma last_knots (b0 : BeamPoint R) (rest : list (BeamPoint R)) :
  last (knots (b0 :: rest)) (angle b0, intensity b0)
  = (angle (last (b0 :: rest) b0), intensity (last (b0 :: rest) b0)).
Proof.
  revert b0. induction rest as [|b1 rest IH]; intros b0; [reflexivity|].
  change (last (knots (b0 :: b1 :: rest)) (angle b0, intensity b0))
    with (last (knots (b1 :: rest)) (angle b0, intensity b0)).
  change (last (b0 :: b1 :: rest) b0) with (last (b1 :: rest) b0).
  rewrite (last_default b1 rest b0 b1).
  unfold knots at 1. cbn [map].
  rewrite (last_default _ _ (angle b0, intensity b0) (angle b1, intensity b1)).
  apply IH.
Qed.

(** What the two lookups return on a pattern with ascending angles. *)
Lemma beam_lookups (b0 : BeamPoint R) (rest : list (BeamPoint R)) (angleDeg : R) :
  ascending (knots (b0 :: rest)) ->
  let lastPoint := last (b0 :: rest) b0 in
  (Rabs angleDeg <= angle lastPoint ->
   PhysicsV2.getBeamIntensityDynamic (b0 :: rest) angleDeg
   = getBeamIntensityDynamic (b0 :: rest) angleDeg) /\
  (angle lastPoint < Rabs angleDeg ->
   getBeamIntensityDynamic (b0 :: rest) angleDeg = Some 0 /\
   PhysicsV2.getBeamIntensityDynamic (b0 :: rest) angleDeg
   = Some (intensity lastPoint)).
Proof.
  intros Hasc lastPoint.
  set (a := Rabs angleDeg).
  assert (Hfirst : angle b0 <= angle lastPoint).
  { destruct (@ascending_last (angle b0, intensity b0) (knots rest) Hasc
                (angle b0, intensity b0) (or_introl eq_refl)) as [Hle _].
    change ((angle b0, intensity b0) :: knots rest) with (knots (b0 :: rest)) in Hle.
    rewrite last_knots in Hle. exact Hle. }
  unfold PhysicsV2.getBeamIntensityDynamic, getBeamIntensityDynamic.
  cbv zeta. fold lastPoint.
  change (nabs angleDeg) with a.
  change (nle a (angle b0)) with (Rleb a (angle b0)).
  change (nle (angle lastPoint) a) with (Rleb (angle lastPoint) a).
  change (nlt (angle lastPoint) a) with (Rltb (angle lastPoint) a).
  destruct (Rleb a (angle b0)) eqn:E0.
  { apply Rleb_true in E0. split; [reflexivity | intros; lra]. }
  apply Rleb_false in E0.
  split.
  - intros Hle.
    replace (Rltb (angle lastPoint) a) with false
      by (symmetry; apply Rltb_false; exact Hle).
    destruct (Rleb (angle lastPoint) a) eqn:E1.
    + apply Rleb_true in E1.
      assert (Ea : a = angle lastPoint) by lra.
      f_equal. rewrite beamLoop_knots, Ea.
      destruct rest as [|b1 rest'].
      { unfold lastPoint in E1, Ea. simpl in Ea. lra. }
      symmetry. apply (@lookupLoop_knot (angle b0, intensity b0) (knots (b1 :: rest'))).
      * exact Hasc.
      * unfold lastPoint.
        change (last (b0 :: b1 :: rest') b0) with (last (b1 :: rest') b0).
        rewrite (last_default b1 rest' b0 b1).
        apply (in_map (fun b => (angle b, intensity b))). apply In_last.
    + f_equal. rewrite beamLoop_knots, beamLoopV2_knots.
      now apply lookupLoop_agree.
  - intros Hgt.
    replace (Rltb (angle lastPoint) a) with true
      by (symmetry; apply Rltb_true; exact Hgt).
    replace (Rleb (angle lastPoint) a) with true
      by (symmetry; apply Rleb_true; lra).
    split; [|reflexivity]. f_equal. apply lit_0.
Qed.

(** X27: on a beam pattern with ascending angles the two beam lookups
    agree at every angle up to the last angle of the pattern and differ at
    every angle beyond it: there the current one cuts the intensity to 0 and
    the earlier one holds the last intensity. *)
Theorem beam_cutoff_against_clamp
  (b0 : BeamPoint R) (rest : list (BeamPoint R)) :
  ascending (knots (b0 :: rest)) ->
  let lastPoint := last (b0 :: rest) b0 in
  (forall angleDeg,
     Rabs angleDeg <= angle lastPoint ->
     PhysicsV2.getBeamIntensityDynamic (b0 :: rest) angleDeg
     = getBeamIntensityDynamic (b0 :: rest) angleDeg) /\
  (forall angleDeg,
     angle lastPoint < Rabs angleDeg ->
     getBeamIntensityDynamic (b0 :: rest) angleDeg = Some 0 /\
     PhysicsV2.getBeamIntensityDynamic (b0 :: rest) angleDeg
     = Some (intensity lastPoint)).
Proof.
  intros Hasc lastPoint. split; intros angleDeg Ha.
  - now apply (@beam_lookups b0 rest angleDeg Hasc).
  - now apply (@beam_lookups b0 rest angleDeg Hasc).
Qed.

Lemma ascending_DEFAULT :
  ascending (knots (mkBeamPoint 0 1 :: [mkBeamPoint 10 0.9; mkBeamPoint 20 0.45;
                                        mkBeamPoint 30 0])).
Proof. simpl. repeat split; lra. Qed.

(** A pattern that ends at intensity 0.2 at 30 degrees. *)
Definition shelfPattern : list (BeamPoint R) :=
  mkBeamPoint 0 1 :: [mkBeamPoint 10 0.9; mkBeamPoint 20 0.45; mkBeamPoint 30 0.2].

(** [shelfPattern] queried inside (15 degrees, where both lookups
    interpolate) and beyond its last angle (40 degrees, where the current
    lookup gives 0 and the earlier one 0.2). *)
Lemma beam_cutoff_against_clamp_witness :
  ascending (knots shelfPattern) /\
  PhysicsV2.getBeamIntensityDynamic shelfPattern 15
  = getBeamIntensityDynamic shelfPattern 15 /\
  getBeamIntensityDynamic shelfPattern 40 = Some 0 /\
  PhysicsV2.getBeamIntensityDynamic shelfPattern 40 = Some 0.2.
Proof.
  assert (Hasc : ascending (knots shelfPattern)) by (simpl; repeat split; lra).
  destruct (@beam_cutoff_against_clamp (mkBeamPoint 0 1)
              [mkBeamPoint 10 0.9; mkBeamPoint 20 0.45; mkBeamPoint 30 0.2] Hasc)
    as [Hin Hout].
  split; [exact Hasc|]. split.
  - apply Hin. simpl. rewrite Rabs_right; lra.
  - apply Hout. simpl. rewrite Rabs_right; lra.
Defined.

(** ** The two illuminances *)

Lemma calculateIlluminanceV2_R
  (x y z angleH angleV peakCandela effectiveEff : R)
  (beamPattern : list (BeamPoint R)) :
  let d := sqrt (x * x + y * y + z * z) in
  let c := (x * (sin angleH * cos angleV) + y * (cos angleH * cos angleV) +
            z * sin angleV) / d in
  PhysicsV2.calculateIlluminance x y z angleH angleV peakCandela effectiveEff
    beamPattern =
  if Rltb d 1 then Some 0 else
  match PhysicsV2.getBeamIntensityDynamic beamPattern
          (acos (Rmax (- (1)) (Rmin 1 c)) * 180 / PI) with
  | None => None
  | Some beamFactor =>
      if Rleb beamFactor 0 then Some 0
      else Some (peakCandela * effectiveEff * beamFactor * exp (- Q2R ALPHA * d)
                 * (1 / (d * d)))
  end.
Proof.
  intros d c. unfold PhysicsV2.calculateIlluminance. simpl.
  rewrite nmax_R, nmin_R. fold d. fold c.
  assert (H1 : Q2R 1 = 1) by (unfold Q2R; simpl; lra).
  assert (H180 : Q2R 180 = 180) by (unfold Q2R; simpl; lra).
  rewrite !lit_0, !H1, H180. reflexivity.
Qed.

(** X28: the earlier model returns 0 within one metre of the source, for
    every orientation, peak, efficiency and beam pattern (even an empty
    one). *)
Theorem earlier_model_dark_within_one_metre
  (x y z angleH angleV peakCandela effectiveEff : R)
  (beamPattern : list (BeamPoint R)) :
  x * x + y * y + z * z < 1 ->
  PhysicsV2.calculateIlluminance x y z angleH angleV peakCandela effectiveEff
    beamPattern = Some 0.
Proof.
  intros Hnear. rewrite calculateIlluminanceV2_R. cbv zeta.
  replace (Rltb (sqrt (x * x + y * y + z * z)) 1) with true; [reflexivity|].
  symmetry. apply Rltb_true. rewrite <- sqrt_1.
  apply sqrt_lt_1_alt. split; [nra | exact Hnear].
Qed.

Lemma earlier_model_dark_within_one_metre_witness :
  0 * 0 + (1 / 2) * (1 / 2) + 0 * 0 < 1 /\
  PhysicsV2.calculateIlluminance 0 (1 / 2) 0 0 0 1 1
    (beamPatternOf DEFAULT_BEAM_PATTERN) = Some 0.
Proof.
  assert (H : 0 * 0 + (1 / 2) * (1 / 2) + 0 * 0 < 1) by lra.
  split; [exact H|].
  exact (@earlier_model_dark_within_one_metre 0 (1 / 2) 0 0 0 1 1
           (beamPatternOf DEFAULT_BEAM_PATTERN) H).
Defined.



End PhysicsV2Facts.

(* ================================================================== *)
(** * The photometric model within the range of binary64 *)

Module RangeFacts.
Import Physics Optimizer PhysicsFacts.
Local Open Scope R_scope.

(** The bound on the magnitude of the inputs of the statements below:
    [10^100]. *)
Definition BIGZ : Z := Eval vm_compute in (10 ^ 100)%Z.
Definition BIG : R := IZR BIGZ.

Ltac consts := unfold BIG, BIGZ, OVER, OVERZ, UNDER, UNDERZ in *.

Lemma UNDER_pos : 0 < UNDER.
Proof. consts. apply Rinv_0_lt_compat. lra. Qed.

Lemma UNDER_lt : UNDER < / 1000000000000.
Proof. consts. apply Rinv_lt_contravar; lra. Qed.

Lemma BIG_ge : 1000000000000 <= BIG.
Proof. consts. lra. Qed.

Lemma OVER_gt : 1000000 * (BIG * BIG * BIG) < OVER.
Proof. consts. lra. Qed.

(** ** Results in range *)

(** An exact result that does not overflow: kept, or flushed to 0. *)
Definition flush (r : R) : R := if Rleb (Rabs r) UNDER then 0 else r.

Lemma dround_flush (r : R) : Rabs r < OVER -> dround r = DFin (flush r).
Proof.
  intros Hr. unfold dround, flush.
  replace (Rleb OVER (Rabs r)) with false by (symmetry; apply Rleb_false; exact Hr).
  destruct (Rleb (Rabs r) UNDER); reflexivity.
Qed.

Lemma dround_over (r : R) : OVER <= r -> dround r = DInf false.
Proof.
  intros Hr. unfold dround.
  assert (H0 : 0 < OVER) by (consts; lra).
  replace (Rleb OVER (Rabs r)) with true
    by (symmetry; apply Rleb_true; rewrite Rabs_right; lra).
  replace (Rltb r 0) with false by (symmetry; apply Rltb_false; lra).
  reflexivity.
Qed.

Lemma flush_cases (r : R) : flush r = 0 \/ flush r = r.
Proof. unfold flush. destruct (Rleb _ _); auto. Qed.

Lemma flush_0 : flush 0 = 0.
Proof. destruct (flush_cases 0); lra. Qed.

Lemma flush_id (r : R) : UNDER < Rabs r -> flush r = r.
Proof.
  intros Hr. unfold flush.
  replace (Rleb (Rabs r) UNDER) with false by (symmetry; apply Rleb_false; exact Hr).
  reflexivity.
Qed.

Lemma flush_under (r : R) : Rabs r <= UNDER -> flush r = 0.
Proof.
  intros Hr. unfold flush.
  replace (Rleb (Rabs r) UNDER) with true by (symmetry; apply Rleb_true; exact Hr).
  reflexivity.
Qed.

Lemma flush_abs (r : R) : Rabs (flush r) <= Rabs r.
Proof.
  destruct (flush_cases r) as [-> | ->]; [|lra].
  rewrite Rabs_R0. apply Rabs_pos.
Qed.

Lemma flush_nonneg (r : R) : 0 <= r -> 0 <= flush r <= r.
Proof. intros Hr. destruct (flush_cases r) as [-> | ->]; lra. Qed.

Lemma flush_nonpos (r : R) : r <= 0 -> r <= flush r <= 0.
Proof. intros Hr. destruct (flush_cases r) as [-> | ->]; lra. Qed.

Lemma flush_mono (a b : R) : a <= b -> flush a <= flush b.
Proof.
  intros Hab. pose proof UNDER_pos as Hu. unfold flush.
  destruct (Rleb (Rabs a) UNDER) eqn:Ea, (Rleb (Rabs b) UNDER) eqn:Eb;
    try (apply Rleb_true in Ea); try (apply Rleb_false in Ea);
    try (apply Rleb_true in Eb); try (apply Rleb_false in Eb).
  - lra.
  - unfold Rabs in Ea, Eb. destruct (Rcase_abs a), (Rcase_abs b); lra.
  - unfold Rabs in Ea, Eb. destruct (Rcase_abs a), (Rcase_abs b); lra.
  - exact Hab.
Qed.

Lemma Rabs_le_both (r b : R) : - b <= r <= b -> Rabs r <= b.
Proof. intros H. now apply Rabs_le. Qed.

(** The operations of [dnum] on two reals whose exact result is below
    [OVER]. *)
Lemma dadd_fin (a b : R) :
  Rabs (a + b) < OVER -> (DFin a + DFin b)%js = DFin (flush (a + b)).
Proof. intros Hr. cbn. now apply dround_flush. Qed.

Lemma dsub_fin (a b : R) :
  Rabs (a - b) < OVER -> (DFin a - DFin b)%js = DFin (flush (a - b)).
Proof. intros Hr. cbn. now apply dround_flush. Qed.

Lemma dmul_fin (a b : R) :
  Rabs (a * b) < OVER -> (DFin a * DFin b)%js = DFin (flush (a * b)).
Proof. intros Hr. cbn. now apply dround_flush. Qed.

Lemma ddiv_fin (a b : R) :
  b <> 0 -> Rabs (a / b) < OVER -> (DFin a / DFin b)%js = DFin (flush (a / b)).
Proof.
  intros Hb Hr. cbn. destruct (Req_dec_T b 0) as [Hz|_]; [contradiction|].
  now apply dround_flush.
Qed.

Lemma dneg_fin (a : R) : (- DFin a)%js = DFin (- a).
Proof. reflexivity. Qed.

Lemma dabs_fin (a : R) : nabs (DFin a) = DFin (Rabs a).
Proof. reflexivity. Qed.

Lemma dle_fin (a b : R) : (DFin a <=? DFin b)%js = Rleb a b.
Proof. reflexivity. Qed.

Lemma dlt_fin (a b : R) : (DFin a <? DFin b)%js = Rltb a b.
Proof. reflexivity. Qed.

Lemma lit_fin (q : Q) :
  UNDER < Rabs (Q2R q) < OVER -> lit q = DFin (Q2R q).
Proof.
  intros [Hlo Hhi]. cbn. rewrite dround_flush by exact Hhi. f_equal.
  now apply flush_id.
Qed.

Lemma lit_0_d : lit 0 = DFin 0.
Proof.
  cbn. rewrite dround_flush.
  - f_equal. rewrite PhysicsExtra.lit_0. apply flush_0.
  - rewrite PhysicsExtra.lit_0, Rabs_R0. consts. lra.
Qed.

Ltac lit_range :=
  pose proof UNDER_lt; pose proof UNDER_pos;
  assert (1000000000000 < OVER) by (consts; lra);
  unfold Q2R; cbn [Qnum Qden]; simpl IZR;
  rewrite Rabs_right by lra; lra.

Lemma lit_005 : lit 0.05 = DFin 0.05.
Proof. apply lit_fin. lit_range. Qed.

Lemma lit_0001 : lit 0.001 = DFin 0.001.
Proof. apply lit_fin. lit_range. Qed.

Lemma lit_1_d : lit 1 = DFin 1.
Proof. rewrite lit_fin by lit_range. f_equal. unfold Q2R; simpl; lra. Qed.

Lemma lit_180 : lit 180 = DFin 180.
Proof. rewrite lit_fin by lit_range. f_equal. unfold Q2R; simpl; lra. Qed.

Lemma lit_1e9 : lit 1e-9 = DFin (/ 1000000000).
Proof.
  rewrite lit_fin.
  - f_equal. apply lit_1e_9.
  - rewrite lit_1e_9. pose proof UNDER_lt. pose proof UNDER_pos.
    assert (1000000000000 < OVER) by (consts; lra).
    rewrite Rabs_right by lra. lra.
Qed.

Lemma lit_ALPHA : lit ALPHA = DFin 0.00015.
Proof. apply lit_fin. unfold ALPHA. lit_range. Qed.

Lemma nmax_dnum (a b : R) : nmax (DFin a) (DFin b) = DFin (Rmax a b).
Proof.
  unfold nmax, Rmax; cbn. unfold Rleb.
  destruct (Rle_dec a b); [reflexivity|].
  destruct (Rle_dec b a); [reflexivity | lra].
Qed.

Lemma nmin_dnum (a b : R) : nmin (DFin a) (DFin b) = DFin (Rmin a b).
Proof.
  unfold nmin, Rmin; cbn. unfold Rleb.
  destruct (Rle_dec a b); [reflexivity|].
  destruct (Rle_dec b a); [reflexivity | lra].
Qed.

Lemma OVER_big : 1000 < OVER.
Proof. consts. lra. Qed.

Lemma dsin_fin (a : R) :
  msin (DFin a) = DFin (flush (sin a)) /\ -1 <= flush (sin a) <= 1.
Proof.
  pose proof (SIN_bound a) as Hb. pose proof OVER_big.
  split.
  - cbn. apply dround_flush. apply Rle_lt_trans with 1; [|lra].
    now apply Rabs_le.
  - destruct (flush_cases (sin a)) as [-> | ->]; lra.
Qed.

Lemma dcos_fin (a : R) :
  mcos (DFin a) = DFin (flush (cos a)) /\ -1 <= flush (cos a) <= 1.
Proof.
  pose proof (COS_bound a) as Hb. pose proof OVER_big.
  split.
  - cbn. apply dround_flush. apply Rle_lt_trans with 1; [|lra].
    now apply Rabs_le.
  - destruct (flush_cases (cos a)) as [-> | ->]; lra.
Qed.

Lemma dsqrt_fin (a b : R) :
  0 <= a <= b * b -> 0 <= b -> b < OVER ->
  msqrt (DFin a) = DFin (flush (sqrt a)) /\ 0 <= flush (sqrt a) <= b.
Proof.
  intros [Ha0 Hab] Hb Hbo.
  assert (Hs : 0 <= sqrt a <= b).
  { split; [apply sqrt_pos|].
    rewrite <- (sqrt_square b) by exact Hb. now apply sqrt_le_1_alt. }
  split.
  - cbn. replace (Rleb 0 a) with true by (symmetry; now apply Rleb_true).
    apply dround_flush. rewrite Rabs_right; lra.
  - pose proof (flush_nonneg (proj1 Hs)). lra.
Qed.

Lemma dexp_fin (u : R) :
  u <= 0 -> mexp (DFin u) = DFin (flush (exp u)) /\ 0 <= flush (exp u) <= 1.
Proof.
  intros Hu. pose proof (exp_pos u) as Hpos. pose proof OVER_big.
  assert (He : exp u <= 1).
  { rewrite <- exp_0. destruct (Req_dec u 0) as [->|Hn]; [lra|].
    left. apply exp_increasing. lra. }
  split.
  - cbn. apply dround_flush. rewrite Rabs_right; lra.
  - assert (H0 : 0 <= exp u) by lra. pose proof (flush_nonneg H0). lra.
Qed.

Lemma dacos_fin (m : R) :
  -1 <= m <= 1 ->
  macos (DFin m) = DFin (flush (acos m)) /\ 0 <= flush (acos m) <= 4.
Proof.
  intros [Hlo Hhi]. pose proof (acos_bound m) as Hb. pose proof PI_4.
  pose proof OVER_big.
  split.
  - cbn.
    replace (Rleb (-1) m) with true by (symmetry; now apply Rleb_true).
    replace (Rleb m 1) with true by (symmetry; now apply Rleb_true).
    cbn [andb]. apply dround_flush. rewrite Rabs_right; lra.
  - pose proof (flush_nonneg (proj1 Hb)). lra.
Qed.

(** ** Finite values with a bound *)

Definition fin (B : R) (v : dnum) : Prop := exists r, v = DFin r /\ Rabs r <= B.

Lemma fin_DFin (B r : R) : Rabs r <= B -> fin B (DFin r).
Proof. intros Hr. exists r. auto. Qed.

Lemma fin_weaken (A B : R) (v : dnum) : fin A v -> A <= B -> fin B v.
Proof. intros [r [-> Hr]] HAB. exists r. split; [reflexivity | lra]. Qed.

Lemma fin_mul (A B : R) (u v : dnum) :
  fin A u -> fin B v -> A * B < OVER -> fin (A * B) (u * v)%js.
Proof.
  intros [a [-> Ha]] [b [-> Hb]] Hov.
  assert (Hab : Rabs (a * b) <= A * B).
  { rewrite Rabs_mult. apply Rmult_le_compat; auto using Rabs_pos. }
  rewrite dmul_fin by lra. eexists; split; [reflexivity|].
  pose proof (flush_abs (a * b)). lra.
Qed.

Lemma fin_add (A B : R) (u v : dnum) :
  fin A u -> fin B v -> A + B < OVER -> fin (A + B) (u + v)%js.
Proof.
  intros [a [-> Ha]] [b [-> Hb]] Hov.
  assert (Hab : Rabs (a + b) <= A + B).
  { eapply Rle_trans; [apply Rabs_triang|]. lra. }
  rewrite dadd_fin by lra. eexists; split; [reflexivity|].
  pose proof (flush_abs (a + b)). lra.
Qed.

Lemma fin_sub (A B : R) (u v : dnum) :
  fin A u -> fin B v -> A + B < OVER -> fin (A + B) (u - v)%js.
Proof.
  intros [a [-> Ha]] [b [-> Hb]] Hov.
  assert (Hab : Rabs (a - b) <= A + B).
  { unfold Rminus. eapply Rle_trans; [apply Rabs_triang|]. rewrite Rabs_Ropp. lra. }
  rewrite dsub_fin by lra. eexists; split; [reflexivity|].
  pose proof (flush_abs (a - b)). lra.
Qed.

Lemma Rabs_div_le (a b A c : R) :
  Rabs a <= A -> 0 < c -> c <= Rabs b -> Rabs (a / b) <= A / c.
Proof.
  intros Ha Hc Hb.
  assert (Hbne : b <> 0).
  { intros ->. rewrite Rabs_R0 in Hb. lra. }
  unfold Rdiv. rewrite Rabs_mult, Rabs_inv.
  assert (Hinv : 0 < / Rabs b <= / c).
  { split; [apply Rinv_0_lt_compat; lra | apply Rinv_le_contravar; lra]. }
  pose proof (Rabs_pos a).
  apply Rmult_le_compat; lra.
Qed.

Lemma fin_div (A c : R) (u : dnum) (b : R) :
  fin A u -> 0 < c -> c <= Rabs b -> A / c < OVER ->
  fin (A / c) (u / DFin b)%js.
Proof.
  intros [a [-> Ha]] Hc Hb Hov.
  assert (Hbne : b <> 0).
  { intros ->. rewrite Rabs_R0 in Hb. lra. }
  pose proof (@Rabs_div_le a b A c Ha Hc Hb) as Hab.
  rewrite ddiv_fin by (auto; lra). eexists; split; [reflexivity|].
  pose proof (flush_abs (a / b)). lra.
Qed.

Lemma Rabs_bounds (r b : R) : Rabs r <= b -> - b <= r <= b.
Proof. unfold Rabs. destruct (Rcase_abs r); lra. Qed.

(** ** Table and beam lookups on numbers in range *)

Lemma lerp_dnum (x x0 x1 y0 y1 M : R) :
  x0 <= x <= x1 -> Rabs x0 <= BIG -> Rabs x1 <= BIG ->
  0 <= y0 <= M -> 0 <= y1 <= M -> M <= BIG ->
  exists r,
    lerp (DFin x) (DFin x0) (DFin x1) (DFin y0) (DFin y1) = DFin r /\ 0 <= r <= M.
Proof.
  intros Hx Hx0 Hx1 Hy0 Hy1 HM.
  pose proof BIG_ge as HB. pose proof OVER_gt as HO.
  pose proof UNDER_lt as HU. pose proof UNDER_pos as HU0.
  assert (HBB : 0 <= BIG * BIG) by nra.
  assert (HO1 : 4 * BIG < OVER) by nra.
  apply Rabs_bounds in Hx0. apply Rabs_bounds in Hx1.
  unfold lerp.
  rewrite (dsub_fin x1 x0) by (apply Rle_lt_trans with (2 * BIG); [apply Rabs_le|]; lra).
  rewrite dabs_fin, lit_1e9, dlt_fin.
  destruct (Rltb (Rabs (flush (x1 - x0))) (/ 1000000000)) eqn:E.
  { exists y0. split; [reflexivity | lra]. }
  apply Rltb_false in E.
  assert (He9 : / 1000000000 = 0.000000001) by lra.
  assert (Hg : flush (x1 - x0) = x1 - x0).
  { destruct (flush_cases (x1 - x0)) as [Hz|Hz]; [|exact Hz].
    rewrite Hz, Rabs_R0 in E. lra. }
  rewrite Hg in *.
  assert (Hgpos : 0.000000001 <= x1 - x0).
  { rewrite Rabs_right in E by lra. lra. }
  set (g := x1 - x0) in *.
  rewrite (dsub_fin x x0) by (apply Rle_lt_trans with (2 * BIG); [apply Rabs_le|]; lra).
  rewrite (dsub_fin y1 y0) by (apply Rle_lt_trans with (2 * BIG); [apply Rabs_le|]; lra).
  set (dx := flush (x - x0)). set (dy := flush (y1 - y0)).
  assert (Hdx : 0 <= dx <= g).
  { unfold dx. assert (H0 : 0 <= x - x0) by lra.
    pose proof (flush_nonneg H0). unfold g. lra. }
  assert (Hg2 : g <= 2 * BIG) by (unfold g; lra).
  assert (Hdy : (y0 <= y1 /\ 0 <= dy <= y1 - y0) \/ (y1 <= y0 /\ y1 - y0 <= dy <= 0)).
  { unfold dy. destruct (Rle_dec y0 y1) as [Hle|Hgt].
    - left. split; [exact Hle|]. apply flush_nonneg. lra.
    - right. split; [lra|]. apply flush_nonpos. lra. }
  assert (Hdyabs : - BIG <= dy <= BIG) by (destruct Hdy as [[_ H1]|[_ H1]]; lra).
  assert (Hprod : - (2 * BIG * BIG) <= dx * dy <= 2 * BIG * BIG).
  { split; nra. }
  rewrite (dmul_fin dx dy) by (apply Rle_lt_trans with (2 * BIG * BIG);
                                [apply Rabs_le; lra | nra]).
  set (p := flush (dx * dy)).
  assert (Hp : (y0 <= y1 /\ 0 <= p <= g * (y1 - y0)) \/
               (y1 <= y0 /\ g * (y1 - y0) <= p <= 0)).
  { unfold p. destruct Hdy as [[Hle Hd]|[Hle Hd]].
    - left. split; [exact Hle|].
      assert (H0 : 0 <= dx * dy) by nra. pose proof (flush_nonneg H0). nra.
    - right. split; [exact Hle|].
      assert (H0 : dx * dy <= 0) by nra. pose proof (flush_nonpos H0). nra. }
  assert (Hginv : 0 < / g) by (apply Rinv_0_lt_compat; lra).
  assert (Hpg : (y0 <= y1 /\ 0 <= p / g <= y1 - y0) \/
                (y1 <= y0 /\ y1 - y0 <= p / g <= 0)).
  { destruct Hp as [[Hle Hq]|[Hle Hq]]; [left|right]; (split; [exact Hle|]);
      unfold Rdiv; split.
    - apply Rmult_le_pos; lra.
    - apply (Rmult_le_reg_r g); [lra|]. rewrite Rmult_assoc, Rinv_l by lra. lra.
    - apply (Rmult_le_reg_r g); [lra|]. rewrite Rmult_assoc, Rinv_l by lra. lra.
    - assert (H0 : 0 <= - p * / g) by (apply Rmult_le_pos; lra). lra. }
  assert (Hpgabs : - BIG <= p / g <= BIG) by (destruct Hpg as [[_ H1]|[_ H1]]; lra).
  assert (Hgne : g <> 0) by lra.
  assert (Hdivb : Rabs (p / g) < OVER).
  { apply Rle_lt_trans with BIG; [apply Rabs_le; lra | lra]. }
  rewrite (@ddiv_fin p g Hgne Hdivb).
  set (q := flush (p / g)).
  assert (Hq : (0 <= q <= y1 - y0) \/ (y1 - y0 <= q <= 0)).
  { unfold q. destruct Hpg as [[Hle Hd]|[Hle Hd]].
    - left. pose proof (flush_nonneg (proj1 Hd)). lra.
    - right. pose proof (flush_nonpos (proj2 Hd)). lra. }
  assert (Hsum : 0 <= y0 + q <= M) by (destruct Hq; lra).
  rewrite (dadd_fin y0 q) by (rewrite Rabs_right; lra).
  eexists; split; [reflexivity|].
  pose proof (flush_nonneg (proj1 Hsum)). lra.
Qed.

(** A beam pattern of numbers. *)
Definition dpattern (pat : list (R * R)) : list (BeamPoint dnum) :=
  map (fun e => mkBeamPoint (DFin (fst e)) (DFin (snd e))) pat.

(** The angles of the pattern are at most [BIG] in magnitude, its
    intensities lie between 0 and [M]. *)
Definition patternInRange (M : R) (pat : list (R * R)) : Prop :=
  forall e, In e pat -> Rabs (fst e) <= BIG /\ 0 <= snd e <= M.

Lemma beamLoop_dnum (M : R) (pat : list (R * R)) (a : R) :
  0 <= M <= BIG -> patternInRange M pat ->
  exists r, beamLoop (dpattern pat) (DFin a) = DFin r /\ 0 <= r <= M.
Proof.
  intros HM. induction pat as [|e0 [|e1 rest] IH]; intros Hall.
  - exists 0. split; [apply lit_0_d | lra].
  - exists 0. split; [apply lit_0_d | lra].
  - change (beamLoop (dpattern (e0 :: e1 :: rest)) (DFin a))
      with (if (Rleb (fst e0) a && Rleb a (fst e1))%bool
            then lerp (DFin a) (DFin (fst e0)) (DFin (fst e1))
                   (DFin (snd e0)) (DFin (snd e1))
            else beamLoop (dpattern (e1 :: rest)) (DFin a)).
    destruct (Rleb (fst e0) a && Rleb a (fst e1))%bool eqn:E.
    + apply andb_true_iff in E as [E1 E2]. apply Rleb_true in E1, E2.
      destruct (Hall e0 (or_introl eq_refl)) as [Ha0 Hi0].
      destruct (Hall e1 (or_intror (or_introl eq_refl))) as [Ha1 Hi1].
      apply (@lerp_dnum a (fst e0) (fst e1) (snd e0) (snd e1) M); auto; lra.
    + apply IH. intros e He. apply Hall. now right.
Qed.

Lemma last_map_cons {A B} (f : A -> B) (a : A) (l : list A) :
  last (map f (a :: l)) (f a) = f (last (a :: l) a).
Proof.
  revert a. induction l as [|b l IH]; intros a; [reflexivity|].
  change (last (map f (a :: b :: l)) (f a)) with (last (map f (b :: l)) (f a)).
  change (last (a :: b :: l) a) with (last (b :: l) a).
  rewrite (last_default b l a b).
  cbn [map]. rewrite (last_default (f b) (map f l) (f a) (f b)).
  apply (IH b).
Qed.

Lemma last_dpattern (e0 : R * R) (rest : list (R * R)) :
  last (dpattern (e0 :: rest)) (mkBeamPoint (DFin (fst e0)) (DFin (snd e0)))
  = mkBeamPoint (DFin (fst (last (e0 :: rest) e0)))
                (DFin (snd (last (e0 :: rest) e0))).
Proof.
  unfold dpattern.
  apply (last_map_cons (fun e : R * R => mkBeamPoint (DFin (fst e)) (DFin (snd e)))).
Qed.

Lemma getBeam_dnum (M : R) (pat : list (R * R)) (t : R) :
  0 <= M <= BIG -> pat <> [] -> patternInRange M pat ->
  exists r,
    getBeamIntensityDynamic (dpattern pat) (DFin t) = Some (DFin r) /\ 0 <= r <= M.
Proof.
  intros HM Hne Hall. destruct pat as [|e0 rest]; [contradiction|].
  unfold getBeamIntensityDynamic.
  change (dpattern (e0 :: rest))
    with (mkBeamPoint (DFin (fst e0)) (DFin (snd e0)) :: dpattern rest) at 1.
  cbv beta iota zeta.
  change (mkBeamPoint (DFin (fst e0)) (DFin (snd e0)) :: dpattern rest)
    with (dpattern (e0 :: rest)).
  rewrite last_dpattern. cbn [angle intensity].
  rewrite dabs_fin, dle_fin, dlt_fin.
  destruct (Rleb (Rabs t) (fst e0)).
  { eexists; split; [reflexivity|]. apply (Hall e0). now left. }
  destruct (Rltb _ _).
  { exists 0. split; [now rewrite lit_0_d | lra]. }
  destruct (@beamLoop_dnum M (e0 :: rest) (Rabs t) HM Hall) as [r [Hr Hrange]].
  exists r. split; [now rewrite Hr | exact Hrange].
Qed.

(** ** The illuminance on inputs in range *)

Lemma calc_unfold {T : Type} `{Number T} `{MathLib T}
  (x y z angleH angleV I s : T) (pat : list (BeamPoint T)) :
  calculateIlluminance x y z angleH angleV I s pat =
  let d_safe := nmax (lit 0.05) (msqrt (x * x + y * y + z * z)%js) in
  let cosTheta :=
    ((msin angleH * mcos angleV) * (x / d_safe) +
     (mcos angleH * mcos angleV) * (y / d_safe) +
     msin angleV * (z / d_safe))%js in
  if (cosTheta <=? lit 0.001)%js then Some (lit 0) else
  match getBeamIntensityDynamic pat
          (macos (nmin (lit 1) cosTheta) * (lit 180 / mPI))%js with
  | None => None
  | Some rel =>
      if (rel <=? lit 0)%js then Some (lit 0)
      else Some ((I * s * rel * mexp (- lit ALPHA * d_safe)) / (d_safe * d_safe))%js
  end.
Proof. reflexivity. Qed.

Lemma square_dnum (x : R) :
  Rabs x <= BIG ->
  (DFin x * DFin x)%js = DFin (flush (x * x)) /\ 0 <= flush (x * x) <= BIG * BIG.
Proof.
  intros Hx. pose proof OVER_gt. pose proof BIG_ge.
  assert (Hxx : 0 <= x * x <= BIG * BIG).
  { apply Rabs_bounds in Hx. split; nra. }
  split.
  - apply dmul_fin. rewrite Rabs_right by lra. nra.
  - pose proof (@flush_nonneg _ (proj1 Hxx)). lra.
Qed.

Lemma dsafe_dnum (x y z : R) :
  Rabs x <= BIG -> Rabs y <= BIG -> Rabs z <= BIG ->
  exists ds,
    nmax (lit 0.05) (msqrt (DFin x * DFin x + DFin y * DFin y + DFin z * DFin z)%js)
    = DFin ds /\
    0.05 <= ds <= 2 * BIG.
Proof.
  intros Hx Hy Hz. pose proof OVER_gt as HO. pose proof BIG_ge as HB.
  destruct (@square_dnum x Hx) as [-> Hsx].
  destruct (@square_dnum y Hy) as [-> Hsy].
  destruct (@square_dnum z Hz) as [-> Hsz].
  set (sx := flush (x * x)) in *. set (sy := flush (y * y)) in *.
  set (sz := flush (z * z)) in *.
  assert (HBB : 0 <= BIG * BIG) by nra.
  rewrite (@dadd_fin sx sy) by (rewrite Rabs_right by lra; nra).
  assert (H1 : 0 <= flush (sx + sy) <= 2 * (BIG * BIG)).
  { assert (H0 : 0 <= sx + sy) by lra. pose proof (@flush_nonneg _ H0). lra. }
  set (s1 := flush (sx + sy)) in *.
  rewrite (@dadd_fin s1 sz) by (rewrite Rabs_right by lra; nra).
  assert (H2 : 0 <= flush (s1 + sz) <= (2 * BIG) * (2 * BIG)).
  { assert (H0 : 0 <= s1 + sz) by lra. pose proof (@flush_nonneg _ H0). nra. }
  set (d2 := flush (s1 + sz)) in *.
  destruct (@dsqrt_fin d2 (2 * BIG) H2) as [-> Hd]; [lra | nra |].
  rewrite lit_005, nmax_dnum.
  eexists; split; [reflexivity|].
  unfold Rmax. destruct (Rle_dec 0.05 (flush (sqrt d2))); lra.
Qed.

Lemma cosTheta_dnum (x y z angleH angleV ds : R) :
  Rabs x <= BIG -> Rabs y <= BIG -> Rabs z <= BIG -> 0.05 <= ds ->
  exists c,
    ((msin (DFin angleH) * mcos (DFin angleV)) * (DFin x / DFin ds) +
     (mcos (DFin angleH) * mcos (DFin angleV)) * (DFin y / DFin ds) +
     msin (DFin angleV) * (DFin z / DFin ds))%js = DFin c.
Proof.
  intros Hx Hy Hz Hds.
  assert (Hsin : forall a, fin 1 (msin (DFin a))).
  { intros a. destruct (dsin_fin a) as [-> Hb]. apply fin_DFin. now apply Rabs_le. }
  assert (Hcos : forall a, fin 1 (mcos (DFin a))).
  { intros a. destruct (dcos_fin a) as [-> Hb]. apply fin_DFin. now apply Rabs_le. }
  assert (Hdsabs : 0.05 <= Rabs ds) by (rewrite Rabs_right; lra).
  assert (Hc1 : 1 * 1 < OVER) by (consts; lra).
  assert (Hc2 : BIG / 0.05 < OVER) by (consts; lra).
  assert (Hc3 : 1 * 1 * (BIG / 0.05) < OVER) by (consts; lra).
  assert (Hc4 : 1 * (BIG / 0.05) < OVER) by (consts; lra).
  assert (Hc5 : 1 * 1 * (BIG / 0.05) + 1 * 1 * (BIG / 0.05) < OVER) by (consts; lra).
  assert (Hc6 : 1 * 1 * (BIG / 0.05) + 1 * 1 * (BIG / 0.05) + 1 * (BIG / 0.05) < OVER)
    by (consts; lra).
  assert (H005 : 0 < 0.05) by lra.
  pose proof (@fin_div _ _ _ _ (@fin_DFin _ _ Hx) H005 Hdsabs Hc2) as HPx.
  pose proof (@fin_div _ _ _ _ (@fin_DFin _ _ Hy) H005 Hdsabs Hc2) as HPy.
  pose proof (@fin_div _ _ _ _ (@fin_DFin _ _ Hz) H005 Hdsabs Hc2) as HPz.
  pose proof (@fin_mul _ _ _ _ (@fin_mul _ _ _ _ (Hsin angleH) (Hcos angleV) Hc1) HPx Hc3) as H1.
  pose proof (@fin_mul _ _ _ _ (@fin_mul _ _ _ _ (Hcos angleH) (Hcos angleV) Hc1) HPy Hc3) as H2.
  pose proof (@fin_mul _ _ _ _ (Hsin angleV) HPz Hc4) as H3.
  destruct (@fin_add _ _ _ _ (@fin_add _ _ _ _ H1 H2 Hc5) H3 Hc6) as [c [Hc _]].
  exists c. exact Hc.
Qed.

(** The illuminance as a function of the peak intensity: the product
    [peak * spectral * rel * T / dd], every operation flushing to 0. *)
Definition response (I s rel T dd : R) : R :=
  flush (flush (flush (flush (I * s) * rel) * T) / dd).

Lemma response_zero (I s T dd : R) : response I s 0 T dd = 0.
Proof.
  unfold response. rewrite Rmult_0_r, flush_0, Rmult_0_l, flush_0.
  unfold Rdiv. rewrite Rmult_0_l. apply flush_0.
Qed.

Lemma response_mono (I I' s rel T dd : R) :
  0 <= I <= I' -> 0 <= s -> 0 <= rel -> 0 <= T -> 0 < dd ->
  0 <= response I s rel T dd <= response I' s rel T dd.
Proof.
  intros HI Hs Hrel HT Hdd. unfold response.
  assert (H1 : 0 <= flush (I * s) <= flush (I' * s)).
  { split; [apply flush_nonneg; nra | apply flush_mono; nra]. }
  assert (H2 : 0 <= flush (flush (I * s) * rel) <= flush (flush (I' * s) * rel)).
  { split; [apply flush_nonneg; nra | apply flush_mono; nra]. }
  assert (H3 : 0 <= flush (flush (flush (I * s) * rel) * T)
               <= flush (flush (flush (I' * s) * rel) * T)).
  { split; [apply flush_nonneg; nra | apply flush_mono; nra]. }
  assert (Hinv : 0 < / dd) by now apply Rinv_0_lt_compat.
  split.
  - apply flush_nonneg. unfold Rdiv. apply Rmult_le_pos; lra.
  - apply flush_mono. unfold Rdiv. apply Rmult_le_compat_r; lra.
Qed.

Lemma response_bound (I s rel T dd M : R) :
  0 <= I <= BIG -> 0 <= s <= BIG -> 0 <= rel <= M -> M <= BIG ->
  0 <= T <= 1 -> 0.0025 <= dd ->
  0 <= response I s rel T dd <= 400 * (BIG * BIG * BIG).
Proof.
  intros HI Hs Hrel HM HT Hdd. pose proof BIG_ge as HB. unfold response.
  assert (H1 : 0 <= flush (I * s) <= BIG * BIG).
  { assert (H0 : 0 <= I * s) by nra. pose proof (@flush_nonneg _ H0). nra. }
  set (a := flush (I * s)) in *.
  assert (H2 : 0 <= flush (a * rel) <= BIG * BIG * BIG).
  { assert (H0 : 0 <= a * rel) by nra. pose proof (@flush_nonneg _ H0).
    assert (a * rel <= BIG * BIG * BIG) by nra. lra. }
  set (b := flush (a * rel)) in *.
  assert (H3 : 0 <= flush (b * T) <= BIG * BIG * BIG).
  { assert (H0 : 0 <= b * T) by nra. pose proof (@flush_nonneg _ H0).
    assert (b * T <= BIG * BIG * BIG) by nra. lra. }
  set (c := flush (b * T)) in *.
  assert (Hinv : 0 < / dd <= 400).
  { split; [apply Rinv_0_lt_compat; lra|].
    replace 400 with (/ 0.0025) by lra. apply Rinv_le_contravar; lra. }
  assert (H4 : 0 <= c / dd <= 400 * (BIG * BIG * BIG)).
  { unfold Rdiv. split; [apply Rmult_le_pos; lra|].
    rewrite (Rmult_comm 400). apply Rmult_le_compat; lra. }
  pose proof (@flush_nonneg _ (proj1 H4)). lra.
Qed.

(** With coordinates, spectral factor and pattern in range, the illuminance
    is [response peak s rel T dd] for every peak intensity in range, where
    [rel], [T] and [dd] do not depend on the peak. *)
Lemma illuminance_response (x y z angleH angleV s M : R) (pat : list (R * R)) :
  Rabs x <= BIG -> Rabs y <= BIG -> Rabs z <= BIG ->
  0 <= s <= BIG -> 0 <= M <= BIG -> pat <> [] -> patternInRange M pat ->
  exists rel T dd,
    0 <= rel <= M /\ 0 <= T <= 1 /\ 0.0025 <= dd /\
    forall I, 0 <= I <= BIG ->
      calculateIlluminance (DFin x) (DFin y) (DFin z) (DFin angleH) (DFin angleV)
        (DFin I) (DFin s) (dpattern pat)
      = Some (DFin (response I s rel T dd)).
Proof.
  intros Hx Hy Hz Hs HM Hne Hall.
  pose proof OVER_gt as HO. pose proof BIG_ge as HB.
  pose proof UNDER_lt as HU. pose proof UNDER_pos as HU0.
  destruct (@dsafe_dnum x y z Hx Hy Hz) as [ds [Hds Hdsr]].
  destruct (@cosTheta_dnum x y z angleH angleV ds Hx Hy Hz (proj1 Hdsr)) as [c Hc].
  (* the transmissivity and the squared distance *)
  assert (Hu : (- lit ALPHA * DFin ds)%js = DFin (flush (- (0.00015) * ds))).
  { rewrite lit_ALPHA, dneg_fin. apply dmul_fin.
    apply Rle_lt_trans with (2 * BIG); [apply Rabs_le; lra | nra]. }
  assert (Hu0 : flush (- (0.00015) * ds) <= 0).
  { assert (H0 : - (0.00015) * ds <= 0) by lra. pose proof (@flush_nonpos _ H0). lra. }
  destruct (@dexp_fin _ Hu0) as [HT HTr].
  set (T := flush (exp (flush (- (0.00015) * ds)))) in *.
  assert (Hdd : (DFin ds * DFin ds)%js = DFin (ds * ds)).
  { rewrite dmul_fin by (rewrite Rabs_right by nra; nra).
    f_equal. apply flush_id. rewrite Rabs_right by nra. nra. }
  assert (Hddr : 0.0025 <= ds * ds) by nra.
  (* the two early returns give the response to a relative intensity 0 *)
  assert (Hzero : forall I, Some (lit (T:=dnum) 0)
                            = Some (DFin (response I s 0 T (ds * ds)))).
  { intros I. now rewrite lit_0_d, response_zero. }
  rewrite <- Hds in Hc.
  destruct (Rleb c 0.001) eqn:Ecull.
  { exists 0, T, (ds * ds). repeat split; try lra.
    intros I HI. rewrite calc_unfold. cbv zeta.
    rewrite Hc, lit_0001, dle_fin, Ecull. apply Hzero. }
  apply Rleb_false in Ecull.
  (* the off-axis angle *)
  assert (Hmin : nmin (lit 1) (DFin c) = DFin (Rmin 1 c)).
  { now rewrite lit_1_d, nmin_dnum. }
  assert (Hminr : -1 <= Rmin 1 c <= 1).
  { unfold Rmin. destruct (Rle_dec 1 c); lra. }
  destruct (@dacos_fin _ Hminr) as [Hacos Hacr].
  set (theta := flush (acos (Rmin 1 c))) in *.
  assert (Hk : (lit 180 / mPI)%js = DFin (flush (180 / PI))
               /\ 0 <= flush (180 / PI) <= 180).
  { pose proof PI2_1 as Hpi.
    assert (Hpi2 : 2 < PI) by lra.
    assert (Hinv : 0 < / PI <= 1).
    { split; [apply Rinv_0_lt_compat; lra|].
      rewrite <- Rinv_1. apply Rinv_le_contravar; lra. }
    assert (Hq : 0 <= 180 / PI <= 180) by (unfold Rdiv; split; nra).
    split.
    - rewrite lit_180. apply ddiv_fin; [lra|].
      rewrite Rabs_right by lra. consts; lra.
    - pose proof (@flush_nonneg _ (proj1 Hq)). lra. }
  destruct Hk as [Hk Hkr]. set (k := flush (180 / PI)) in *.
  assert (Hdeg : (DFin theta * DFin k)%js = DFin (flush (theta * k))).
  { apply dmul_fin. rewrite Rabs_right by nra.
    apply Rle_lt_trans with 720; [nra | consts; lra]. }
  destruct (@getBeam_dnum M pat (flush (theta * k)) HM Hne Hall) as [rel0 [Hbeam Hrel0]].
  destruct (Rleb rel0 0) eqn:Erel.
  { exists 0, T, (ds * ds). repeat split; try lra.
    intros I HI. rewrite calc_unfold. cbv zeta.
    rewrite Hc, lit_0001, dle_fin.
    replace (Rleb c 0.001) with false by (symmetry; now apply Rleb_false).
    rewrite Hmin, Hacos, Hk, Hdeg, Hbeam, lit_0_d, dle_fin, Erel.
    rewrite <- lit_0_d. apply Hzero. }
  apply Rleb_false in Erel.
  exists rel0, T, (ds * ds). repeat split; try lra.
  intros I HI. rewrite calc_unfold. cbv zeta.
  rewrite Hc, lit_0001, dle_fin.
  replace (Rleb c 0.001) with false by (symmetry; now apply Rleb_false).
  rewrite Hmin, Hacos, Hk, Hdeg, Hbeam, lit_0_d, dle_fin.
  replace (Rleb rel0 0) with false by (symmetry; now apply Rleb_false).
  rewrite Hds, Hu, HT, Hdd.
  assert (H1 : 0 <= I * s <= BIG * BIG) by (split; nra).
  rewrite (@dmul_fin I s) by (rewrite Rabs_right by lra; nra).
  pose proof (@flush_nonneg _ (proj1 H1)) as Ha.
  set (a := flush (I * s)) in *.
  assert (H2 : 0 <= a * rel0 <= BIG * BIG * BIG).
  { split; [nra|]. assert (a * rel0 <= (BIG * BIG) * BIG) by (apply Rmult_le_compat; lra).
    lra. }
  rewrite (@dmul_fin a rel0) by (rewrite Rabs_right by lra; nra).
  pose proof (@flush_nonneg _ (proj1 H2)) as Hb.
  set (b := flush (a * rel0)) in *.
  assert (H3 : 0 <= b * T <= BIG * BIG * BIG).
  { split; [nra|]. assert (b * T <= (BIG * BIG * BIG) * 1) by (apply Rmult_le_compat; lra).
    lra. }
  rewrite (@dmul_fin b T) by (rewrite Rabs_right by lra; nra).
  pose proof (@flush_nonneg _ (proj1 H3)) as Hcc.
  set (cc := flush (b * T)) in *.
  assert (Hinv : 0 < / (ds * ds) <= 400).
  { split; [apply Rinv_0_lt_compat; lra|].
    replace 400 with (/ 0.0025) by lra. apply Rinv_le_contravar; lra. }
  assert (H4 : 0 <= cc / (ds * ds) <= 400 * (BIG * BIG * BIG)).
  { unfold Rdiv. split; [apply Rmult_le_pos; lra|].
    rewrite (Rmult_comm 400). apply Rmult_le_compat; lra. }
  assert (Hne0 : ds * ds <> 0) by lra.
  assert (Hq : Rabs (cc / (ds * ds)) < OVER) by (rewrite Rabs_right by lra; lra).
  rewrite (@ddiv_fin cc (ds * ds) Hne0 Hq).
  reflexivity.
Qed.

(** ** Evaluation on the optical axis *)

(** A value that is 0 or within the range of the normal doubles is not
    changed by [dround]. *)
Definition exact (c : R) : Prop := c = 0 \/ UNDER < Rabs c < OVER.

Lemma dround_exact (c : R) : exact c -> dround c = DFin c.
Proof.
  intros [-> | [Hlo Hhi]].
  - rewrite dround_flush by (rewrite Rabs_R0; consts; lra).
    now rewrite flush_0.
  - rewrite dround_flush by exact Hhi. now rewrite flush_id.
Qed.

Lemma exact_pos (c : R) : / 1000000000000 <= c -> c <= BIG * BIG -> exact c.
Proof.
  intros Hlo Hhi. right. pose proof UNDER_lt. pose proof OVER_gt.
  pose proof BIG_ge. rewrite Rabs_right by lra. split; [lra | nra].
Qed.

Lemma dmul_val (a b c : R) : a * b = c -> exact c -> (DFin a * DFin b)%js = DFin c.
Proof. intros <- Hc. cbn. now apply dround_exact. Qed.

Lemma dadd_val (a b c : R) : a + b = c -> exact c -> (DFin a + DFin b)%js = DFin c.
Proof. intros <- Hc. cbn. now apply dround_exact. Qed.

Lemma ddiv_val (a b c : R) :
  b <> 0 -> a / b = c -> exact c -> (DFin a / DFin b)%js = DFin c.
Proof.
  intros Hb <- Hc. cbn. destruct (Req_dec_T b 0) as [Hz|_]; [contradiction|].
  now apply dround_exact.
Qed.

Lemma exact_0 : exact 0.
Proof. now left. Qed.

Lemma exact_1 : exact 1.
Proof. apply exact_pos; pose proof BIG_ge; [lra | nra]. Qed.

(** At the point [(0, y, 0)] of the axis of a source with yaw and pitch 0,
    the off-axis angle is 0, the default pattern gives the relative
    intensity 1, and the result is the quotient of the source. *)
Lemma on_axis_dnum (y : R) (peakCandela spectralFactor : dnum) :
  1 <= y <= BIG ->
  calculateIlluminance (DFin 0) (DFin y) (DFin 0) (DFin 0) (DFin 0)
    peakCandela spectralFactor (dpattern DEFAULT_PATTERN_R)
  = Some ((peakCandela * spectralFactor * DFin 1
           * DFin (flush (exp (flush (- (0.00015) * y)))))
          / DFin (y * y))%js.
Proof.
  intros Hy. pose proof BIG_ge as HB. pose proof OVER_gt as HO.
  assert (Hyy : exact (y * y)) by (apply exact_pos; nra).
  assert (Hey : exact y) by (apply exact_pos; nra).
  rewrite calc_unfold. cbv zeta.
  rewrite (@dmul_val 0 0 0) by (lra || apply exact_0).
  rewrite (@dmul_val y y (y * y)) by (reflexivity || exact Hyy).
  rewrite (@dadd_val 0 (y * y) (y * y)) by (lra || exact Hyy).
  rewrite (@dadd_val (y * y) 0 (y * y)) by (lra || exact Hyy).
  assert (Hsqrt : msqrt (DFin (y * y)) = DFin y).
  { cbn. destruct (Rleb 0 (y * y)) eqn:E.
    - rewrite sqrt_square by lra. now apply dround_exact.
    - apply Rleb_false in E. nra. }
  rewrite Hsqrt, lit_005, nmax_dnum.
  rewrite (Rmax_right 0.05 y) by lra.
  assert (Hsin : msin (DFin 0) = DFin 0).
  { cbn. rewrite sin_0. apply dround_exact, exact_0. }
  assert (Hcos : mcos (DFin 0) = DFin 1).
  { cbn. rewrite cos_0. apply dround_exact, exact_1. }
  rewrite Hsin, Hcos.
  rewrite (@dmul_val 0 1 0) by (lra || apply exact_0).
  rewrite (@dmul_val 1 1 1) by (lra || apply exact_1).
  rewrite (@ddiv_val 0 y 0) by (lra || apply exact_0 || (unfold Rdiv; lra)).
  rewrite (@ddiv_val y y 1) by (lra || apply exact_1 || (field; lra)).
  rewrite (@dmul_val 0 0 0) by (lra || apply exact_0).
  rewrite (@dmul_val 1 1 1) by (lra || apply exact_1).
  rewrite (@dadd_val 0 1 1) by (lra || apply exact_1).
  rewrite (@dadd_val 1 0 1) by (lra || apply exact_1).
  rewrite lit_0001, dle_fin.
  replace (Rleb 1 0.001) with false by (symmetry; apply Rleb_false; lra).
  rewrite lit_1_d, nmin_dnum. rewrite (Rmin_left 1 1) by lra.
  assert (Hacos : macos (DFin 1) = DFin 0).
  { cbn. replace (Rleb (-1) 1) with true by (symmetry; apply Rleb_true; lra).
    replace (Rleb 1 1) with true by (symmetry; apply Rleb_true; lra).
    cbn. rewrite acos_1. apply dround_exact, exact_0. }
  rewrite Hacos.
  assert (Hk : exists k, (lit 180 / mPI)%js = DFin k).
  { pose proof PI2_1 as Hpi.
    assert (Hinv : 0 < / PI <= 1).
    { split; [apply Rinv_0_lt_compat; lra|].
      rewrite <- Rinv_1. apply Rinv_le_contravar; lra. }
    rewrite lit_180. eexists. apply ddiv_fin; [lra|].
    rewrite Rabs_right by (unfold Rdiv; nra).
    apply Rle_lt_trans with 180; [unfold Rdiv; nra | consts; lra]. }
  destruct Hk as [k ->].
  rewrite (@dmul_val 0 k 0) by (lra || apply exact_0).
  assert (Hbeam : getBeamIntensityDynamic (dpattern DEFAULT_PATTERN_R) (DFin 0)
                  = Some (DFin 1)).
  { unfold DEFAULT_PATTERN_R, DEFAULT_BEAM_PATTERN, dpattern,
      getBeamIntensityDynamic.
    cbn [map fst snd angle intensity]. rewrite dabs_fin, dle_fin.
    replace (Rleb (Rabs 0) (Q2R 0)) with true
      by (symmetry; apply Rleb_true; rewrite Rabs_R0, PhysicsExtra.lit_0; lra).
    do 2 f_equal. unfold Q2R; cbn [Qnum Qden]; simpl IZR. lra. }
  rewrite Hbeam, lit_0_d, dle_fin.
  replace (Rleb 1 0) with false by (symmetry; apply Rleb_false; lra).
  rewrite lit_ALPHA, dneg_fin.
  rewrite (@dmul_fin (- (0.00015)) y)
    by (rewrite Rabs_left by lra; nra).
  assert (Hu0 : flush (- (0.00015) * y) <= 0).
  { assert (H0 : - (0.00015) * y <= 0) by lra.
    pose proof (@flush_nonpos _ H0). lra. }
  destruct (@dexp_fin _ Hu0) as [-> _].
  rewrite (@dmul_val y y (y * y)) by (reflexivity || exact Hyy).
  reflexivity.
Qed.

(** ** C5: totality of the illuminance *)

Lemma DEFAULT_PATTERN_R_range : patternInRange 1 DEFAULT_PATTERN_R.
Proof.
  pose proof BIG_ge as HB.
  intros e He. unfold DEFAULT_PATTERN_R, DEFAULT_BEAM_PATTERN in He.
  cbn [map In fst snd] in He.
  destruct He as [<- | [<- | [<- | [<- | []]]]]; cbn [fst snd];
    unfold Q2R; cbn [Qnum Qden]; simpl IZR;
    (split; [rewrite Rabs_right by lra; lra | lra]).
Qed.


(** ** Overflow and underflow at the source's limits *)

Lemma exp_1_ge_2 : 2 <= exp 1.
Proof.
  assert (H : 1 + 1 < exp 1) by (apply exp_ineq1; lra). lra.
Qed.

Lemma exp_ge_pow2 (n : nat) : 2 ^ n <= exp (INR n).
Proof.
  induction n as [|n IH].
  - simpl. rewrite exp_0. lra.
  - rewrite S_INR, exp_plus. cbn [pow]. pose proof exp_1_ge_2 as H2.
    pose proof (exp_pos (INR n)) as Hp.
    assert (H0 : 0 < 2 ^ n) by (apply pow_lt; lra).
    rewrite (Rmult_comm 2). apply Rmult_le_compat; lra.
Qed.

(** [exp (-1500)] is below the smallest double. *)
Lemma exp_underflow (u : R) : u <= - 1500 -> flush (exp u) = 0.
Proof.
  intros Hu. apply flush_under. pose proof (exp_pos u) as Hp.
  rewrite Rabs_right by lra.
  assert (H1 : exp u <= exp (- INR 1075)).
  { assert (HI : INR 1075 = 1075).
    { rewrite INR_IZR_INZ. reflexivity. }
    rewrite HI. destruct (Req_dec u (- 1075)) as [->|Hn]; [lra|].
    left. apply exp_increasing. lra. }
  assert (H2 : exp (- INR 1075) <= UNDER).
  { rewrite exp_Ropp. unfold UNDER.
    assert (HZ : IZR UNDERZ = 2 ^ 1075).
    { rewrite pow_IZR. reflexivity. }
    rewrite HZ. apply Rinv_le_contravar; [apply pow_lt; lra|].
    apply exp_ge_pow2. }
  lra.
Qed.

Lemma exp_no_underflow (u : R) : - 1 / 2 <= u <= 0 -> 1 / 2 <= flush (exp u) <= 1.
Proof.
  intros [Hlo Hhi]. pose proof UNDER_lt as HU.
  assert (H1 : 1 / 2 <= exp u).
  { destruct (Req_dec u 0) as [->|Hn]; [rewrite exp_0; lra|].
    assert (H : 1 + u < exp u) by (apply exp_ineq1; lra). lra. }
  assert (H2 : exp u <= 1).
  { rewrite <- exp_0. destruct (Req_dec u 0) as [->|Hn]; [lra|].
    left. apply exp_increasing. lra. }
  rewrite flush_id by (rewrite Rabs_right by lra; lra). lra.
Qed.

Lemma e308 : 1e308 * 10 = 10 * IZR (10 ^ 308).
Proof. rewrite Rmult_1_l. apply Rmult_comm. Qed.

Lemma dround_1e309 : dround (1e308 * 10) = DInf false.
Proof.
  apply dround_over. rewrite e308. unfold OVER, OVERZ.
  let v := eval vm_compute in (10 ^ 308)%Z in change (10 ^ 308)%Z with v.
  lra.
Qed.

(** At the point [(0, 1, 0)] of the axis the overflowing source gives
    [Infinity]; at [(0, 1e7, 0)], where the transmissivity underflows, it
    gives [NaN]. *)
Lemma axis_overflow_values :
  calculateIlluminance (DFin 0) (DFin 1) (DFin 0) (DFin 0) (DFin 0)
    (DFin 1e308) (DFin 10) (dpattern DEFAULT_PATTERN_R) = Some (DInf false) /\
  calculateIlluminance (DFin 0) (DFin 1e7) (DFin 0) (DFin 0) (DFin 0)
    (DFin 1e308) (DFin 10) (dpattern DEFAULT_PATTERN_R) = Some DNaN.
Proof.
  pose proof BIG_ge as HB. pose proof UNDER_lt as HU. pose proof UNDER_pos as HU0.
  assert (Hinf : calculateIlluminance (DFin 0) (DFin 1) (DFin 0) (DFin 0) (DFin 0)
    (DFin 1e308) (DFin 10) (dpattern DEFAULT_PATTERN_R) = Some (DInf false)).
  { assert (H1 : 1 <= 1 <= BIG) by lra.
    rewrite (@on_axis_dnum 1 _ _ H1). f_equal.
    change (DFin 1e308 * DFin 10)%js with (dround (1e308 * 10)).
    rewrite dround_1e309.
    assert (Hu : flush (- (0.00015) * 1) = - (0.00015)).
    { rewrite flush_id; [lra|]. rewrite Rabs_left by lra. lra. }
    rewrite Hu.
    assert (HT : 1 / 2 <= flush (exp (- (0.00015))) <= 1)
      by (apply exp_no_underflow; lra).
    set (T := flush (exp (- (0.00015)))) in *.
    cbn. destruct (Req_dec_T 1 0) as [H|_]; [lra|].
    replace (Rltb 1 0) with false by (symmetry; apply Rltb_false; lra).
    cbn. destruct (Req_dec_T T 0) as [H|_]; [lra|].
    replace (Rltb T 0) with false by (symmetry; apply Rltb_false; lra).
    cbn. replace (Rltb (1 * 1) 0) with false by (symmetry; apply Rltb_false; lra).
    reflexivity. }
  assert (Hnan : calculateIlluminance (DFin 0) (DFin 1e7) (DFin 0) (DFin 0) (DFin 0)
    (DFin 1e308) (DFin 10) (dpattern DEFAULT_PATTERN_R) = Some DNaN).
  { assert (H7 : 1e7 = 10000000) by (rewrite Rmult_1_l; reflexivity).
    assert (H1 : 1 <= 1e7 <= BIG) by (rewrite H7; lra).
    rewrite (@on_axis_dnum 1e7 _ _ H1). f_equal.
    change (DFin 1e308 * DFin 10)%js with (dround (1e308 * 10)).
    rewrite dround_1e309.
    assert (Hu : flush (- (0.00015) * 1e7) = - 1500).
    { rewrite H7. rewrite flush_id; [lra|]. rewrite Rabs_left by lra. lra. }
    rewrite Hu, exp_underflow by lra.
    cbn. destruct (Req_dec_T 1 0) as [H|_]; [lra|].
    cbn. destruct (Req_dec_T 0 0) as [_|H]; [reflexivity | lra]. }
  split; assumption.
Qed.

(** C5, as the specification words it: every finite input with
    non-negative peak intensity and spectral factor and a non-empty pattern
    of non-negative intensities gives a finite, non-negative result. *)
Definition illuminance_total_claim : Prop :=
  forall (x y z angleH angleV peakCandela spectralFactor : R) (pat : list (R * R)),
    Rabs x < OVER -> Rabs y < OVER -> Rabs z < OVER ->
    Rabs angleH < OVER -> Rabs angleV < OVER ->
    0 <= peakCandela < OVER -> 0 <= spectralFactor < OVER ->
    pat <> [] ->
    (forall e, In e pat -> Rabs (fst e) < OVER /\ 0 <= snd e < OVER) ->
    exists e,
      calculateIlluminance (DFin x) (DFin y) (DFin z) (DFin angleH) (DFin angleV)
        (DFin peakCandela) (DFin spectralFactor) (dpattern pat)
      = Some (DFin e) /\ 0 <= e.


(** ** The sample lattice and the array on numbers in range *)

Definition finite (v : dnum) : Prop := exists r, v = DFin r.

Lemma fin_finite (B : R) (v : dnum) : fin B v -> finite v.
Proof. intros [r [-> _]]. now exists r. Qed.

Lemma fin_neg (B : R) (v : dnum) : fin B v -> fin B (- v)%js.
Proof.
  intros [r [-> Hr]]. exists (- r). split; [reflexivity | now rewrite Rabs_Ropp].
Qed.

Lemma INR_2500 (n : nat) : (n <= 2500)%nat -> 0 <= INR n <= 2500.
Proof.
  intros Hn. split; [apply pos_INR|].
  apply le_INR in Hn. replace (INR 2500) with 2500 in Hn; [exact Hn|].
  rewrite INR_IZR_INZ. reflexivity.
Qed.

Lemma of_nat_dnum (n : nat) : (n <= 2500)%nat -> of_nat n = DFin (INR n).
Proof.
  intros Hn. unfold of_nat. cbn [lit dnum_Number].
  assert (HQ : Q2R (inject_Z (Z.of_nat n)) = INR n).
  { unfold Q2R, inject_Z; cbn [Qnum Qden]. rewrite INR_IZR_INZ. lra. }
  rewrite HQ. apply dround_exact.
  pose proof (INR_2500 Hn) as Hr. pose proof BIG_ge as HB.
  destruct n as [|n]; [now left|].
  assert (H1 : 1 <= INR (S n)).
  { rewrite S_INR. pose proof (pos_INR n). lra. }
  apply exact_pos; [lra | nra].
Qed.

Lemma lit_2_d : lit 2 = DFin 2.
Proof. rewrite lit_fin by lit_range. f_equal. unfold Q2R; simpl; lra. Qed.

Lemma lit_100_d : lit 100 = DFin 100.
Proof. rewrite lit_fin by lit_range. f_equal. unfold Q2R; simpl; lra. Qed.

(** [i / m] for [i <= m]. *)
Lemma frac_fin (i m : nat) :
  (i <= m)%nat -> (1 <= m <= 2500)%nat -> fin 1 (of_nat i / of_nat m)%js.
Proof.
  intros Him Hm. rewrite !of_nat_dnum by lia.
  pose proof (@INR_2500 i ltac:(lia)) as Hi. pose proof (@INR_2500 m ltac:(lia)) as Hmr.
  assert (H1 : 1 <= INR m).
  { destruct Hm as [Hm _]. apply le_INR in Hm. simpl in Hm. lra. }
  assert (Hle : INR i <= INR m) by now apply le_INR.
  assert (Hq : 0 <= INR i / INR m <= 1).
  { unfold Rdiv. assert (Hinv : 0 < / INR m) by (apply Rinv_0_lt_compat; lra).
    split; [apply Rmult_le_pos; lra|].
    apply Rmult_le_reg_r with (INR m); [lra|].
    rewrite Rmult_assoc, Rinv_l by lra. lra. }
  pose proof OVER_big as HO.
  rewrite ddiv_fin; [| lra | rewrite Rabs_right by lra; lra].
  apply fin_DFin. pose proof (@flush_nonneg _ (proj1 Hq)) as Hf.
  rewrite Rabs_right by lra. lra.
Qed.

Lemma scaled_fin (i m : nat) (u : dnum) :
  (i <= m)%nat -> (1 <= m <= 2500)%nat -> fin BIG u ->
  fin BIG ((of_nat i / of_nat m) * u)%js.
Proof.
  intros Him Hm Hu. pose proof OVER_gt as HO. pose proof BIG_ge as HB.
  assert (Hov : 1 * BIG < OVER) by nra.
  pose proof (@fin_mul _ _ _ _ (@frac_fin i m Him Hm) Hu Hov) as H1.
  apply (@fin_weaken _ BIG _ H1). lra.
Qed.

Lemma half_fin (w : R) : Rabs w <= BIG -> fin BIG (DFin w / lit 2)%js.
Proof.
  intros Hw. pose proof OVER_gt as HO. pose proof BIG_ge as HB.
  rewrite lit_2_d.
  assert (H2 : 0 < 2) by lra.
  assert (H2' : 2 <= Rabs 2) by (rewrite Rabs_right; lra).
  assert (Hov : BIG / 2 < OVER) by nra.
  pose proof (@fin_div _ _ _ _ (@fin_DFin _ _ Hw) H2 H2' Hov) as H1.
  apply (@fin_weaken _ BIG _ H1). lra.
Qed.

(** A point with coordinates in range. *)
Definition pointInRange (p : Point3D dnum) : Prop :=
  exists x y z, p = mkPoint3D (DFin x) (DFin y) (DFin z) /\
                Rabs x <= BIG /\ Rabs y <= BIG /\ Rabs z <= BIG.

Lemma samples_dnum (targetW targetH targetR : R) (p : Point3D dnum) :
  Rabs targetW <= BIG -> Rabs targetH <= BIG -> Rabs targetR <= BIG ->
  In p (samples (DFin targetW) (DFin targetH) (DFin targetR)) ->
  pointInRange p.
Proof.
  intros HW HH HR Hin.
  apply OptimizerFacts.samples_In in Hin as (i & k & j & Hi & Hk & Hj & ->).
  unfold OptimizerFacts.latticePoint.
  destruct (@scaled_fin i 4 _ Hi ltac:(lia) (@half_fin targetW HW)) as [x [-> Hx]].
  destruct (@scaled_fin j 8 _ ltac:(lia) ltac:(lia) (@fin_DFin BIG targetR HR))
    as [y [-> Hy]].
  destruct (@scaled_fin k 4 _ Hk ltac:(lia) (@half_fin targetH HH)) as [z [-> Hz]].
  exists x, y, z. auto.
Qed.

(** A source with yaw and pitch that are numbers. *)
Definition ledFinite (c : LedConfig dnum) : Prop :=
  exists a b, c = mkLed (DFin a) (DFin b).

Lemma spreadAngles_dnum (count : nat) (spread : R) (a : dnum) :
  (count <= 50)%nat -> Rabs spread <= BIG ->
  In a (spreadAngles count (DFin spread)) -> finite a.
Proof.
  intros Hc Hs Hin. unfold spreadAngles in Hin.
  destruct (Nat.eqb count 1) eqn:E.
  { destruct Hin as [<- | []]. exists 0. apply lit_0_d. }
  apply Nat.eqb_neq in E.
  apply in_map_iff in Hin as [i [<- Hi]]. apply in_seq in Hi.
  assert (Hc2 : (2 <= count)%nat) by lia.
  pose proof OVER_gt as HO. pose proof BIG_ge as HB. pose proof PI_4 as Hpi4.
  pose proof PI_RGT_0 as Hpi0.
  assert (Hpi : fin 4 (mPI (T:=dnum))).
  { apply fin_DFin. rewrite Rabs_right by lra. lra. }
  assert (Hov1 : BIG * 4 < OVER) by nra.
  pose proof (@fin_mul _ _ _ _ (@fin_DFin BIG spread Hs) Hpi Hov1) as H1.
  assert (H180 : 0 < 180) by lra.
  assert (H180' : 180 <= Rabs 180) by (rewrite Rabs_right; lra).
  assert (Hov2 : BIG * 4 / 180 < OVER) by nra.
  assert (Hhalf : fin (BIG * 4 / 180) ((DFin spread * mPI) / lit 180)%js).
  { rewrite lit_180. exact (@fin_div _ _ _ _ H1 H180 H180' Hov2). }
  set (half := ((DFin spread * mPI) / lit 180)%js) in *.
  assert (H2 : fin 2 (lit (T:=dnum) 2)).
  { rewrite lit_2_d. apply fin_DFin. rewrite Rabs_right by lra. lra. }
  assert (Hov3 : BIG * 4 / 180 * 2 < OVER) by nra.
  pose proof (@fin_mul _ _ _ _ Hhalf H2 Hov3) as Hdbl.
  assert (Hden : exists d, (of_nat count - lit 1)%js = DFin d /\ 1 <= Rabs d).
  { rewrite of_nat_dnum by lia. rewrite lit_1_d.
    pose proof (@INR_2500 count ltac:(lia)) as Hr.
    assert (Hc2' : 2 <= INR count).
    { apply le_INR in Hc2. simpl in Hc2. lra. }
    pose proof UNDER_lt as HU.
    rewrite dsub_fin by (rewrite Rabs_right by lra; nra).
    rewrite flush_id by (rewrite Rabs_right by lra; lra).
    eexists; split; [reflexivity|]. rewrite Rabs_right by lra. lra. }
  destruct Hden as [d [Hden Hd]].
  assert (H01 : 0 < 1) by lra.
  assert (Hov4 : BIG * 4 / 180 * 2 / 1 < OVER) by nra.
  assert (Hstep : fin (BIG * 4 / 180 * 2 / 1)
                    ((half * lit 2) / (of_nat count - lit 1))%js).
  { rewrite Hden. exact (@fin_div _ _ _ _ Hdbl H01 Hd Hov4). }
  assert (Hi50 : fin 50 (of_nat (T:=dnum) i)).
  { rewrite of_nat_dnum by lia. apply fin_DFin.
    pose proof (pos_INR i) as Hp.
    assert (Hle : INR i <= INR 50) by (apply le_INR; lia).
    replace (INR 50) with 50 in Hle by (rewrite INR_IZR_INZ; reflexivity).
    rewrite Rabs_right by lra. lra. }
  assert (Hov5 : 50 * (BIG * 4 / 180 * 2 / 1) < OVER) by nra.
  pose proof (@fin_mul _ _ _ _ Hi50 Hstep Hov5) as Hprod.
  assert (Hov6 : BIG * 4 / 180 + 50 * (BIG * 4 / 180 * 2 / 1) < OVER) by nra.
  exact (@fin_finite _ _ (@fin_add _ _ _ _ (@fin_neg _ _ Hhalf) Hprod Hov6)).
Qed.

Lemma flat_map_pairs_length {A B C : Type} (f : A -> B -> C) (l : list A) (m : list B) :
  length (flat_map (fun a => map (fun b => f a b) m) l) = (length l * length m)%nat.
Proof.
  induction l as [|a l IH]; [reflexivity|].
  cbn [flat_map length]. rewrite length_app, length_map, IH. lia.
Qed.

Lemma generateLedConfig_dnum (ledCount rowCount : nat) (h v : R) :
  (ledCount <= 50)%nat -> (rowCount <= 50)%nat ->
  Rabs h <= BIG -> Rabs v <= BIG ->
  let cfg := generateLedConfig ledCount (DFin h) rowCount (DFin v) in
  (length cfg <= 2500)%nat /\ forall c, In c cfg -> ledFinite c.
Proof.
  intros Hl Hr Hh Hv cfg. unfold cfg, generateLedConfig. split.
  - rewrite flat_map_pairs_length, !OptimizerExtra.spreadAngles_length. nia.
  - intros c Hin. apply in_flat_map in Hin as [a [Ha Hin]].
    apply in_map_iff in Hin as [b [<- Hb]].
    destruct (@spreadAngles_dnum ledCount h a Hl Hh Ha) as [ra ->].
    destruct (@spreadAngles_dnum rowCount v b Hr Hv Hb) as [rb ->].
    now exists ra, rb.
Qed.

(** ** C8: the coverage against the peak intensity *)

(** The bound of one illuminance in range. *)
Definition RESP : R := 400 * (BIG * BIG * BIG).

Lemma RESP_over : 2500 * RESP < OVER.
Proof. unfold RESP. pose proof OVER_gt. lra. Qed.

Lemma RESP_pos : 0 < RESP.
Proof. unfold RESP. pose proof BIG_ge. assert (0 < BIG * BIG * BIG) by nra. lra. Qed.

(** A total that does not decrease with the peak intensity. *)
Definition monotoneTotal (tot : R -> R) : Prop :=
  forall I I', 0 <= I <= I' -> I' <= BIG -> 0 <= tot I <= tot I'.

Lemma totalAt_dnum (cfg : list (LedConfig dnum)) (p : Point3D dnum)
  (s : R) (pat : list (R * R)) :
  (length cfg <= 2500)%nat -> (forall c, In c cfg -> ledFinite c) ->
  pointInRange p -> 0 <= s <= BIG -> pat <> [] -> patternInRange BIG pat ->
  exists tot,
    monotoneTotal tot /\
    forall I, 0 <= I <= BIG ->
      totalAt cfg p (DFin I) (DFin s) (dpattern pat) = Some (DFin (tot I)).
Proof.
  intros Hlen Hcfg (x & y & z & -> & Hx & Hy & Hz) Hs Hne Hpat.
  pose proof BIG_ge as HB. pose proof RESP_over as HRO. pose proof RESP_pos as HRP.
  unfold totalAt. rewrite lit_0_d.
  assert (Hgen : forall (cfg : list (LedConfig dnum)) (n : nat) (acc : R -> R),
    (length cfg + n <= 2500)%nat -> (forall c, In c cfg -> ledFinite c) ->
    monotoneTotal acc ->
    (forall I, 0 <= I <= BIG -> acc I <= INR n * RESP) ->
    exists tot,
      monotoneTotal tot /\
      forall I, 0 <= I <= BIG ->
        fold_left
          (fun total c =>
             match total with
             | None => None
             | Some t =>
                 match calculateIlluminance (p3x (mkPoint3D (DFin x) (DFin y) (DFin z)))
                         (p3y (mkPoint3D (DFin x) (DFin y) (DFin z)))
                         (p3z (mkPoint3D (DFin x) (DFin y) (DFin z)))
                         (led_h c) (led_v c) (DFin I) (DFin s) (dpattern pat) with
                 | None => None
                 | Some e => Some (t + e)%js
                 end
             end)
          cfg (Some (DFin (acc I))) = Some (DFin (tot I))).
  { clear cfg Hlen Hcfg.
    induction cfg as [|c cfg IH]; intros n acc Hlen Hcfg Hacc Hbound.
    - exists acc. split; [exact Hacc | reflexivity].
    - destruct (Hcfg c (or_introl eq_refl)) as (a & b & ->).
      assert (HM : 0 <= BIG <= BIG) by lra.
      destruct (@illuminance_response x y z a b s BIG pat Hx Hy Hz Hs HM Hne Hpat)
        as (rel & T & dd & Hrel & HT & Hdd & Hval).
      set (acc' := fun I => flush (acc I + response I s rel T dd)).
      assert (Hn : INR (S n) <= 2500).
      { apply (@INR_2500 (S n)). cbn [length] in Hlen. lia. }
      assert (Hacc' : monotoneTotal acc').
      { intros I I' HI HI'. unfold acc'.
        destruct (Hacc I I' HI HI') as [Ha0 Ha1].
        destruct (@response_mono I I' s rel T dd HI) as [Hr0 Hr1]; try lra.
        split; [apply flush_nonneg; lra | apply flush_mono; lra]. }
      assert (Hsum : forall I, 0 <= I <= BIG ->
                0 <= acc I + response I s rel T dd <= INR (S n) * RESP).
      { intros I HI. rewrite S_INR.
        assert (HII : 0 <= I <= I) by lra.
        destruct (Hacc I I HII (proj2 HI)) as [Ha0 _].
        pose proof (Hbound I HI) as Ha1.
        destruct (@response_bound I s rel T dd BIG HI Hs Hrel) as [Hr0 Hr1];
          try lra.
        fold RESP in Hr1. lra. }
      assert (Hbound' : forall I, 0 <= I <= BIG -> acc' I <= INR (S n) * RESP).
      { intros I HI. unfold acc'. destruct (Hsum I HI) as [H0 H1].
        pose proof (@flush_nonneg _ H0). lra. }
      assert (Hlen' : (length cfg + S n <= 2500)%nat) by (cbn [length] in Hlen; lia).
      destruct (IH (S n) acc' Hlen' (fun c' H' => Hcfg c' (or_intror H')) Hacc' Hbound')
        as [tot [Htot Hfold]].
      exists tot. split; [exact Htot|].
      intros I HI. cbn [fold_left p3x p3y p3z led_h led_v].
      rewrite (Hval I HI).
      destruct (Hsum I HI) as [H0 H1].
      rewrite dadd_fin by (rewrite Rabs_right by lra; nra).
      apply (Hfold I HI). }
  destruct (Hgen cfg 0%nat (fun _ => 0)) as [tot [Htot Hfold]].
  - lia.
  - exact Hcfg.
  - intros I I' _ _. lra.
  - intros I _. simpl. lra.
  - exists tot. split; [exact Htot|]. exact Hfold.
Qed.

(** The comparison [total >= threshold] can only turn from false to true
    when the total grows, whatever the threshold is. *)
Lemma dle_mono (threshold : dnum) (a b : R) :
  a <= b -> (DFin a >=? threshold)%js = true -> (DFin b >=? threshold)%js = true.
Proof.
  intros Hab. destruct threshold as [t | sg |]; cbn; auto.
  intros Ht. apply Rleb_true in Ht. apply Rleb_true. lra.
Qed.

Lemma countHits_mono_dnum (cfg : list (LedConfig dnum)) (pts : list (Point3D dnum))
  (I I' s : R) (threshold : dnum) (pat : list (R * R)) :
  (length cfg <= 2500)%nat -> (forall c, In c cfg -> ledFinite c) ->
  (forall p, In p pts -> pointInRange p) ->
  0 <= I <= I' -> I' <= BIG -> 0 <= s <= BIG -> pat <> [] -> patternInRange BIG pat ->
  exists n n',
    countHits cfg pts (DFin I) (DFin s) threshold (dpattern pat) = Some n /\
    countHits cfg pts (DFin I') (DFin s) threshold (dpattern pat) = Some n' /\
    (n <= n' <= length pts)%nat.
Proof.
  intros Hlen Hcfg Hpts HI HI' Hs Hne Hpat. unfold countHits.
  assert (Hgen : forall (pts : list (Point3D dnum)) (n0 n0' : nat),
    (forall p, In p pts -> pointInRange p) -> (n0 <= n0')%nat ->
    exists n n',
      fold_left
        (fun hits p =>
           match hits with
           | None => None
           | Some n =>
               match totalAt cfg p (DFin I) (DFin s) (dpattern pat) with
               | None => None
               | Some total => Some (if (total >=? threshold)%js then S n else n)
               end
           end) pts (Some n0) = Some n /\
      fold_left
        (fun hits p =>
           match hits with
           | None => None
           | Some n =>
               match totalAt cfg p (DFin I') (DFin s) (dpattern pat) with
               | None => None
               | Some total => Some (if (total >=? threshold)%js then S n else n)
               end
           end) pts (Some n0') = Some n' /\
      (n <= n' <= n0' + length pts)%nat).
  { clear pts Hpts. induction pts as [|p pts IH]; intros n0 n0' Hpts Hn.
    - exists n0, n0'. cbn. repeat split; lia.
    - destruct (@totalAt_dnum cfg p s pat Hlen Hcfg (Hpts p (or_introl eq_refl))
                  Hs Hne Hpat) as [tot [Htot Hval]].
      assert (HIb : 0 <= I <= BIG) by lra.
      assert (HIb' : 0 <= I' <= BIG) by lra.
      destruct (Htot I I' HI HI') as [_ Hle].
      cbn [fold_left]. rewrite (Hval I HIb), (Hval I' HIb').
      pose proof (@dle_mono threshold (tot I) (tot I') Hle) as Hmono.
      destruct (DFin (tot I) >=? threshold)%js eqn:E.
      + rewrite (Hmono eq_refl).
        destruct (IH (S n0) (S n0') (fun q Hq => Hpts q (or_intror Hq)) ltac:(lia))
          as (n & n' & H1 & H2 & H3).
        exists n, n'. cbn [length]. repeat split; auto; lia.
      + destruct (DFin (tot I') >=? threshold)%js.
        * destruct (IH n0 (S n0') (fun q Hq => Hpts q (or_intror Hq)) ltac:(lia))
            as (n & n' & H1 & H2 & H3).
          exists n, n'. cbn [length]. repeat split; auto; lia.
        * destruct (IH n0 n0' (fun q Hq => Hpts q (or_intror Hq)) Hn)
            as (n & n' & H1 & H2 & H3).
          exists n, n'. cbn [length]. repeat split; auto; lia. }
  destruct (Hgen pts 0%nat 0%nat Hpts (le_n 0)) as (n & n' & H1 & H2 & H3).
  exists n, n'. repeat split; auto; lia.
Qed.

(** The score of [hits] lit points among 200. *)
Definition score (hits : nat) : R := flush (flush (INR hits / 200) * 100).

Lemma score_dnum (hits : nat) :
  (hits <= 200)%nat ->
  ((of_nat hits / of_nat 200) * lit 100)%js = DFin (score hits).
Proof.
  intros Hh. rewrite !of_nat_dnum by lia. rewrite lit_100_d.
  pose proof (@INR_2500 hits ltac:(lia)) as Hr. pose proof OVER_big as HO.
  assert (H200 : INR 200 = 200) by (rewrite INR_IZR_INZ; reflexivity).
  assert (Hle : INR hits <= 200) by (rewrite <- H200; apply le_INR; lia).
  rewrite H200.
  assert (Hq : 0 <= INR hits / 200 <= 1) by (unfold Rdiv; lra).
  rewrite ddiv_fin; [| lra | rewrite Rabs_right by lra; lra].
  pose proof (@flush_nonneg _ (proj1 Hq)) as Hf.
  rewrite dmul_fin by (rewrite Rabs_right by lra; lra).
  reflexivity.
Qed.

Lemma score_mono (n n' : nat) : (n <= n')%nat -> score n <= score n'.
Proof.
  intros Hn. unfold score. apply le_INR in Hn.
  apply flush_mono. apply Rmult_le_compat_r; [lra|].
  apply flush_mono. unfold Rdiv. lra.
Qed.



(** ** The coverage when the source overflows *)

Lemma calculateIlluminance_some {T : Type} `{Number T} `{MathLib T}
  (x y z angleH angleV I s : T) (pat : list (BeamPoint T)) :
  pat <> [] ->
  exists e, calculateIlluminance x y z angleH angleV I s pat = Some e.
Proof.
  intros Hne. rewrite calc_unfold. cbv zeta.
  destruct (nle _ _); [eauto|].
  match goal with
  | |- context [getBeamIntensityDynamic pat ?a] =>
      destruct (@getBeamIntensityDynamic_defined _ _ pat a Hne) as [rel ->]
  end.
  destruct (nle _ _); eauto.
Qed.

Lemma filter_length_miss {A : Type} (f : A -> bool) (l : list A) (x : A) :
  In x l -> f x = false -> (S (length (filter f l)) <= length l)%nat.
Proof.
  intros Hin Hf. induction l as [|a l IH]; [contradiction|].
  cbn [filter length]. destruct Hin as [-> | Hin].
  - rewrite Hf. pose proof (filter_length_le f l). lia.
  - specialize (IH Hin). destruct (f a); cbn [length]; lia.
Qed.

(** With the threshold 0 every point whose total is a number is lit. *)
Lemma countHits_all_lit (cfg : list (LedConfig dnum)) (pts : list (Point3D dnum))
  (I s : R) (pat : list (R * R)) :
  (length cfg <= 2500)%nat -> (forall c, In c cfg -> ledFinite c) ->
  (forall p, In p pts -> pointInRange p) ->
  0 <= I <= BIG -> 0 <= s <= BIG -> pat <> [] -> patternInRange BIG pat ->
  countHits cfg pts (DFin I) (DFin s) (DFin 0) (dpattern pat) = Some (length pts).
Proof.
  intros Hlen Hcfg Hpts HI Hs Hne Hpat.
  assert (Hall : forall p, In p pts ->
            exists t, totalAt cfg p (DFin I) (DFin s) (dpattern pat) = Some (DFin t)
                      /\ 0 <= t).
  { intros p Hp.
    destruct (@totalAt_dnum cfg p s pat Hlen Hcfg (Hpts p Hp) Hs Hne Hpat)
      as [tot [Htot Hval]].
    exists (tot I). split; [now apply Hval|].
    assert (HII : 0 <= I <= I) by lra.
    apply (Htot I I HII (proj2 HI)). }
  unfold countHits.
  change (Some (length pts)) with (Some (0 + length pts)%nat).
  generalize 0%nat as n. clear Hpts.
  induction pts as [|p pts IH]; intros n.
  - cbn. f_equal. lia.
  - cbn [fold_left length].
    destruct (Hall p (or_introl eq_refl)) as [t [-> Ht]].
    replace (DFin t >=? DFin 0)%js with true
      by (symmetry; cbn; apply Rleb_true; exact Ht).
    rewrite IH by (intros q Hq; apply Hall; now right).
    f_equal. lia.
Qed.

Lemma score_200 : score 200 = 100.
Proof.
  unfold score. pose proof UNDER_lt as HU. pose proof UNDER_pos as HU0.
  assert (H200 : INR 200 = 200) by (rewrite INR_IZR_INZ; reflexivity).
  rewrite H200.
  replace (200 / 200) with 1 by lra.
  rewrite (@flush_id 1) by (rewrite Rabs_right by lra; lra).
  replace (1 * 100) with 100 by lra.
  apply flush_id. rewrite Rabs_right by lra. lra.
Qed.

Lemma score_199 (n : nat) : (n <= 199)%nat -> score n <= 99.5.
Proof.
  intros Hn. apply le_INR in Hn.
  assert (H199 : INR 199 = 199) by (rewrite INR_IZR_INZ; reflexivity).
  rewrite H199 in Hn. pose proof (pos_INR n) as Hp.
  unfold score.
  assert (Hq : 0 <= INR n / 200) by (unfold Rdiv; lra).
  pose proof (@flush_nonneg _ Hq) as Hf.
  assert (Hm : 0 <= flush (INR n / 200) * 100) by lra.
  pose proof (@flush_nonneg _ Hm) as Hg.
  unfold Rdiv in *. lra.
Qed.

Lemma e7 : 1e7 = 10000000.
Proof. rewrite Rmult_1_l. reflexivity. Qed.

(** The lattice of the box 1000 x 600 x 1e7 contains the point
    [(0, 1e7, 0)] of the axis. *)
Lemma axis_point_sampled :
  In (mkPoint3D (DFin 0) (DFin 1e7) (DFin 0))
     (samples (DFin 1000) (DFin 600) (DFin 1e7)).
Proof.
  apply OptimizerFacts.samples_In. exists 0%nat, 0%nat, 8%nat.
  repeat split; try lia.
  unfold OptimizerFacts.latticePoint. rewrite !of_nat_dnum by lia.
  assert (H0 : INR 0 = 0) by reflexivity.
  assert (H4 : INR 4 = 4) by (rewrite INR_IZR_INZ; reflexivity).
  assert (H8 : INR 8 = 8) by (rewrite INR_IZR_INZ; reflexivity).
  rewrite H0, H4, H8, lit_2_d, e7.
  pose proof BIG_ge as HB.
  rewrite (@ddiv_val 0 4 0) by (lra || apply exact_0 || (unfold Rdiv; lra)).
  rewrite (@ddiv_val 8 8 1) by (lra || apply exact_1 || (unfold Rdiv; lra)).
  rewrite (@ddiv_val 1000 2 500)
    by (lra || (apply exact_pos; nra) || (unfold Rdiv; lra)).
  rewrite (@ddiv_val 600 2 300)
    by (lra || (apply exact_pos; nra) || (unfold Rdiv; lra)).
  rewrite (@dmul_val 0 500 0) by (lra || apply exact_0).
  rewrite (@dmul_val 0 300 0) by (lra || apply exact_0).
  rewrite (@dmul_val 1 10000000 10000000) by (lra || (apply exact_pos; nra)).
  reflexivity.
Qed.

(** C8, as the specification words it: for all finite inputs, raising the
    peak intensity does not lower the coverage. *)
Definition coverage_monotone_claim : Prop :=
  forall (ledCount rowCount : nat) (peak peak' spectralCorrection threshold : R)
         (pat : list (R * R)) (targetW targetH targetR h v : R),
    0 <= peak <= peak' -> peak' < OVER ->
    0 <= spectralCorrection < OVER -> 0 <= threshold < OVER ->
    pat <> [] ->
    (forall e, In e pat -> Rabs (fst e) < OVER /\ 0 <= snd e < OVER) ->
    Rabs targetW < OVER -> Rabs targetH < OVER -> Rabs targetR < OVER ->
    Rabs h < OVER -> Rabs v < OVER ->
    exists c c',
      coverage ledCount rowCount (DFin peak) (DFin spectralCorrection)
        (DFin threshold) (dpattern pat) (DFin targetW) (DFin targetH) (DFin targetR)
        (DFin h) (DFin v) = Some c /\
      coverage ledCount rowCount (DFin peak') (DFin spectralCorrection)
        (DFin threshold) (dpattern pat) (DFin targetW) (DFin targetH) (DFin targetR)
        (DFin h) (DFin v) = Some c' /\
      (c <=? c')%js = true.


End RangeFacts.
